(** * Distributed tridiagonal Laplacian inversion (BOUT++): a shallow embedding

    The development follows the solver sources:
    - [parallel_tri.cxx]  (LaplaceParallelTri, the iterative relaxation solver),
    - [1d_multigrid.cxx]  (Laplace1DMG, the multigrid solver and its levels),
    - [pcr.cxx]           (LaplacePCR, parallel cyclic reduction).

    Conventions.  A C++ [int] is a [Z]; an [Array<T>] is a [list T] read and
    written by index; a [BoutReal] is a binary64 [float]; a [dcomplex] is an
    abstract scalar type with the operations used by the code.  Where a proof
    needs exact arithmetic the scalars are assumed to form a commutative
    ring. *)

From Stdlib Require Import ZArith List Bool Lia Ring Field setoid_ring.InitialRing.
From Stdlib Require QArith.Qcanon.
From Stdlib Require Import Floats.PrimFloat.
From stdpp Require Import base list.

Local Open Scope Z_scope.

(** ** Arrays indexed by [int] and counted [for] loops *)

Section Arrays.
Context {A : Type}.

(** [a[i]]: a read outside the allocation yields the default [d]
    (the statements below always stay inside the allocation). *)
Definition aget (d : A) (l : list A) (i : Z) : A :=
  if i <? 0 then d else default d (l !! Z.to_nat i).

(** [a[i] = v]: a write outside the allocation leaves the array alone. *)
Definition aset (l : list A) (i : Z) (v : A) : list A :=
  if i <? 0 then l else <[Z.to_nat i := v]> l.

(** [for (int i = lo; ...; i++) body], unrolled [fuel] times. *)
Fixpoint for_loop {S : Type} (fuel : nat) (i : Z) (body : Z -> S -> S) (s : S) : S :=
  match fuel with
  | O => s
  | Datatypes.S fuel' => for_loop fuel' (i + 1) body (body i s)
  end.

(** [for (int i = lo; i < hi; i++) body] *)
Definition for_range {S : Type} (lo hi : Z) (body : Z -> S -> S) (s : S) : S :=
  for_loop (Z.to_nat (hi - lo)) lo body s.

Lemma length_aset (l : list A) i v : length (aset l i v) = length l.
Proof. unfold aset. destruct (i <? 0); [done|]. by rewrite length_insert. Qed.

Lemma aget_aset_eq d (l : list A) i v :
  0 <= i < Z.of_nat (length l) -> aget d (aset l i v) i = v.
Proof.
  intros Hi. unfold aget, aset.
  destruct (Z.ltb_spec i 0); [lia|].
  rewrite list_lookup_insert_eq; [done | lia].
Qed.

Lemma aget_aset_ne d (l : list A) i j v :
  i <> j -> aget d (aset l i v) j = aget d l j.
Proof.
  intros Hij. unfold aget, aset.
  destruct (Z.ltb_spec j 0); [done|].
  destruct (Z.ltb_spec i 0); [done|].
  rewrite list_lookup_insert_ne; [done | lia].
Qed.

Lemma aget_outside d (l : list A) j :
  ~ (0 <= j < Z.of_nat (length l)) -> aget d l j = d.
Proof.
  intros Hj. unfold aget.
  destruct (Z.ltb_spec j 0); [done|].
  rewrite lookup_ge_None_2; [done | lia].
Qed.

Lemma aget_lookup d (l : list A) (n : nat) x :
  l !! n = Some x -> aget d l (Z.of_nat n) = x.
Proof.
  intros H. unfold aget.
  destruct (Z.ltb_spec (Z.of_nat n) 0); [lia|].
  by rewrite Nat2Z.id, H.
Qed.

(** Two arrays of one size that agree at every index are the same array. *)
Lemma aget_ext d (l1 l2 : list A) :
  length l1 = length l2 ->
  (forall j, 0 <= j < Z.of_nat (length l1) -> aget d l1 j = aget d l2 j) ->
  l1 = l2.
Proof.
  intros Hlen Hget. apply list_eq. intros n.
  destruct (l1 !! n) as [x|] eqn:E1.
  - assert (Hn : (n < length l1)%nat) by (eapply lookup_lt_Some; eauto).
    destruct (lookup_lt_is_Some_2 l2 n) as [y E2]; [lia|].
    rewrite E2. f_equal.
    rewrite <- (aget_lookup d _ _ _ E1), <- (aget_lookup d _ _ _ E2).
    apply Hget. lia.
  - symmetry. apply lookup_ge_None_2.
    apply lookup_ge_None_1 in E1. lia.
Qed.

(** A loop whose body rewrites only the cell of its own index. *)
Definition cellwise (d : A) (g : Z -> A -> A) : Z -> list A -> list A :=
  fun i x => aset x i (g i (aget d x i)).

Lemma length_for_loop_cellwise d g fuel lo (x : list A) :
  length (for_loop fuel lo (cellwise d g) x) = length x.
Proof.
  revert lo x. induction fuel as [|fuel IH]; intros lo x; simpl; [done|].
  rewrite IH. apply length_aset.
Qed.

Lemma aget_for_loop_cellwise d g fuel lo (x : list A) j :
  aget d (for_loop fuel lo (cellwise d g) x) j =
    if decide (lo <= j < lo + Z.of_nat fuel /\ 0 <= j < Z.of_nat (length x))
    then g j (aget d x j) else aget d x j.
Proof.
  revert lo x. induction fuel as [|fuel IH]; intros lo x; simpl for_loop.
  - destruct (decide _) as [H|H]; [lia | done].
  - rewrite IH.
    assert (Hlen : length (cellwise d g lo x) = length x) by apply length_aset.
    rewrite Hlen. unfold cellwise.
    destruct (decide (lo = j)) as [->|Hne].
    + destruct (decide (0 <= j < Z.of_nat (length x))) as [Hin|Hout].
      * rewrite aget_aset_eq by lia.
        destruct (decide _) as [H1|H1]; destruct (decide _) as [H2|H2];
          try done; lia.
      * rewrite (aget_outside d (aset _ _ _)) by (rewrite length_aset; lia).
        rewrite (aget_outside d x) by lia.
        destruct (decide _) as [H1|H1]; destruct (decide _) as [H2|H2];
          try done; lia.
    + rewrite aget_aset_ne by lia.
      destruct (decide _) as [H1|H1]; destruct (decide _) as [H2|H2];
        try done; lia.
Qed.

Lemma length_for_range_cellwise d g lo hi (x : list A) :
  length (for_range lo hi (cellwise d g) x) = length x.
Proof. apply length_for_loop_cellwise. Qed.

Lemma aget_for_range_cellwise d g lo hi (x : list A) j :
  aget d (for_range lo hi (cellwise d g) x) j =
    if decide (lo <= j < hi /\ 0 <= j < Z.of_nat (length x))
    then g j (aget d x j) else aget d x j.
Proof.
  unfold for_range. rewrite aget_for_loop_cellwise.
  destruct (decide _) as [H1|H1]; destruct (decide _) as [H2|H2]; try done; lia.
Qed.
End Arrays.


(** ** LaplaceParallelTri: guard vectors and reconstruction of the local solution

    [parallel_tri.cxx], [LaplaceParallelTri::solve(b, x0)].  For one mode
    [(jy, kz)] the tensors [upperGuardVector(i, jy, kz)] and
    [lowerGuardVector(i, jy, kz)] are arrays over the local x index [i]. *)

Section Reconstruction.
Context {dcomplex : Type}.
Context (c0 c1 : dcomplex) (cadd cmul : dcomplex -> dcomplex -> dcomplex).

Local Notation "x +c y" := (cadd x y) (at level 50, left associativity).
Local Notation "x *c y" := (cmul x y) (at level 40, left associativity).
Local Notation "a [@ i ]" := (aget c0 a i) (at level 1, i at level 200, format "a [@ i ]").

(** [for (int i = 0; i < ncx; i++) v[i] = 0.0;] *)
Definition fill_zero (ncx : Z) (v : list dcomplex) : list dcomplex :=
  for_range 0 ncx (cellwise c0 (fun _ _ => c0)) v.

(** [for (int i = 0; i < ncx; i++) dst[i] = src[i];] *)
Definition copy_array (ncx : Z) (src dst : list dcomplex) : list dcomplex :=
  for_range 0 ncx (cellwise c0 (fun i _ => src[@i])) dst.

(** [for (i...) evec[i] = 0.0;  evec[k] = 1.0;] *)
Definition unit_impulse (ncx k : Z) (evec : list dcomplex) : list dcomplex :=
  aset (fill_zero ncx evec) k c1.

(** Upper interface: on a rank that is not the last one the guard vector is
    the result [tmp] of the local solve against the impulse at [xend+1];
    on the last rank it is set to zero. *)
Definition set_upperGuardVector (lastX : bool) (ncx : Z)
    (tmp upperGuardVector : list dcomplex) : list dcomplex :=
  if negb lastX then copy_array ncx tmp upperGuardVector
  else fill_zero ncx upperGuardVector.

(** Lower interface: the same with the impulse at [xstart-1]; zero on the
    first rank. *)
Definition set_lowerGuardVector (firstX : bool) (ncx : Z)
    (tmp lowerGuardVector : list dcomplex) : list dcomplex :=
  if negb firstX then copy_array ncx tmp lowerGuardVector
  else fill_zero ncx lowerGuardVector.

(** "Now that halo cells are converged, use these to calculate whole
    solution": the three loops over [0 <= i < ncx] that overwrite [xk1d]. *)
Definition reconstruct_full_solution (firstX lastX : bool) (xs xe ncx : Z)
    (minvb lowerGuardVector upperGuardVector xk1dlast : list dcomplex)
    (xk1d : list dcomplex) : list dcomplex :=
  let xk1d := for_range 0 ncx (cellwise c0 (fun i _ => minvb[@i])) xk1d in
  let xk1d :=
    if negb lastX
    then for_range 0 ncx
           (cellwise c0 (fun i x => x +c upperGuardVector[@i] *c xk1dlast[@xe + 1]))
           xk1d
    else xk1d in
  let xk1d :=
    if negb firstX
    then for_range 0 ncx
           (cellwise c0 (fun i x => x +c lowerGuardVector[@i] *c xk1dlast[@xs - 1]))
           xk1d
    else xk1d in
  xk1d.

(** The value the three loops leave in cell [i], in the order the code adds
    the terms. *)
Definition reconstructed_cell (firstX lastX : bool) (xs xe : Z)
    (minvb lowerGuardVector upperGuardVector xk1dlast : list dcomplex) (i : Z) : dcomplex :=
  let v := minvb[@i] in
  let v := if negb lastX then v +c upperGuardVector[@i] *c xk1dlast[@xe + 1] else v in
  let v := if negb firstX then v +c lowerGuardVector[@i] *c xk1dlast[@xs - 1] else v in
  v.

Lemma length_fill_zero ncx v : length (fill_zero ncx v) = length v.
Proof. apply length_for_range_cellwise. Qed.

Lemma length_copy_array ncx src dst : length (copy_array ncx src dst) = length dst.
Proof. apply length_for_range_cellwise. Qed.

Lemma aget_fill_zero ncx v i :
  0 <= i < ncx -> (fill_zero ncx v)[@i] = c0.
Proof.
  intros Hi. unfold fill_zero. rewrite aget_for_range_cellwise.
  destruct (decide _) as [H|H]; [done|].
  apply aget_outside. lia.
Qed.

Lemma aget_copy_array ncx src dst i :
  0 <= i < ncx -> i < Z.of_nat (length dst) -> (copy_array ncx src dst)[@i] = src[@i].
Proof.
  intros Hi Hlen. unfold copy_array. rewrite aget_for_range_cellwise.
  destruct (decide _) as [H|H]; [done | lia].
Qed.

Lemma length_reconstruct_full_solution fx lx xs xe ncx minvb lgv ugv xlast xk1d :
  length (reconstruct_full_solution fx lx xs xe ncx minvb lgv ugv xlast xk1d)
  = length xk1d.
Proof.
  unfold reconstruct_full_solution.
  destruct fx, lx; simpl; rewrite ?length_for_range_cellwise; done.
Qed.

Lemma aget_reconstruct_full_solution fx lx xs xe ncx minvb lgv ugv xlast xk1d i :
  0 <= i < ncx -> i < Z.of_nat (length xk1d) ->
  (reconstruct_full_solution fx lx xs xe ncx minvb lgv ugv xlast xk1d)[@i]
  = reconstructed_cell fx lx xs xe minvb lgv ugv xlast i.
Proof.
  intros Hi Hlen. unfold reconstruct_full_solution, reconstructed_cell.
  destruct fx, lx; simpl;
    repeat (rewrite aget_for_range_cellwise, ?length_for_range_cellwise;
            destruct (decide _) as [_|H]; [|lia]);
    done.
Qed.

Lemma aget_reconstruct_beyond fx lx xs xe ncx minvb lgv ugv xlast xk1d i :
  ~ (0 <= i < ncx) ->
  (reconstruct_full_solution fx lx xs xe ncx minvb lgv ugv xlast xk1d)[@i] = xk1d[@i].
Proof.
  intros Hi. unfold reconstruct_full_solution.
  destruct fx, lx; simpl;
    repeat (rewrite aget_for_range_cellwise, ?length_for_range_cellwise;
            destruct (decide _) as [H|_]; [lia|]);
    done.
Qed.

(** C8 (idempotence of reconstruction).  The reconstruction reads only the
    particular solution, the guard vectors and the two edge values: running
    it a second time on the array that already holds the result returns the
    very same array, and two output arrays of the allocated size [ncx],
    whatever they held before, end up identical.  No law of arithmetic is
    used, so the statement covers floating-point scalars bit for bit. *)
Theorem reconstruct_twice_identical
    (firstX lastX : bool) (xs xe ncx : Z)
    (minvb lowerGuardVector upperGuardVector xk1dlast xk1d xk1d' : list dcomplex) :
  let rec_ := reconstruct_full_solution firstX lastX xs xe ncx
                minvb lowerGuardVector upperGuardVector xk1dlast in
  Z.of_nat (length xk1d) = ncx ->
  Z.of_nat (length xk1d') = ncx ->
  rec_ (rec_ xk1d) = rec_ xk1d /\ rec_ xk1d' = rec_ xk1d.
Proof.
  intros rec_ Hlen Hlen'. subst rec_.
  split; apply (aget_ext c0);
    rewrite ?length_reconstruct_full_solution; try lia;
    intros j Hj; rewrite !aget_reconstruct_full_solution;
    rewrite ?length_reconstruct_full_solution; try lia; done.
Qed.
End Reconstruction.


(** ** Exact arithmetic: the scalars as a commutative ring *)

Section ExactReconstruction.
Context {dcomplex : Type}.
Context (c0 c1 : dcomplex) (cadd cmul csub : dcomplex -> dcomplex -> dcomplex)
        (copp : dcomplex -> dcomplex).
Context (dcomplex_ring : ring_theory c0 c1 cadd cmul csub copp eq).

Add Ring dcomplex_ring_inst : dcomplex_ring.

Local Notation "x +c y" := (cadd x y) (at level 50, left associativity).
Local Notation "x *c y" := (cmul x y) (at level 40, left associativity).
Local Notation "a [@ i ]" := (aget c0 a i) (at level 1, i at level 200, format "a [@ i ]").

(** C2 (reconstruction formula).  With the guard vectors as the solver stores
    them, every local cell of the reconstructed solution is
    [minvb + lowerGuardVector * edge_low + upperGuardVector * edge_up], where
    the edge values are the halo cells [xstart-1] and [xend+1]; on the first
    rank the lower guard vector is zero and the lower term is absent, on the
    last rank the upper guard vector is zero and the upper term is absent. *)
Theorem reconstruct_formula
    (firstX lastX : bool) (xs xe ncx : Z)
    (minvb tmp_lower tmp_upper lgv0 ugv0 xk1dlast xk1d : list dcomplex) (i : Z) :
  let lowerGuardVector := set_lowerGuardVector c0 firstX ncx tmp_lower lgv0 in
  let upperGuardVector := set_upperGuardVector c0 lastX ncx tmp_upper ugv0 in
  let edge_low := xk1dlast[@xs - 1] in
  let edge_up := xk1dlast[@xe + 1] in
  let x := reconstruct_full_solution c0 cadd cmul firstX lastX xs xe ncx
             minvb lowerGuardVector upperGuardVector xk1dlast xk1d in
  Z.of_nat (length xk1d) = ncx ->
  0 <= i < ncx ->
  x[@i] = minvb[@i] +c lowerGuardVector[@i] *c edge_low
                    +c upperGuardVector[@i] *c edge_up
  /\ (firstX = true ->
      lowerGuardVector[@i] = c0 /\
      x[@i] = if lastX then minvb[@i] else minvb[@i] +c upperGuardVector[@i] *c edge_up)
  /\ (lastX = true ->
      upperGuardVector[@i] = c0 /\
      x[@i] = if firstX then minvb[@i] else minvb[@i] +c lowerGuardVector[@i] *c edge_low).
Proof.
  intros L U el eu x Hlen Hi. subst x.
  rewrite aget_reconstruct_full_solution by lia.
  unfold reconstructed_cell. fold el eu.
  assert (HL : firstX = true -> L[@i] = c0).
  { intros ->. subst L. unfold set_lowerGuardVector. simpl.
    by apply aget_fill_zero. }
  assert (HU : lastX = true -> U[@i] = c0).
  { intros ->. subst U. unfold set_upperGuardVector. simpl.
    by apply aget_fill_zero. }
  destruct firstX, lastX; simpl;
    rewrite ?(HL eq_refl), ?(HU eq_refl);
    repeat split; intros; try done; try ring.
Qed.

End ExactReconstruction.

(** The formula at a concrete middle rank over the integers. *)
Lemma reconstruct_formula_witness :
  aget 0 (reconstruct_full_solution 0 Z.add Z.mul false false 1 2 4
            [5; 6; 7; 8]
            (set_lowerGuardVector 0 false 4 [1; 2; 3; 4] [0; 0; 0; 0])
            (set_upperGuardVector 0 false 4 [4; 3; 2; 1] [0; 0; 0; 0])
            [10; 0; 0; 100] [0; 0; 0; 0]) 2
  = 7 + 3 * 10 + 2 * 100.
Proof.
  pose proof (reconstruct_formula 0 1 Z.add Z.mul Z.sub Z.opp Zth
                false false 1 2 4 [5; 6; 7; 8] [1; 2; 3; 4] [4; 3; 2; 1]
                [0; 0; 0; 0] [0; 0; 0; 0] [10; 0; 0; 100] [0; 0; 0; 0] 2) as H.
  simpl in H. destruct H as [H _]; [reflexivity | lia |].
  exact H.
Defined.


(** ** Results of loops that may fault or fail to return *)

Inductive result (S : Type) : Type :=
| Ok (s : S)                 (* normal completion *)
| OutOfBounds (i j : Z)      (* an array access [(i, j)] outside the allocation *)
| Timeout.                   (* the loop is still running when the fuel is spent *)

Arguments Ok {S} s.
Arguments OutOfBounds {S} i j.
Arguments Timeout {S}.

Definition bind {S T : Type} (r : result S) (k : S -> result T) : result T :=
  match r with
  | Ok s => k s
  | OutOfBounds i j => OutOfBounds i j
  | Timeout => Timeout
  end.

Notation "'do' x <- r ;; k" := (bind r (fun x => k))
  (at level 10, x name, r at level 99, k at level 200).

(** [for (int i = lo; i < hi; i += step) body] *)
Fixpoint for_stride {S : Type} (fuel : nat) (i hi step : Z)
    (body : Z -> S -> result S) (s : S) : result S :=
  if i <? hi then
    match fuel with
    | O => Timeout
    | Datatypes.S fuel' =>
        do s' <- body i s ;; for_stride fuel' (i + step) hi step body s'
    end
  else Ok s.

(** A 32-bit [int] after an increment. *)
Definition wrap_int (z : Z) : Z := (z + 2 ^ 31) mod 2 ^ 32 - 2 ^ 31.

Lemma wrap_int_small z : - 2 ^ 31 <= z < 2 ^ 31 -> wrap_int z = z.
Proof.
  intros Hz. unfold wrap_int.
  rewrite Z.mod_small by lia. lia.
Qed.


(** ** Laplace1DMG::Level: residual calculation

    [1d_multigrid.cxx], [Laplace1DMG::Level::calculate_residual].  The
    assignment to [residual(ix, kz)] is a transformer [residual_point ix kz]
    of the level's arrays; the loop headers are those of the source. *)

Section CalculateResidual.
Context {LevelArrays : Type}.
Context (residual_point : Z -> Z -> LevelArrays -> LevelArrays).

(** [for (int ix = 0; ix < l.nmode; kz++) { residual(ix, kz) = ...; }]
    entered with [ix] and the current [kz]; returns the [kz] it leaves. *)
Fixpoint residual_inner_loop (fuel : nat) (nmode ix kz : Z) (s : LevelArrays)
    : result (Z * LevelArrays) :=
  if ix <? nmode then
    match fuel with
    | O => Timeout
    | Datatypes.S fuel' =>
        residual_inner_loop fuel' nmode ix (wrap_int (kz + 1)) (residual_point ix kz s)
    end
  else Ok (kz, s).

(** [for (int kz = 0; kz < l.nmode; kz++) { if (not l.converged[kz]) {...} }] *)
Fixpoint residual_outer_loop (fuel : nat) (nmode : Z) (converged : list bool)
    (kz : Z) (s : LevelArrays) : result LevelArrays :=
  if kz <? nmode then
    match fuel with
    | O => Timeout
    | Datatypes.S fuel' =>
        if negb (aget true converged kz)
        then do ks <- residual_inner_loop fuel' nmode 0 kz s ;;
             residual_outer_loop fuel' nmode converged (wrap_int (fst ks + 1)) (snd ks)
        else residual_outer_loop fuel' nmode converged (wrap_int (kz + 1)) s
    end
  else Ok s.

Definition calculate_residual (fuel : nat) (included : bool) (nmode : Z)
    (converged : list bool) (s : LevelArrays) : result LevelArrays :=
  if negb included then Ok s
  else residual_outer_loop fuel nmode converged 0 s.

(** The x indices the inner loop visits within [fuel] steps. *)
Fixpoint residual_inner_visits (fuel : nat) (nmode ix kz : Z) : list (Z * Z) :=
  if ix <? nmode then
    match fuel with
    | O => []
    | Datatypes.S fuel' => (ix, kz) :: residual_inner_visits fuel' nmode ix (wrap_int (kz + 1))
    end
  else [].

Lemma residual_inner_loop_never_returns fuel nmode kz s :
  0 < nmode -> residual_inner_loop fuel nmode 0 kz s = Timeout.
Proof.
  intros Hn. revert kz s.
  induction fuel as [|fuel IH]; intros kz s; simpl;
    destruct (Z.ltb_spec 0 nmode); try lia; [done | apply IH].
Qed.

Lemma residual_inner_visits_only_zero fuel nmode kz p :
  In p (residual_inner_visits fuel nmode 0 kz) -> fst p = 0.
Proof.
  revert kz. induction fuel as [|fuel IH]; intros kz; simpl;
    destruct (0 <? nmode); simpl; try tauto.
  intros [<-|H]; [done | eauto].
Qed.

Lemma residual_outer_loop_never_returns fuel nmode converged kz0 s :
  0 < nmode < 2 ^ 31 ->
  0 <= kz0 < nmode ->
  aget true converged kz0 = false ->
  forall kz, 0 <= kz <= kz0 ->
  residual_outer_loop fuel nmode converged kz s = Timeout.
Proof.
  intros Hn Hk0 Hc. revert s.
  induction fuel as [|fuel IH]; intros s kz Hkz; simpl;
    destruct (Z.ltb_spec kz nmode); try lia; [done|].
  destruct (aget true converged kz) eqn:E; simpl.
  - assert (kz <> kz0) by congruence.
    rewrite wrap_int_small by lia. apply IH. lia.
  - rewrite residual_inner_loop_never_returns by lia. done.
Qed.

(** C9 (termination of the residual calculation): the code at an input with
    an unconverged mode.  Whatever the amount of fuel, the routine has not
    returned: the inner loop tests [ix < nmode] but advances [kz], so [ix]
    stays at 0, and 0 is the only x index it ever visits. *)
Theorem calculate_residual_never_returns
    (fuel : nat) (nmode : Z) (converged : list bool) (kz0 : Z) (s : LevelArrays) :
  0 < nmode < 2 ^ 31 ->
  0 <= kz0 < nmode ->
  aget true converged kz0 = false ->
  calculate_residual fuel true nmode converged s = Timeout
  /\ forall kz p, In p (residual_inner_visits fuel nmode 0 kz) -> fst p = 0.
Proof.
  intros Hn Hk Hc. split.
  - unfold calculate_residual. simpl.
    eapply residual_outer_loop_never_returns; eauto. lia.
  - intros kz p. apply residual_inner_visits_only_zero.
Qed.
End CalculateResidual.

(** One mode, not converged: the routine is still running after any number
    of steps. *)
Lemma calculate_residual_never_returns_witness :
  calculate_residual (fun _ _ (n : nat) => Datatypes.S n) 1000 true 1 [false] O = Timeout.
Proof.
  apply (calculate_residual_never_returns
           (fun _ _ (n : nat) => Datatypes.S n) 1000 1 [false] 0 O);
    [lia | lia | reflexivity].
Defined.


(** ** Laplace1DMG::Level: local red-black Gauss-Seidel sweep

    [1d_multigrid.cxx], [Laplace1DMG::Level::init] (finest level) and
    [Laplace1DMG::Level::gauss_seidel_red_black_local].  A [Matrix<T>] of
    shape [(n1, n2)] stores [(i, j)] at offset [i * n2 + j]; an access is
    inside the allocation when [0 <= i < n1] and [0 <= j < n2].  The tensors
    [ar], [cr], [brinv] are used at the fixed slice [l.jy] and appear as
    matrices over [(ix, kz)]. *)

Section GaussSeidelLocal.
Context {dcomplex : Type}.
Context (c0 : dcomplex) (csub cmul : dcomplex -> dcomplex -> dcomplex).

Local Notation "x -c y" := (csub x y) (at level 50, left associativity).
Local Notation "x *c y" := (cmul x y) (at level 40, left associativity).

Record Matrix : Type := mkMatrix {
  shape1 : Z;
  shape2 : Z;
  mdata : list dcomplex
}.

Definition in_bounds (m : Matrix) (i j : Z) : bool :=
  (0 <=? i) && (i <? shape1 m) && (0 <=? j) && (j <? shape2 m).

(** [m(i, j)] as an rvalue *)
Definition mget (m : Matrix) (i j : Z) : result dcomplex :=
  if in_bounds m i j then Ok (aget c0 (mdata m) (i * shape2 m + j))
  else OutOfBounds i j.

(** [m(i, j) = v] *)
Definition mset (m : Matrix) (i j : Z) (v : dcomplex) : result Matrix :=
  if in_bounds m i j
  then Ok (mkMatrix (shape1 m) (shape2 m) (aset (mdata m) (i * shape2 m + j) v))
  else OutOfBounds i j.

(** The arrays of a level that the sweep reads, and the flag [included]. *)
Record Level : Type := mkLevel {
  included : bool;
  ar : Matrix;
  cr : Matrix;
  brinv : Matrix;
  rr : Matrix
}.

(** The allocations of [Level::init(Laplace1DMG& l)]: the coefficient
    arrays have [l.ncx] rows, [xloc = Matrix<dcomplex>(l.ncx+2, l.nmode)]. *)
Definition level0_allocated (ncx nmode : Z) (L : Level) (xloc : Matrix) : Prop :=
  included L = true /\
  (shape1 (ar L) = ncx /\ shape2 (ar L) = nmode) /\
  (shape1 (cr L) = ncx /\ shape2 (cr L) = nmode) /\
  (shape1 (brinv L) = ncx /\ shape2 (brinv L) = nmode) /\
  (shape1 (rr L) = ncx /\ shape2 (rr L) = nmode) /\
  (shape1 xloc = ncx + 2 /\ shape2 xloc = nmode).

(** [xloc(ix, kz) = (rr(ix, kz) - ar(l.jy, ix, kz) * xloc(ix-1, kz)
                     - cr(l.jy, ix, kz) * xloc(ix+1, kz)) * brinv(l.jy, ix, kz);] *)
Definition gauss_seidel_point (L : Level) (kz ix : Z) (xloc : Matrix) : result Matrix :=
  do rr_ <- mget (rr L) ix kz ;;
  do ar_ <- mget (ar L) ix kz ;;
  do xm <- mget xloc (ix - 1) kz ;;
  do cr_ <- mget (cr L) ix kz ;;
  do xp <- mget xloc (ix + 1) kz ;;
  do bi <- mget (brinv L) ix kz ;;
  mset xloc ix kz ((rr_ -c ar_ *c xm -c cr_ *c xp) *c bi).

(** One colour: [for (kz...) if (not l.converged[kz]) for (ix = first; ix <
    nxlevel; ix += 2) ...] *)
Definition gauss_seidel_colour (L : Level) (nxlevel nmode : Z) (converged : list bool)
    (first : Z) (xloc : Matrix) : result Matrix :=
  for_stride (Z.to_nat nmode) 0 nmode 1
    (fun kz xloc =>
       if negb (aget true converged kz)
       then for_stride (Z.to_nat nxlevel) first nxlevel 2 (gauss_seidel_point L kz) xloc
       else Ok xloc)
    xloc.

(** [nxlevel = l.localmesh->LocalNx]; the even points are swept first, then
    the odd points. *)
Definition gauss_seidel_red_black_local (L : Level) (LocalNx nmode : Z)
    (converged : list bool) (xloc : Matrix) : result Matrix :=
  if negb (included L) then Ok xloc
  else
    do xloc <- gauss_seidel_colour L LocalNx nmode converged 0 xloc ;;
    gauss_seidel_colour L LocalNx nmode converged 1 xloc.

Lemma gauss_seidel_point_first_row (L : Level) (ncx nmode kz : Z) (xloc : Matrix) :
  level0_allocated ncx nmode L xloc ->
  0 < ncx -> 0 <= kz < nmode ->
  gauss_seidel_point L kz 0 xloc = OutOfBounds (-1) kz.
Proof.
  intros (_ & [Ha1 Ha2] & _ & _ & [Hr1 Hr2] & [Hx1 Hx2]) Hn Hk.
  unfold gauss_seidel_point, mget, in_bounds.
  rewrite Hr1, Hr2, Ha1, Ha2, Hx1, Hx2.
  replace (0 <=? 0) with true by done.
  replace (0 <? ncx) with true by (symmetry; apply Z.ltb_lt; lia).
  replace (0 <=? kz) with true by (symmetry; apply Z.leb_le; lia).
  replace (kz <? nmode) with true by (symmetry; apply Z.ltb_lt; lia).
  simpl. done.
Qed.

Lemma gauss_seidel_colour_even_faults (L : Level) (ncx nmode kz0 : Z)
    (converged : list bool) (xloc : Matrix) :
  level0_allocated ncx nmode L xloc ->
  0 < ncx -> 0 <= kz0 < nmode ->
  (forall k, 0 <= k < kz0 -> aget true converged k = true) ->
  aget true converged kz0 = false ->
  gauss_seidel_colour L ncx nmode converged 0 xloc = OutOfBounds (-1) kz0.
Proof.
  intros Hal Hn Hk Hbefore Hkz0. unfold gauss_seidel_colour.
  assert (Hgen : forall (fuel : nat) kz,
             0 <= kz <= kz0 -> (Z.to_nat (nmode - kz) <= fuel)%nat ->
             for_stride fuel kz nmode 1
               (fun kz xloc =>
                  if negb (aget true converged kz)
                  then for_stride (Z.to_nat ncx) 0 ncx 2 (gauss_seidel_point L kz) xloc
                  else Ok xloc) xloc
             = OutOfBounds (-1) kz0).
  { induction fuel as [|fuel IH]; intros kz Hkz Hfuel; simpl;
      destruct (Z.ltb_spec kz nmode); try lia.
    destruct (decide (kz = kz0)) as [->|Hne].
    - rewrite Hkz0. simpl.
      destruct (Z.to_nat ncx) as [|n] eqn:En; [lia|]. simpl.
      destruct (Z.ltb_spec 0 ncx); [|lia].
      erewrite gauss_seidel_point_first_row by eauto. done.
    - rewrite Hbefore by lia. simpl. apply IH; lia. }
  apply Hgen; lia.
Qed.

(** C10 (bounds of the accesses to [xloc]): the code at an input with an
    unconverged mode.  With the arrays as [init] allocates them and at
    least one local x point, the sweep over the even points starts at
    [ix = 0] and reads [xloc(ix-1, kz) = xloc(-1, kz)], a row below the
    allocation [0 <= row < LocalNx + 2], for the first unconverged mode. *)
Theorem gauss_seidel_red_black_local_out_of_bounds
    (L : Level) (LocalNx nmode kz0 : Z) (converged : list bool) (xloc : Matrix) :
  level0_allocated LocalNx nmode L xloc ->
  0 < LocalNx -> 0 <= kz0 < nmode ->
  (forall k, 0 <= k < kz0 -> aget true converged k = true) ->
  aget true converged kz0 = false ->
  gauss_seidel_red_black_local L LocalNx nmode converged xloc = OutOfBounds (-1) kz0
  /\ in_bounds xloc (-1) kz0 = false.
Proof.
  intros Hal Hn Hk Hbefore Hkz0. split.
  - unfold gauss_seidel_red_black_local.
    destruct Hal as (Hinc & Hrest). rewrite Hinc. simpl.
    erewrite gauss_seidel_colour_even_faults; eauto.
    repeat split; tauto.
  - unfold in_bounds. done.
Qed.
End GaussSeidelLocal.

(** A level with four local x points and one unconverged mode. *)
Lemma gauss_seidel_red_black_local_out_of_bounds_witness :
  let m := mkMatrix 4 1 [1; 1; 1; 1] in
  gauss_seidel_red_black_local 0 Z.sub Z.mul (mkLevel true m m m m) 4 1 [false]
    (mkMatrix 6 1 [0; 0; 0; 0; 0; 0])
  = OutOfBounds (-1) 0.
Proof.
  intros m.
  apply (gauss_seidel_red_black_local_out_of_bounds 0 Z.sub Z.mul
           (mkLevel true m m m m) 4 1 0 [false] (mkMatrix 6 1 [0; 0; 0; 0; 0; 0])).
  - unfold level0_allocated. simpl. repeat split; reflexivity.
  - lia.
  - lia.
  - intros k Hk. lia.
  - reflexivity.
Defined.


(** ** LaplacePCR: checks made by the constructor

    [pcr.cxx], the constructor [LaplacePCR::LaplacePCR]. *)

Module PCR.

(** The part of the mesh the constructor looks at. *)
Record Mesh : Type := mkMesh {
  NXPE : Z;            (* getNXPE(): ranks along x *)
  NYPE : Z;            (* getNYPE(): ranks along y *)
  firstX : bool;
  lastX : bool;
  periodicX : bool;
  GlobalNx : Z;
  LocalNx : Z;
  LocalNz : Z;
  xstart : Z;
  xend : Z
}.

Inductive BoutException : Type :=
| NXPE_must_be_a_power_of_2    (* "LaplacePCR error: NXPE must be a power of 2" *)
| NYPE_must_equal_1            (* "LaplacePCR error: NYPE must equal 1" *)
| PCR_only_works_for_NXPE_gt_1 (* "Error: PCR method only works for NXPE > 1. ..." *)
| GlobalNx_must_be_a_power_of_2. (* "LaplacePCR error: GlobalNx must be a power of 2" *)

(** Modelled from the spec: [is_pow2] of [utils.hxx], which is not among the
    sources; the spec speaks of a "rank count not a power of two".  The
    function answers whether its argument is a power of two. *)
Definition is_pow2 (x : Z) : bool := (0 <? x) && (x =? 2 ^ Z.log2 x).

(** What the constructor has set up when it returns. *)
Record LaplacePCR : Type := mkLaplacePCR {
  nmode : Z;
  xs : Z;
  xe : Z;
  n : Z      (* rows of the arrays a, b, c, xcmplx, bcmplx *)
}.

(** The constructor: the four checks in the order of the source, then the
    sizes it allocates.  [dst] is the option read with [OPTION(opt, dst,
    false)], [maxmode] the member set by the base class. *)
Definition LaplacePCR_new (dst : bool) (maxmode : Z) (localmesh : Mesh)
    : BoutException + LaplacePCR :=
  let nxpe := NXPE localmesh in
  if negb (is_pow2 nxpe) then inl NXPE_must_be_a_power_of_2
  else
    let nype := NYPE localmesh in
    if negb (nype =? 1) then inl NYPE_must_equal_1
    else if firstX localmesh && lastX localmesh then inl PCR_only_works_for_NXPE_gt_1
    else if negb (is_pow2 (GlobalNx localmesh - 4)) then inl GlobalNx_must_be_a_power_of_2
    else
      let nmode := if dst then LocalNz localmesh - 2 else maxmode + 1 in
      let xs := if firstX localmesh && negb (periodicX localmesh)
                then 0 else xstart localmesh in
      let xe := if lastX localmesh && negb (periodicX localmesh)
                then LocalNx localmesh - 1 else xend localmesh in
      inr (mkLaplacePCR nmode xs xe (xe - xs + 1)).

Lemma is_pow2_spec (x : Z) :
  is_pow2 x = true <-> exists k, 0 <= k /\ x = 2 ^ k.
Proof.
  unfold is_pow2. rewrite andb_true_iff, Z.ltb_lt, Z.eqb_eq. split.
  - intros [Hpos Heq]. exists (Z.log2 x). split; [apply Z.log2_nonneg | done].
  - intros (k & Hk & ->). split; [lia|].
    rewrite Z.log2_pow2 by lia. done.
Qed.

(** C5 (invalid configuration is rejected at construction).  If the number
    of ranks along x is not a power of two, or there is more than one rank
    along y, the constructor throws: it returns no solver object, so no
    [solve] can be called on one. *)
Theorem LaplacePCR_new_rejects (dst : bool) (maxmode : Z) (localmesh : Mesh) :
  ~ (exists k, 0 <= k /\ NXPE localmesh = 2 ^ k) \/ 1 < NYPE localmesh ->
  (exists e, LaplacePCR_new dst maxmode localmesh = inl e
             /\ (e = NXPE_must_be_a_power_of_2 \/ e = NYPE_must_equal_1))
  /\ forall solver, LaplacePCR_new dst maxmode localmesh <> inr solver.
Proof.
  intros H.
  assert (Hthrow : exists e, LaplacePCR_new dst maxmode localmesh = inl e
             /\ (e = NXPE_must_be_a_power_of_2 \/ e = NYPE_must_equal_1)).
  { unfold LaplacePCR_new.
    destruct (is_pow2 (NXPE localmesh)) eqn:Epow; simpl.
    - destruct H as [H|H].
      + exfalso. apply H. by apply is_pow2_spec.
      + destruct (Z.eqb_spec (NYPE localmesh) 1) as [E|E]; [lia|]. simpl.
        eexists. split; [done | by right].
    - eexists. split; [done | by left]. }
  split; [done|].
  destruct Hthrow as (e & -> & _). done.
Qed.

End PCR.

(** Six ranks along x: not a power of two. *)
Lemma LaplacePCR_new_rejects_witness :
  PCR.LaplacePCR_new false 8 (PCR.mkMesh 6 1 true false false 68 14 16 2 11)
  = inl PCR.NXPE_must_be_a_power_of_2.
Proof.
  destruct (PCR.LaplacePCR_new_rejects false 8
              (PCR.mkMesh 6 1 true false false 68 14 16 2 11)) as [(e & He & _) _].
  - left. simpl. intros (k & Hk & Hpow).
    assert (k < 3) by (apply (Z.pow_lt_mono_r_iff 2); lia).
    assert (Hc : k = 0 \/ k = 1 \/ k = 2) by lia.
    destruct Hc as [-> | [-> | ->]]; discriminate.
  - reflexivity.
Defined.


(** ** LaplaceParallelTri: the relaxation loop on the interface values

    [parallel_tri.cxx], third version of [LaplaceParallelTri::solve(b, x0)]
    (with [get_errors] and [is_diagonally_dominant]).  One rank and one mode:
    the rank's state, one pass through the body of [while (true)], and what
    it exchanges with its two neighbours.  [communicateXIn(v)] sends [v] to
    the inner neighbour and returns what that neighbour passed to its
    [communicateXOut], and conversely. *)

Module IPT.
Section Iteration.
Context {dcomplex : Type}.
Context (c0 : dcomplex) (cadd cmul csub : dcomplex -> dcomplex -> dcomplex).
(** [abs] and [fabs] of a complex number *)
Context (cabs : dcomplex -> float).

Local Notation "x +c y" := (cadd x y) (at level 50, left associativity).
Local Notation "x -c y" := (csub x y) (at level 50, left associativity).
Local Notation "x *c y" := (cmul x y) (at level 40, left associativity).
Local Notation "a [@ i ]" := (aget c0 a i) (at level 1, i at level 200, format "a [@ i ]").

(** [get_errors(&error_rel, &error_abs, x, xlast)] *)
Definition get_errors (x xlast : dcomplex) : float * float :=
  let error_abs := cabs (x -c xlast) in
  let xabs := cabs x in
  if (0 <? xabs)%float then ((error_abs / xabs)%float, error_abs)
  else (error_abs, error_abs).

(** [is_diagonally_dominant(al, au, bl, bu, jy, kz)] (the messages it prints
    are left out) *)
Definition is_diagonally_dominant (al au bl bu : dcomplex) : bool :=
  let is_dd := true in
  let is_dd := if (1 <? cabs al + cabs bl)%float then false else is_dd in
  let is_dd := if (1 <? cabs au + cabs bu)%float then false else is_dd in
  is_dd.

(** Options of the solver. *)
Record options : Type := mkOptions {
  rtol : float;
  atol : float;
  maxits : Z;
  new_method : bool
}.

(** Coefficients of the rank's two interface equations. *)
Record coefficients : Type := mkCoefficients {
  rl : dcomplex; ru : dcomplex;
  al : dcomplex; bl : dcomplex;
  au : dcomplex; bu : dcomplex
}.

(** The variables of the loop. *)
Record state : Type := mkState {
  count : Z;
  self_in : bool;
  self_out : bool;
  neighbour_in : bool;
  neighbour_out : bool;
  xloc : list dcomplex;       (* Array<dcomplex>(4) *)
  xloclast : list dcomplex    (* Array<dcomplex>(4) *)
}.

(** What travels to or from one neighbour in one pass: the convergence flag
    and the interface value. *)
Record message : Type := mkMessage {
  flag : bool;
  value : dcomplex
}.

Inductive direction : Type := XIn | XOut.

(** The two exceptions thrown when [count > maxits]. *)
Inductive BoutException : Type :=
| maxits_diagonally_dominant
    (* "... The iteration matrix is diagonally dominant on processor %i and
       convergence is guaranteed ... Please increase maxits and retry." *)
| maxits_not_diagonally_dominant.
    (* "... The iteration matrix is not diagonally dominant on processor %i,
       so there is no guarantee this method will converge. ..." *)

Inductive outcome : Type :=
| Continue (s : state)      (* end of the body, next pass *)
| Break (s : state)         (* [break] *)
| Throw (e : BoutException).

(** [(error_rel < rtol or error_abs < atol)] for one edge *)
Definition within_tolerance (opt : options) (errors : float * float) : bool :=
  (fst errors <? rtol opt)%float || (snd errors <? atol opt)%float.

(** "Only need to update interior points" *)
Definition update_interface (cf : coefficients) (xloclast xloc : list dcomplex)
    : list dcomplex :=
  let xloc := aset xloc 1 (rl cf +c al cf *c xloclast[@0] +c bl cf *c xloclast[@3]) in
  let xloc := aset xloc 2 (ru cf +c au cf *c xloclast[@0] +c bu cf *c xloclast[@3]) in
  xloc.

(** The condition of "Set communication flags". *)
Definition meets_tolerance (opt : options) (s : state) (xloc : list dcomplex) : bool :=
  (0 <? count s) &&
  (within_tolerance opt (get_errors xloc[@1] (xloclast s)[@1]) &&
   within_tolerance opt (get_errors xloc[@2] (xloclast s)[@2])).

(** One pass through the body of the loop.  [from_in] and [from_out] are
    what the neighbours hand over if the rank communicates with them in this
    pass; the first component of the result lists what the rank sends. *)
Definition iterate (opt : options) (cf : coefficients)
    (from_in from_out : message) (s : state)
    : list (direction * message) * outcome :=
  let xloc := update_interface cf (xloclast s) (xloc s) in
  let converged_now := meets_tolerance opt s xloc in
  let self_in := if converged_now then true else self_in s in
  let self_out := if converged_now then true else self_out s in
  (* Communicate in *)
  let sent_in :=
    if negb (neighbour_in s)
    then [(XIn, mkMessage self_in (if new_method opt then xloc[@2] else xloc[@1]))]
    else [] in
  let neighbour_in' := if negb (neighbour_in s) then flag from_in else neighbour_in s in
  let xloc := if negb (neighbour_in s) then aset xloc 0 (value from_in) else xloc in
  (* Communicate out *)
  let sent_out :=
    if negb (neighbour_out s)
    then [(XOut, mkMessage self_out (if new_method opt then xloc[@1] else xloc[@2]))]
    else [] in
  let neighbour_out' := if negb (neighbour_out s) then flag from_out else neighbour_out s in
  let xloc := if negb (neighbour_out s) then aset xloc 3 (value from_out) else xloc in
  let sent := sent_in ++ sent_out in
  if self_in && self_out
  then (sent, Break (mkState (count s) self_in self_out neighbour_in' neighbour_out'
                       xloc (xloclast s)))
  else
    let self_in := if neighbour_in' then true else self_in in
    let self_out := if neighbour_out' then true else self_out in
    let count := count s + 1 in
    if maxits opt <? count
    then (sent,
          Throw (if is_diagonally_dominant (al cf) (au cf) (bl cf) (bu cf)
                 then maxits_diagonally_dominant
                 else maxits_not_diagonally_dominant))
    else (sent, Continue (mkState count self_in self_out neighbour_in' neighbour_out'
                            xloc (copy_array c0 4 xloc (xloclast s)))).

(** The state at the top of the loop for a mode: all flags false, except
    that a physical boundary counts as a converged neighbour. *)
Definition initial_state (firstX lastX : bool) (xloc xloclast : list dcomplex) : state :=
  mkState 0 false false firstX lastX xloc xloclast.

Lemma aget_update_interface_1 cf xloclast xloc :
  (4 <= length xloc)%nat ->
  (update_interface cf xloclast xloc)[@1]
  = rl cf +c al cf *c xloclast[@0] +c bl cf *c xloclast[@3].
Proof.
  intros Hlen. unfold update_interface.
  rewrite aget_aset_ne by lia. rewrite aget_aset_eq by lia. done.
Qed.

Lemma aget_update_interface_2 cf xloclast xloc :
  (4 <= length xloc)%nat ->
  (update_interface cf xloclast xloc)[@2]
  = ru cf +c au cf *c xloclast[@0] +c bu cf *c xloclast[@3].
Proof.
  intros Hlen. unfold update_interface.
  rewrite aget_aset_eq by (rewrite length_aset; lia). done.
Qed.

Lemma aget_update_interface_halo cf xloclast xloc i :
  i <> 1 -> i <> 2 -> (update_interface cf xloclast xloc)[@i] = xloc[@i].
Proof.
  intros H1 H2. unfold update_interface.
  rewrite !aget_aset_ne by lia. done.
Qed.

(** The array [xloc] as the exchanges leave it. *)
Definition exchanged_xloc (from_in from_out : message) (s : state)
    (xloc : list dcomplex) : list dcomplex :=
  let xloc := if negb (neighbour_in s) then aset xloc 0 (value from_in) else xloc in
  if negb (neighbour_out s) then aset xloc 3 (value from_out) else xloc.

(** The messages of one pass, given the flags after the tolerance test. *)
Definition sent_messages (opt : options) (s : state) (self_in self_out : bool)
    (xloc : list dcomplex) : list (direction * message) :=
  (if neighbour_in s then []
   else [(XIn, mkMessage self_in (if new_method opt then xloc[@2] else xloc[@1]))])
  ++ (if neighbour_out s then []
      else [(XOut, mkMessage self_out (if new_method opt then xloc[@1] else xloc[@2]))]).


Lemma fst_iterate opt cf from_in from_out s :
  let xloc' := update_interface cf (xloclast s) (xloc s) in
  let m := meets_tolerance opt s xloc' in
  fst (iterate opt cf from_in from_out s)
  = sent_messages opt s (if m then true else self_in s)
      (if m then true else self_out s) xloc'.
Proof.
  intros xloc' m. unfold iterate, sent_messages. fold xloc'. fold m.
  assert (Hsent :
    (if negb (neighbour_out s)
     then [(XOut, mkMessage (if m then true else self_out s)
                    (if new_method opt
                     then (if negb (neighbour_in s)
                           then aset xloc' 0 (value from_in) else xloc')[@1]
                     else (if negb (neighbour_in s)
                           then aset xloc' 0 (value from_in) else xloc')[@2]))]
     else [])
    = (if neighbour_out s then []
       else [(XOut, mkMessage (if m then true else self_out s)
                      (if new_method opt then xloc'[@1] else xloc'[@2]))])).
  { destruct (neighbour_out s); simpl; [done|].
    destruct (negb (neighbour_in s)); rewrite ?aget_aset_ne by lia; done. }
  destruct ((if m then true else self_in s) && (if m then true else self_out s));
    [|destruct (maxits opt <? count s + 1)]; simpl; rewrite Hsent;
    destruct (neighbour_in s); done.
Qed.


Lemma snd_iterate_when_marked opt cf from_in from_out s :
  let xloc' := update_interface cf (xloclast s) (xloc s) in
  (meets_tolerance opt s xloc' || (self_in s && self_out s)) = true ->
  snd (iterate opt cf from_in from_out s)
  = Break (mkState (count s) true true
             (if neighbour_in s then true else flag from_in)
             (if neighbour_out s then true else flag from_out)
             (exchanged_xloc from_in from_out s xloc') (xloclast s)).
Proof.
  intros xloc' Hm. unfold iterate. fold xloc'.
  destruct (meets_tolerance opt s xloc') eqn:Em; simpl in *.
  - unfold exchanged_xloc. destruct (neighbour_in s), (neighbour_out s); done.
  - apply andb_true_iff in Hm as [-> ->]. simpl.
    unfold exchanged_xloc. destruct (neighbour_in s), (neighbour_out s); done.
Qed.


(** The third version does throw when the budget is exceeded: a pass that
    does not leave by [break] and brings [count] above [maxits] ends in one
    of the two exceptions, chosen by [is_diagonally_dominant] on this rank. *)
Lemma relaxation_budget_exceeded_throws opt cf from_in from_out s :
  let xloc' := update_interface cf (xloclast s) (xloc s) in
  (meets_tolerance opt s xloc' || (self_in s && self_out s)) = false ->
  maxits opt < count s + 1 ->
  snd (iterate opt cf from_in from_out s)
  = Throw (if is_diagonally_dominant (al cf) (au cf) (bl cf) (bu cf)
           then maxits_diagonally_dominant
           else maxits_not_diagonally_dominant).
Proof.
  intros xloc' Hm Hc. unfold iterate. fold xloc'.
  apply orb_false_iff in Hm as [Hm Hs]. rewrite Hm. simpl. rewrite Hs.
  destruct (Z.ltb_spec (maxits opt) (count s + 1)); [done | lia].
Qed.

End Iteration.
End IPT.


(** ** Laplace1DMG: convergence marking and the multigrid loop of [solve]

    [1d_multigrid.cxx], [Laplace1DMG::Level::calculate_total_residual] and
    the [while (true)] loop of [Laplace1DMG::solve].  The loop calls
    [gauss_seidel_red_black_local] and [calculate_residual] as they are
    modelled above; a pass of the loop can therefore end in a fault or fail
    to return, as these routines can. *)

Module MG.

(** *** [calculate_total_residual], after the [MPI_Allreduce] *)

Section TotalResidual.
(** [total kz = (total(0, kz), total(1, kz))]: the globally summed squared
    residual and squared solution for mode [kz]. *)
Context (total : Z -> float * float).
Context (rtol atol : float).

(** The body of the last loop for one [kz]. *)
Definition mark_mode (kz : Z) (st : list float * list float * list bool)
    : list float * list float * list bool :=
  let '(error_abs, error_rel, converged) := st in
  if negb (aget true converged kz) then
    let ea := PrimFloat.sqrt (fst (total kz)) in
    let er := (ea / PrimFloat.sqrt (snd (total kz)))%float in
    let error_abs := aset error_abs kz ea in
    let error_rel := aset error_rel kz er in
    let converged :=
      if (ea <? atol)%float || (er <? rtol)%float
      then aset converged kz true else converged in
    (error_abs, error_rel, converged)
  else st.

(** [for (int kz = 0; kz < l.nmode; kz++) { if (!converged[kz]) {...} }] *)
Definition calculate_total_residual (nmode : Z)
    (error_abs error_rel : list float) (converged : list bool)
    : list float * list float * list bool :=
  for_range 0 nmode mark_mode (error_abs, error_rel, converged).




End TotalResidual.


(** *** The loop of [Laplace1DMG::solve] *)

Section Solve.
Context {dcomplex : Type}.
Context (c0 : dcomplex) (csub cmul : dcomplex -> dcomplex -> dcomplex).
(** What the levels hold besides the arrays of the local sweep:
    [residual], [br], [fine_error], the neighbours of each level, ... *)
Context {Rest : Type}.

(** [levels]: for each level number the flag [included] with the arrays
    the local sweep reads, and the level's [xloc]. *)
Record LevelArrays : Type := mkLevelArrays {
  level_of : Z -> @Level dcomplex;
  xloc_of : Z -> @Matrix dcomplex;
  rest : Rest
}.

(** [Level::refine], [Level::update_solution],
    [Level::synchronize_reduced_field] on [xloc] and on [residual], and
    [Level::coarsen], by level number; a routine that exchanges data with
    other ranks is handed the iteration count, so that what it receives may
    differ from pass to pass.  A call may fault or fail to return. *)
Context (refine : Z -> Z -> list bool -> LevelArrays -> result LevelArrays).
Context (update_solution : Z -> list bool -> LevelArrays -> result LevelArrays).
Context (synchronize_xloc : Z -> Z -> LevelArrays -> result LevelArrays).
Context (synchronize_residual : Z -> Z -> LevelArrays -> result LevelArrays).
Context (coarsen : Z -> list bool -> LevelArrays -> result LevelArrays).
(** The assignment to [residual(ix, kz)] in [calculate_residual] on a
    level, and the number of steps a call of that routine is followed
    for. *)
Context (residual_point : Z -> Z -> Z -> LevelArrays -> LevelArrays).
Context (steps : nat).
(** [l.localmesh->LocalNx] *)
Context (LocalNx : Z).
(** The sums delivered by the [MPI_Allreduce] of [calculate_total_residual]
    in a given pass. *)
Context (allreduce_total : Z -> LevelArrays -> Z -> float * float).
(** [std::ceil(std::log(x) / std::log(ratio))] converted to [int] *)
Context (ceil_log_ratio : float -> float -> Z).
(** [levels[max_level].is_diagonally_dominant] and the [MPI_LAND]
    reduction of it over the ranks. *)
Context (is_diagonally_dominant : LevelArrays -> bool).
Context (allreduce_land : Z -> bool -> bool).

Record options : Type := mkOptions {
  rtol : float;
  atol : float;
  maxits : Z;
  max_level : Z;
  max_cycle : Z;
  predict_exit : bool;
  nmode : Z
}.

Record state : Type := mkState {
  count : Z;           (* total iteration count *)
  subcount : Z;        (* count of iterations on a level *)
  cyclecount : Z;      (* number of multigrid cycles *)
  cycle_eta : Z;       (* predicted finishing cycle *)
  current_level : Z;
  down : bool;
  error_abs : list float;
  error_abs_old : list float;
  error_rel : list float;
  error_rel_old : list float;
  converged : list bool;
  levels : LevelArrays
}.

Inductive BoutException : Type :=
| maxits_diagonally_dominant
    (* "... The coarsest grained iteration matrix is diagonally dominant and
       convergence is guaranteed. Please increase maxits and retry." *)
| maxits_not_diagonally_dominant.
    (* "... The coarsest iteration matrix is not diagonally dominant so
       there is no guarantee this method will converge. ..." *)

Inductive outcome : Type :=
| Continue (s : state)
| Break (s : state)
| Throw (e : BoutException).

(** [all(converged)] *)
Definition all (a : list bool) : bool := forallb (fun v => v) a.

(** [levels[k].gauss_seidel_red_black_local(l)]: the sweep of the source on
    the arrays of level [k]; the other levels are not touched. *)
Definition sweep_level (opt : options) (k : Z) (converged : list bool)
    (lv : LevelArrays) : result LevelArrays :=
  do x <- gauss_seidel_red_black_local c0 csub cmul (level_of lv k) LocalNx (nmode opt)
            converged (xloc_of lv k) ;;
  Ok (mkLevelArrays (level_of lv) (fun j => if j =? k then x else xloc_of lv j) (rest lv)).

(** [levels[k].calculate_residual(l)]: the loops of the source around the
    assignment to [residual(ix, kz)]. *)
Definition residual_level (opt : options) (k : Z) (converged : list bool)
    (lv : LevelArrays) : result LevelArrays :=
  calculate_residual (residual_point k) steps (included (level_of lv k)) (nmode opt)
    converged lv.

(** "Keep the old error values": [for (kz...) if (!converged[kz])
    { error_abs_old[kz] = error_abs[kz]; error_rel_old[kz] = error_rel[kz]; }] *)
Definition keep_old_errors (nmode : Z) (converged : list bool)
    (error_abs error_rel : list float) (old : list float * list float)
    : list float * list float :=
  for_range 0 nmode
    (fun kz '(error_abs_old, error_rel_old) =>
       if negb (aget true converged kz)
       then (aset error_abs_old kz (aget 0%float error_abs kz),
             aset error_rel_old kz (aget 0%float error_rel kz))
       else (error_abs_old, error_rel_old))
    old.

(** The prediction of the cycle in which the slowest mode converges. *)
Definition predict_cycle_eta (opt : options)
    (error_abs error_abs_old error_rel error_rel_old : list float) : Z :=
  for_range 0 (nmode opt)
    (fun kz cycle_eta =>
       let ratio_abs := (aget 0 error_abs kz / aget 0 error_abs_old kz)%float in
       let eta_abs := ceil_log_ratio (atol opt / aget 0 error_abs kz)%float ratio_abs in
       let cycle_eta := if eta_abs <? cycle_eta then cycle_eta else eta_abs in
       let ratio_rel := (aget 0 error_rel kz / aget 0 error_rel_old kz)%float in
       let eta_rel := ceil_log_ratio (rtol opt / aget 0 error_rel kz)%float ratio_rel in
       let cycle_eta := if eta_rel <? cycle_eta then cycle_eta else eta_rel in
       cycle_eta)
    0.

(** The block run at the end of a cycle on level 0, entered with the
    arrays as the sweep left them.  [levels[0].calculate_residual] comes
    first; the boolean tells whether [calculate_total_residual] (the full
    check, with its global reduction) was called after it. *)
Definition end_of_cycle (opt : options) (s : state) (lv : LevelArrays)
    : result (bool * state) :=
  let cyclecount := cyclecount s + 1 in
  let '(error_abs_old, error_rel_old) :=
    if (cyclecount <? 3) || (cycle_eta s <? cyclecount)
    then keep_old_errors (nmode opt) (converged s) (error_abs s) (error_rel s)
           (error_abs_old s, error_rel_old s)
    else (error_abs_old s, error_rel_old s) in
  do lv <- residual_level opt 0 (converged s) lv ;;
  if (cyclecount <? 3) || (cycle_eta s - 5 <? cyclecount) || negb (predict_exit opt)
  then
    let '(error_abs, error_rel, converged) :=
      calculate_total_residual (allreduce_total (count s) lv) (rtol opt) (atol opt)
        (nmode opt) (error_abs s) (error_rel s) (converged s) in
    let cycle_eta :=
      if (cyclecount <? 3) && predict_exit opt
      then predict_cycle_eta opt error_abs error_abs_old error_rel error_rel_old
      else cycle_eta s in
    Ok (true, mkState (count s) (subcount s) cyclecount cycle_eta (current_level s) (down s)
                error_abs error_abs_old error_rel error_rel_old converged lv)
  else
    Ok (false, mkState (count s) (subcount s) cyclecount (cycle_eta s) (current_level s)
                 (down s) (error_abs s) error_abs_old (error_rel s) error_rel_old
                 (converged s) lv).

(** "Throw error if we are performing too many iterations" *)
Definition check_maxits (opt : options) (s : state) : outcome :=
  if maxits opt <? count s then
    let is_dd := is_diagonally_dominant (levels s) in
    let global_is_dd := allreduce_land (count s) is_dd in
    if global_is_dd then Throw maxits_diagonally_dominant
    else Throw maxits_not_diagonally_dominant
  else Continue s.

(** First half of the body: the relaxation sweep and, at the end of a cycle
    on level 0, the residual and convergence block. *)
Definition sweep_and_check (opt : options) (s : state) : result (bool * state) :=
  do lv <- sweep_level opt (current_level s) (converged s) (levels s) ;;
  if (current_level s =? 0) && (subcount s =? max_cycle opt - 1)
  then end_of_cycle opt s lv
  else Ok (false, mkState (count s) (subcount s) (cyclecount s) (cycle_eta s)
                    (current_level s) (down s) (error_abs s) (error_abs_old s)
                    (error_rel s) (error_rel_old s) (converged s) lv).

(** Second half of the body: the counters, the exit test, the move between
    levels and the iteration budget. *)
Definition advance (opt : options) (s : state) : result outcome :=
  let count := count s + 1 in
  let subcount := subcount s + 1 in
  let with_levels (subcount current_level : Z) (down : bool) (lv : LevelArrays) :=
    mkState count subcount (cyclecount s) (cycle_eta s) current_level down
      (error_abs s) (error_abs_old s) (error_rel s) (error_rel_old s) (converged s) lv in
  if subcount <? max_cycle opt then
    Ok (check_maxits opt (with_levels subcount (current_level s) (down s) (levels s)))
  else if all (converged s) && (current_level s =? 0) then
    Ok (Break (with_levels subcount (current_level s) (down s) (levels s)))
  else if negb (down s) then
    do lv <- refine (current_level s) count (converged s) (levels s) ;;
    let current_level := current_level s - 1 in
    do lv <- update_solution current_level (converged s) lv ;;
    do lv <- synchronize_xloc current_level count lv ;;
    let down := if current_level =? 0 then true else down s in
    Ok (check_maxits opt (with_levels 0 current_level down lv))
  else if down s && (0 <? max_level opt) then
    do lv <- (if negb (current_level s =? 0)
              then residual_level opt (current_level s) (converged s) (levels s)
              else Ok (levels s)) ;;
    do lv <- synchronize_residual (current_level s) count lv ;;
    let current_level := current_level s + 1 in
    do lv <- coarsen current_level (converged s) lv ;;
    let down := if current_level =? max_level opt then false else down s in
    Ok (check_maxits opt (with_levels 0 current_level down lv))
  else
    Ok (check_maxits opt (with_levels 0 (current_level s) (down s) (levels s))).

(** One pass through the body of [while (true)]; the boolean tells whether
    the full convergence check was made in this pass. *)
Definition solve_iteration (opt : options) (s : state) : result (bool * outcome) :=
  do cs <- sweep_and_check opt s ;;
  do o <- advance opt (snd cs) ;;
  Ok (fst cs, o).

(** The variables as [solve] sets them before the loop; [converged] is the
    member array of size [nmode], every entry set to [false]. *)
Definition initial_state (opt : options) (converged0 : list bool) (lv : LevelArrays) : state :=
  let initial_error := 0x1.e848p+19%float in
  let errs := repeat initial_error (Z.to_nat (nmode opt)) in
  mkState 0 0 0 0 0 true errs errs errs errs
    (for_range 0 (nmode opt) (cellwise true (fun _ _ => false)) converged0) lv.

(** The states the loop passes through: a pass leads to the next one when
    it runs to its end without [break] and without an exception. *)
Inductive reachable (opt : options) (s0 : state) : state -> Prop :=
| reachable_start : reachable opt s0 s0
| reachable_step s s' checked :
    reachable opt s0 s -> solve_iteration opt s = Ok (checked, Continue s') ->
    reachable opt s0 s'.

Lemma all_false_at (l : list bool) (i : Z) : aget true l i = false -> all l = false.
Proof.
  unfold aget, all. destruct (Z.ltb_spec i 0); [done|].
  destruct (l !! Z.to_nat i) as [b|] eqn:E; simpl; [|done].
  intros ->. apply not_true_is_false. intros Hall.
  rewrite forallb_forall in Hall.
  apply list_elem_of_lookup_2, list_elem_of_In in E.
  apply Hall in E. done.
Qed.

Lemma check_maxits_continue opt s s' : check_maxits opt s = Continue s' -> s' = s.
Proof.
  unfold check_maxits. destruct (maxits opt <? count s).
  - destruct (allreduce_land _ _); discriminate.
  - congruence.
Qed.


(** The multigrid loop throws when the budget is exceeded: when the second
    half of a pass runs to its end, does not [break] and brings [count]
    above [maxits], it ends in one of the two exceptions, chosen by the
    reduction over the ranks of [is_diagonally_dominant] on the coarsest
    level. *)
Lemma multigrid_budget_exceeded_throws opt s o :
  maxits opt < count s + 1 ->
  (subcount s + 1 <? max_cycle opt) || negb (all (converged s) && (current_level s =? 0))
  = true ->
  advance opt s = Ok o ->
  exists lv, o = Throw (if allreduce_land (count s + 1) (is_diagonally_dominant lv)
                        then maxits_diagonally_dominant
                        else maxits_not_diagonally_dominant).
Proof.
  intros Hc Hb.
  assert (Hthrow : forall s', count s' = count s + 1 ->
            check_maxits opt s'
            = Throw (if allreduce_land (count s + 1) (is_diagonally_dominant (levels s'))
                     then maxits_diagonally_dominant
                     else maxits_not_diagonally_dominant)).
  { intros s' Hs'. unfold check_maxits. rewrite Hs'.
    destruct (Z.ltb_spec (maxits opt) (count s + 1)); [|lia].
    destruct (allreduce_land _ _); done. }
  unfold advance.
  destruct (subcount s + 1 <? max_cycle opt); simpl in Hb.
  { intros [= <-]. eexists. by apply Hthrow. }
  apply negb_true_iff in Hb. rewrite Hb.
  destruct (negb (down s)).
  { destruct (refine _ _ _ _) as [lv1| |]; cbn [bind]; [|done|done].
    destruct (update_solution _ _ _) as [lv2| |]; cbn [bind]; [|done|done].
    destruct (synchronize_xloc _ _ _) as [lv3| |]; cbn [bind]; [|done|done].
    intros [= <-]. eexists. by apply Hthrow. }
  destruct (down s && (0 <? max_level opt)).
  { destruct (if negb (current_level s =? 0) then _ else _) as [lv1| |];
      cbn [bind]; [|done|done].
    destruct (synchronize_residual _ _ _) as [lv2| |]; cbn [bind]; [|done|done].
    destruct (coarsen _ _ _) as [lv3| |]; cbn [bind]; [|done|done].
    intros [= <-]. eexists. by apply Hthrow. }
  intros [= <-]. eexists. by apply Hthrow.
Qed.

(** Before the loop no mode is marked converged. *)
Lemma initial_state_unconverged opt converged0 lv0 kz :
  Z.of_nat (length converged0) = nmode opt -> 0 <= kz < nmode opt ->
  aget true (converged (initial_state opt converged0 lv0)) kz = false.
Proof.
  intros Hlen Hkz. simpl. rewrite aget_for_range_cellwise.
  destruct (decide _) as [_|Hd]; [done | lia].
Qed.

(** The sweep on level 0 with the arrays as [Level::init] allocates them:
    the first unconverged mode [kz0] is read at [xloc(-1, kz0)]. *)
Lemma sweep_level_faults opt (cv : list bool) (lv : LevelArrays) (kz0 : Z) :
  level0_allocated LocalNx (nmode opt) (level_of lv 0) (xloc_of lv 0) ->
  0 < LocalNx -> 0 <= kz0 < nmode opt ->
  (forall k, 0 <= k < kz0 -> aget true cv k = true) ->
  aget true cv kz0 = false ->
  sweep_level opt 0 cv lv = OutOfBounds (-1) kz0.
Proof.
  intros Hal Hn Hk Hbefore Hkz0.
  unfold sweep_level, gauss_seidel_red_black_local.
  pose proof Hal as (Hinc & _). rewrite Hinc. cbn [negb].
  erewrite gauss_seidel_colour_even_faults by eauto. done.
Qed.

(** [calculate_residual] on an included level with an unconverged mode has
    not returned after any number of steps. *)
Lemma residual_level_never_returns opt k (cv : list bool) (lv : LevelArrays) (kz0 : Z) :
  0 < nmode opt < 2 ^ 31 -> 0 <= kz0 < nmode opt ->
  included (level_of lv k) = true ->
  aget true cv kz0 = false ->
  residual_level opt k cv lv = Timeout.
Proof.
  intros Hn Hk Hinc Hkz0. unfold residual_level, calculate_residual.
  rewrite Hinc. cbn [negb].
  eapply residual_outer_loop_never_returns; eauto. lia.
Qed.

(** The first pass does not get beyond the sweep. *)
Lemma first_pass_faults opt converged0 lv0 :
  0 < nmode opt -> 0 < LocalNx ->
  Z.of_nat (length converged0) = nmode opt ->
  level0_allocated LocalNx (nmode opt) (level_of lv0 0) (xloc_of lv0 0) ->
  solve_iteration opt (initial_state opt converged0 lv0) = OutOfBounds (-1) 0.
Proof.
  intros Hn Hx Hlen Hal. unfold solve_iteration, sweep_and_check.
  cbn [current_level levels initial_state].
  rewrite (sweep_level_faults opt _ lv0 0); try done; try lia.
  by apply initial_state_unconverged; [|lia].
Qed.

(** So the loop passes through no state but the first. *)
Lemma reachable_only_start opt converged0 lv0 s :
  0 < nmode opt -> 0 < LocalNx ->
  Z.of_nat (length converged0) = nmode opt ->
  level0_allocated LocalNx (nmode opt) (level_of lv0 0) (xloc_of lv0 0) ->
  reachable opt (initial_state opt converged0 lv0) s ->
  s = initial_state opt converged0 lv0.
Proof.
  intros Hn Hx Hlen Hal Hreach.
  induction Hreach as [|s s' checked Hreach IH Hstep]; [done|].
  subst s. rewrite first_pass_faults in Hstep by done. discriminate.
Qed.

(** C7 (the predictor and the full convergence check): the code on the
    arrays that [Level::init] allocates, with at least one mode and one
    local x point.  In every state [s] the loop passes through (there is
    none but the first) the pass stops in the sweep on level 0, at the read
    of [xloc(-1, 0)], before the residual and convergence block; and had the
    sweep returned, with whatever arrays [lv], the block would not get to
    [calculate_total_residual] either, in the first cycles or with
    prediction disabled as at any other time, because
    [levels[0].calculate_residual] stands before it and does not return
    while a mode is unconverged.  The full check is never made. *)
Theorem full_check_never_reached
    (opt : options) (converged0 : list bool) (lv0 : LevelArrays) (s : state) :
  0 < nmode opt < 2 ^ 31 -> 0 < LocalNx ->
  Z.of_nat (length converged0) = nmode opt ->
  level0_allocated LocalNx (nmode opt) (level_of lv0 0) (xloc_of lv0 0) ->
  reachable opt (initial_state opt converged0 lv0) s ->
  s = initial_state opt converged0 lv0 /\
  solve_iteration opt s = OutOfBounds (-1) 0 /\
  (forall lv, included (level_of lv 0) = true -> end_of_cycle opt s lv = Timeout).
Proof.
  intros Hn Hx Hlen Hal Hreach.
  assert (Hs : s = initial_state opt converged0 lv0)
    by (apply reachable_only_start; first [done | lia]).
  split; [done|]. split.
  - rewrite Hs. apply first_pass_faults; first [done | lia].
  - intros lv Hinc. unfold end_of_cycle.
    destruct (if _ || _ then keep_old_errors _ _ _ _ _ else _) as [eao ero].
    rewrite (residual_level_never_returns opt 0 _ lv 0); try done; try lia.
    rewrite Hs. by apply initial_state_unconverged; [|lia].
Qed.

End Solve.
End MG.


(** ** LaplaceParallelTri, first version: the loop that re-solves the local
    system with the neighbours' halo values

    [parallel_tri.cxx], first version of [LaplaceParallelTri::solve(b, x0)].
    The convergence flags live in the field [imdone]: the cells [xstart] and
    [xend] hold the rank's own flags, the guard cells [xstart-1] and [xend+1]
    what the neighbours reported.  The local arrays ([xk1d], [xk1dlast],
    [bk1d], the extrapolation data) are a value of type [LocalArrays]. *)

Module IPT1.
Section Iteration.
Context {LocalArrays : Type}.
(** Patching of the right-hand side, extrapolation and [tridag]. *)
Context (local_solve : Z -> LocalArrays -> LocalArrays).
(** [(error_rel, error_abs)] of the new local solution against the last. *)
Context (errors : LocalArrays -> float * float).
(** The halo cells of [xk1d] after [communicateXIn] / [communicateXOut]. *)
Context (receive_in receive_out : Z -> LocalArrays -> LocalArrays).
(** [xk1dlast[ix] = xk1d[ix]; error_last = error_abs] *)
Context (save_last : LocalArrays -> LocalArrays).

Record state : Type := mkState {
  count : Z;
  imdone_xstart_m1 : float;   (* imdone(xstart-1, kz) *)
  imdone_xstart : float;      (* imdone(xstart, kz) *)
  imdone_xend : float;        (* imdone(xend, kz) *)
  imdone_xend_p1 : float;     (* imdone(xend+1, kz) *)
  arrays : LocalArrays
}.

(** This loop has two ways out, both of them [break]. *)
Inductive outcome : Type :=
| Continue (s : state)
| Break (s : state).

Definition is_zero (x : float) : bool := (x =? 0)%float.

(** One pass through the body of [while (true)]; [from_in] and [from_out]
    are the neighbours' flags as [communicateXIn(imdone)] and
    [communicateXOut(imdone)] deliver them. *)
Definition iterate (rtol atol : float) (maxits : Z) (from_in from_out : float)
    (s : state) : outcome :=
  let a := local_solve (count s) (arrays s) in
  let '(error_rel, error_abs) := errors a in
  let converged_now := (error_rel <? rtol)%float || (error_abs <? atol)%float in
  let im_xs := if converged_now then 1%float else imdone_xstart s in
  let im_xe := if converged_now then 1%float else imdone_xend s in
  let im_in := if is_zero (imdone_xstart_m1 s) then from_in else imdone_xstart_m1 s in
  let a := if is_zero (imdone_xstart_m1 s) then receive_in (count s) a else a in
  let im_out := if is_zero (imdone_xend_p1 s) then from_out else imdone_xend_p1 s in
  let a := if is_zero (imdone_xend_p1 s) then receive_out (count s) a else a in
  if negb (is_zero im_xe) && negb (is_zero im_xs)
  then Break (mkState (count s) im_in im_xs im_xe im_out a)
  else
    let im_xs := if negb (is_zero im_in) then 1%float else im_xs in
    let im_xe := if negb (is_zero im_out) then 1%float else im_xe in
    let count := count s + 1 in
    if maxits <? count
    then Break (mkState count im_in im_xs im_xe im_out a)
    else Continue (mkState count im_in im_xs im_xe im_out (save_last a)).

(** The loop for one mode, and what [solve] goes on to store in [xk]: the
    local arrays as the loop left them.  [None] only when the fuel runs
    out. *)
Fixpoint solve_mode (fuel : nat) (rtol atol : float) (maxits : Z)
    (from_in from_out : Z -> float) (s : state) : option state :=
  match fuel with
  | O => None
  | Datatypes.S fuel' =>
      match iterate rtol atol maxits (from_in (count s)) (from_out (count s)) s with
      | Break s' => Some s'
      | Continue s' => solve_mode fuel' rtol atol maxits from_in from_out s'
      end
  end.

(** [imdone = 0.0], then the physical boundaries marked as converged
    neighbours; [count = 0]. *)
Definition initial_state (firstX lastX : bool) (a : LocalArrays) : state :=
  mkState 0 (if firstX then 1 else 0)%float 0%float 0%float
    (if lastX then 1 else 0)%float a.

Lemma is_zero_0 : is_zero 0 = true.
Proof. reflexivity. Qed.

(** A pass of a rank that has seen no convergence anywhere and whose own
    error is above the tolerances. *)
Lemma iterate_unconverged rtol atol maxits c a0 :
  (fst (errors (local_solve c a0)) <? rtol)%float
  || (snd (errors (local_solve c a0)) <? atol)%float = false ->
  let a' := receive_out c (receive_in c (local_solve c a0)) in
  iterate rtol atol maxits 0 0 (mkState c 0 0 0 0 a0)
  = if maxits <? c + 1
    then Break (mkState (c + 1) 0 0 0 0 a')
    else Continue (mkState (c + 1) 0 0 0 0 (save_last a')).
Proof.
  intros He a'. unfold iterate.
  cbn [count arrays imdone_xstart_m1 imdone_xstart imdone_xend imdone_xend_p1].
  destruct (errors (local_solve c a0)) as [er ea]. simpl in He.
  rewrite He. cbv iota. rewrite !is_zero_0. cbn [negb andb]. rewrite ?is_zero_0.
  cbn [negb]. done.
Qed.

(** C3 on this version of the solver: the iteration budget runs out on a
    rank between two unconverged neighbours whose own error stays above the
    tolerances.  The loop is left by [break] with [count > maxits] and the
    rank's flags still zero, and [solve] carries on with the arrays of the
    last pass: nothing is thrown and no diagonal dominance is examined. *)
Theorem budget_exceeded_returns_unconverged
    (rtol atol : float) (maxits : Z) (from_in from_out : Z -> float) (a : LocalArrays) :
  0 <= maxits ->
  (forall a', (fst (errors a') <? rtol)%float || (snd (errors a') <? atol)%float = false) ->
  (forall k, from_in k = 0%float) ->
  (forall k, from_out k = 0%float) ->
  exists s',
    solve_mode (Datatypes.S (Z.to_nat maxits)) rtol atol maxits from_in from_out
      (initial_state false false a) = Some s'
    /\ maxits < count s'
    /\ imdone_xstart s' = 0%float /\ imdone_xend s' = 0%float.
Proof.
  intros Hmax Herr Hin Hout.
  assert (Hgen : forall (fuel : nat) (c : Z) (a0 : LocalArrays),
            0 <= c -> c + Z.of_nat fuel = maxits ->
            exists s',
              solve_mode (Datatypes.S fuel) rtol atol maxits from_in from_out
                (mkState c 0 0 0 0 a0) = Some s'
              /\ maxits < count s'
              /\ imdone_xstart s' = 0%float /\ imdone_xend s' = 0%float).
  { induction fuel as [|fuel IH]; intros c a0 Hc Hfuel.
    - cbn [solve_mode count]. rewrite Hin, Hout.
      rewrite iterate_unconverged by apply Herr.
      destruct (Z.ltb_spec maxits (c + 1)); [|lia].
      eexists. split; [done|]. simpl. repeat split; lia.
    - cbn [solve_mode count]. rewrite Hin, Hout.
      rewrite iterate_unconverged by apply Herr.
      destruct (Z.ltb_spec maxits (c + 1)); [lia|].
      apply IH; lia. }
  apply (Hgen (Z.to_nat maxits) 0 a); lia.
Qed.

End Iteration.
End IPT1.


(** ** LaplaceParallelTri, second version: the loop with the flags
    [self_in], [self_out], [neighbour_in] and [neighbour_out]

    [parallel_tri.cxx], second version of [LaplaceParallelTri::solve(b, x0)].
    Each pass re-solves the local system, measures the change of the whole
    local solution, and exchanges flags and guard cells with the neighbours
    that have not yet signalled convergence.  The local arrays ([xk1d],
    [xk1dlast], [bk1d]) are a value of type [LocalArrays]; [Edge] is what
    [communicateXIn(xk1d)] or [communicateXOut(xk1d)] carries to the
    neighbour. *)

Module IPT2.
Section Iteration.
Context {LocalArrays Edge : Type}.
(** Patching of the right-hand side and [tridag]. *)
Context (local_solve : LocalArrays -> LocalArrays).
(** [(error_rel, error_abs)] of the new local solution against the last,
    over all local points. *)
Context (errors : LocalArrays -> float * float).
(** The cells of [xk1d] handed to the inner and to the outer neighbour. *)
Context (edge_in edge_out : LocalArrays -> Edge).
(** [xk1d] with the guard cells received from the inner and from the outer
    neighbour. *)
Context (receive_in receive_out : Edge -> LocalArrays -> LocalArrays).
(** [xk1dlast[ix] = xk1d[ix]; error_last = error_abs] *)
Context (save_last : LocalArrays -> LocalArrays).

(** The variables of the loop. *)
Record state : Type := mkState {
  count : Z;
  self_in : bool;
  self_out : bool;
  neighbour_in : bool;
  neighbour_out : bool;
  arrays : LocalArrays
}.

(** What travels to or from one neighbour in one pass: the convergence flag
    and the cells of [xk1d]. *)
Record message : Type := mkMessage {
  flag : bool;
  edge : Edge
}.

(** This loop has two ways out, both of them [break]. *)
Inductive outcome : Type :=
| Continue (s : state)
| Break (s : state).

(** [(error_rel<rtol or error_abs<atol)] *)
Definition within_tolerance (rtol atol : float) (errors : float * float) : bool :=
  (fst errors <? rtol)%float || (snd errors <? atol)%float.

(** One pass through the body of [while (true)].  [from_in] and [from_out]
    are what the neighbours hand over if the rank communicates with them in
    this pass; the first component of the result lists what the rank
    sends. *)
Definition iterate (rtol atol : float) (maxits : Z) (from_in from_out : message)
    (s : state) : list (IPT.direction * message) * outcome :=
  let a := local_solve (arrays s) in
  let converged_now := within_tolerance rtol atol (errors a) in
  let self_in := if converged_now then true else self_in s in
  let self_out := if converged_now then true else self_out s in
  (* Communicate in *)
  let sent_in :=
    if negb (neighbour_in s) then [(IPT.XIn, mkMessage self_in (edge_in a))] else [] in
  let neighbour_in' := if negb (neighbour_in s) then flag from_in else neighbour_in s in
  let a := if negb (neighbour_in s) then receive_in (edge from_in) a else a in
  (* Communicate out *)
  let sent_out :=
    if negb (neighbour_out s) then [(IPT.XOut, mkMessage self_out (edge_out a))] else [] in
  let neighbour_out' := if negb (neighbour_out s) then flag from_out else neighbour_out s in
  let a := if negb (neighbour_out s) then receive_out (edge from_out) a else a in
  let sent := sent_in ++ sent_out in
  if self_in && self_out
  then (sent, Break (mkState (count s) self_in self_out neighbour_in' neighbour_out' a))
  else
    let self_in := if neighbour_in' then true else self_in in
    let self_out := if neighbour_out' then true else self_out in
    let count := count s + 1 in
    if maxits <? count
    then (sent, Break (mkState count self_in self_out neighbour_in' neighbour_out' a))
    else (sent, Continue (mkState count self_in self_out neighbour_in' neighbour_out'
                            (save_last a))).


(** The messages of one pass, given the flags after the tolerance test. *)
Definition sent_messages (from_in : message) (s : state) (self_in self_out : bool)
    (a : LocalArrays) : list (IPT.direction * message) :=
  (if neighbour_in s then [] else [(IPT.XIn, mkMessage self_in (edge_in a))])
  ++ (if neighbour_out s then []
      else [(IPT.XOut,
             mkMessage self_out
               (edge_out (if neighbour_in s then a else receive_in (edge from_in) a)))]).



End Iteration.
End IPT2.


(** ** Leaving the relaxation loop *)

Section RelaxationExit.
(* third version *)
Context {dcomplex : Type}.
Context (c0 : dcomplex) (cadd cmul csub : dcomplex -> dcomplex -> dcomplex).
Context (cabs : dcomplex -> float).
(* second version *)
Context {LocalArrays Edge : Type}.
Context (local_solve : LocalArrays -> LocalArrays).
Context (errors : LocalArrays -> float * float).
Context (edge_in edge_out : LocalArrays -> Edge).
Context (receive_in receive_out : Edge -> LocalArrays -> LocalArrays).
Context (save_last : LocalArrays -> LocalArrays).

Local Notation "a [@ i ]" := (aget c0 a i) (at level 1, i at level 200, format "a [@ i ]").

End RelaxationExit.


(** ** Concrete runs

    Complex numbers on the real axis, held as doubles: sums, differences
    and products stay on the axis and the modulus is the absolute value. *)

Module RealAxis.
Local Open Scope float_scope.

Definition iterate := IPT.iterate 0 PrimFloat.add PrimFloat.mul PrimFloat.sub PrimFloat.abs.
Definition get_errors := IPT.get_errors PrimFloat.sub PrimFloat.abs.

(** [rtol = 2^-23], [atol = 2^-66], [maxits = 100], the original method. *)
Definition opt : IPT.options := IPT.mkOptions 0x1p-23 0x1p-66 100%Z false.

(** [rl = ru = 1], [al = bl = au = bu = 1/4]. *)
Definition cf : IPT.coefficients := IPT.mkCoefficients 1 1 0.25 0.25 0.25 0.25.


(** Both neighbours report "not converged". *)
Definition unconverged_neighbour : IPT.message := IPT.mkMessage false 2.

End RealAxis.




(** Reconstruction in doubles, twice and into two different arrays. *)
Lemma reconstruct_twice_identical_witness :
  let rec_ := reconstruct_full_solution 0%float PrimFloat.add PrimFloat.mul
                false false 1 2 4
                [0.125; 0.375; 0.625; 0.875]%float [1; 0.5; 0.25; 0]%float
                [0; 0.25; 0.5; 1]%float [3; 0; 0; 7]%float in
  rec_ (rec_ [0; 0; 0; 0]%float) = rec_ [0; 0; 0; 0]%float
  /\ rec_ [9; 9; 9; 9]%float = rec_ [0; 0; 0; 0]%float.
Proof.
  apply (reconstruct_twice_identical 0%float PrimFloat.add PrimFloat.mul
           false false 1 2 4); reflexivity.
Defined.

(** A rank whose error never drops, with [maxits = 2]. *)
Lemma budget_exceeded_returns_unconverged_witness :
  exists s',
    IPT1.solve_mode (fun _ (a : unit) => a) (fun _ => (1%float, 1%float))
      (fun _ a => a) (fun _ a => a) (fun a => a)
      3 0x1p-23%float 0x1p-66%float 2 (fun _ => 0%float) (fun _ => 0%float)
      (IPT1.initial_state false false tt) = Some s'
    /\ 2 < IPT1.count s'
    /\ IPT1.imdone_xstart s' = 0%float /\ IPT1.imdone_xend s' = 0%float.
Proof.
  apply (IPT1.budget_exceeded_returns_unconverged
           (fun _ (a : unit) => a) (fun _ => (1%float, 1%float))
           (fun _ a => a) (fun _ a => a) (fun a => a)
           0x1p-23%float 0x1p-66%float 2 (fun _ => 0%float) (fun _ => 0%float) tt).
  - lia.
  - intros a'. vm_compute. reflexivity.
  - reflexivity.
  - reflexivity.
Defined.

(** The multigrid loop on a rank with four local x points and one mode:
    the first pass. *)
Lemma full_check_never_reached_witness :
  let opt := MG.mkOptions 0x1p-23%float 0x1p-66%float 100 0 1 false 1 in
  let m := mkMatrix 4 1 [1; 1; 1; 1] in
  let lv0 := MG.mkLevelArrays (fun _ => mkLevel true m m m m)
               (fun _ => mkMatrix 6 1 [0; 0; 0; 0; 0; 0]) tt in
  MG.solve_iteration 0 Z.sub Z.mul
    (fun _ _ _ lv => Ok lv) (fun _ _ lv => Ok lv) (fun _ _ lv => Ok lv)
    (fun _ _ lv => Ok lv) (fun _ _ lv => Ok lv)
    (fun _ _ _ lv => lv) 1000 4
    (fun _ _ _ => (1%float, 1%float)) (fun _ _ => 10)
    (fun _ => true) (fun _ b => b)
    opt (MG.initial_state opt [true] lv0) = OutOfBounds (-1) 0.
Proof.
  intros opt m lv0.
  destruct (MG.full_check_never_reached 0 Z.sub Z.mul
              (fun _ _ _ lv => Ok lv) (fun _ _ lv => Ok lv) (fun _ _ lv => Ok lv)
              (fun _ _ lv => Ok lv) (fun _ _ lv => Ok lv)
              (fun _ _ _ lv => lv) 1000 4
              (fun _ _ _ => (1%float, 1%float)) (fun _ _ => 10)
              (fun _ => true) (fun _ b => b)
              opt [true] lv0 (MG.initial_state opt [true] lv0)) as (_ & H & _).
  - simpl. lia.
  - lia.
  - reflexivity.
  - unfold level0_allocated. simpl. repeat split; reflexivity.
  - apply MG.reachable_start.
  - exact H.
Defined.


(** ** The reduced interface system and the global tridiagonal system

    [parallel_tri.cxx], third version of [LaplaceParallelTri::solve(b, x0)]:
    the set-up of the local systems, the interface coefficients, and the
    reconstruction, on every rank of a row of [nproc] ranks along x. *)

Section InterfaceSystem.
Context {dcomplex : Type}.
Context (c0 c1 : dcomplex) (cadd cmul : dcomplex -> dcomplex -> dcomplex).

Local Notation "x +c y" := (cadd x y) (at level 50, left associativity).
Local Notation "x *c y" := (cmul x y) (at level 40, left associativity).
Local Notation "a [@ i ]" := (aget c0 a i) (at level 1, i at level 200, format "a [@ i ]").

(** The decomposition along x: every rank has [LocalNx = ncx] points, of
    which [xstart .. xend] are its own and [xstart] on either side are guard
    cells. *)
Record decomposition : Type := mkDecomposition {
  nproc : Z;     (* NXPE *)
  xstart : Z;
  xend : Z;
  LocalNx : Z
}.

Definition well_formed (G : decomposition) : Prop :=
  1 <= nproc G /\ 1 <= xstart G <= xend G /\ LocalNx G = xend G + xstart G + 1.

Definition firstX (G : decomposition) (p : Z) : bool := p =? 0.
Definition lastX (G : decomposition) (p : Z) : bool := p =? nproc G - 1.

(** The variables of [solve] on one rank, for one mode. *)
Record rank_arrays : Type := mkRankArrays {
  avec : list dcomplex;     (* lower diagonal, from tridagMatrix *)
  bvec : list dcomplex;     (* diagonal *)
  cvec : list dcomplex;     (* upper diagonal *)
  bk1d : list dcomplex;     (* right-hand side *)
  minvb : list dcomplex;    (* tridag(avec, bvec, cvec, bk1d, minvb, ncx) *)
  tmp_upper : list dcomplex;  (* tmp of the solve against the impulse at xend+1 *)
  tmp_lower : list dcomplex;  (* tmp of the solve against the impulse at xstart-1 *)
  evec : list dcomplex;
  upperGuardVector : list dcomplex;  (* the slice (., jy, kz) before it is set *)
  lowerGuardVector : list dcomplex;
  xloclast : list dcomplex;  (* Array<dcomplex>(4), when the loop is left *)
  xk1dlast : list dcomplex;
  xk1d : list dcomplex
}.

(** The sizes the arrays are allocated with. *)
Definition allocated (G : decomposition) (d : rank_arrays) : Prop :=
  Z.of_nat (length (avec d)) = LocalNx G /\
  Z.of_nat (length (bvec d)) = LocalNx G /\
  Z.of_nat (length (cvec d)) = LocalNx G /\
  Z.of_nat (length (bk1d d)) = LocalNx G /\
  Z.of_nat (length (evec d)) = LocalNx G /\
  Z.of_nat (length (upperGuardVector d)) = LocalNx G /\
  Z.of_nat (length (lowerGuardVector d)) = LocalNx G /\
  Z.of_nat (length (xloclast d)) = 4 /\
  Z.of_nat (length (xk1dlast d)) = LocalNx G /\
  Z.of_nat (length (xk1d d)) = LocalNx G.

(** "Patch up internal boundaries", for one of the four arrays: the cells
    [xend+1 .. LocalNx-1] unless the rank is the last one, the cells
    [0 .. xstart-1] unless it is the first one.  The source sets the four
    arrays in one loop, [avec] and [cvec] to 0, [bvec] to 1, [bk1d] to 0. *)
Definition patch_internal_boundaries (G : decomposition) (p : Z) (fill : dcomplex)
    (v : list dcomplex) : list dcomplex :=
  let v := if negb (lastX G p)
           then for_range (xend G + 1) (LocalNx G) (cellwise c0 (fun _ _ => fill)) v
           else v in
  let v := if negb (firstX G p)
           then for_range 0 (xstart G) (cellwise c0 (fun _ _ => fill)) v
           else v in
  v.

Definition patched_avec G p d := patch_internal_boundaries G p c0 (avec d).
Definition patched_bvec G p d := patch_internal_boundaries G p c1 (bvec d).
Definition patched_cvec G p d := patch_internal_boundaries G p c0 (cvec d).
Definition patched_bk1d G p d := patch_internal_boundaries G p c0 (bk1d d).

(** Left-hand side of row [i] of a tridiagonal system of size [n] applied
    to [u]; the first row has no lower and the last row no upper entry. *)
Definition tridiagonal_row (a b c u : list dcomplex) (n i : Z) : dcomplex :=
  (if decide (0 < i) then a[@i] *c u[@i - 1] else c0)
  +c b[@i] *c u[@i]
  +c (if decide (i < n - 1) then c[@i] *c u[@i + 1] else c0).

(** Modelled from the spec: [tridag] of [lapack_routines], which is not
    among the sources.  The spec has the local solver eliminate the
    tridiagonal block directly, exactly in exact arithmetic; here is what
    [tridag(a, b, c, r, u, n)] then guarantees of its result [u]. *)
Definition tridag_solves (a b c r u : list dcomplex) (n : Z) : Prop :=
  forall i, 0 <= i < n -> tridiagonal_row a b c u n i = r[@i].

(** The three local solves of a rank have succeeded. *)
Definition local_solves (G : decomposition) (p : Z) (d : rank_arrays) : Prop :=
  let a := patched_avec G p d in
  let b := patched_bvec G p d in
  let c := patched_cvec G p d in
  tridag_solves a b c (patched_bk1d G p d) (minvb d) (LocalNx G) /\
  (lastX G p = false ->
   tridag_solves a b c (unit_impulse c0 c1 (LocalNx G) (xend G + 1) (evec d))
     (tmp_upper d) (LocalNx G)) /\
  (firstX G p = false ->
   tridag_solves a b c (unit_impulse c0 c1 (LocalNx G) (xstart G - 1) (evec d))
     (tmp_lower d) (LocalNx G)).

(** The guard vectors as the solver stores them. *)
Definition upper_guard (G : decomposition) (p : Z) (d : rank_arrays) : list dcomplex :=
  set_upperGuardVector c0 (lastX G p) (LocalNx G) (tmp_upper d) (upperGuardVector d).
Definition lower_guard (G : decomposition) (p : Z) (d : rank_arrays) : list dcomplex :=
  set_lowerGuardVector c0 (firstX G p) (LocalNx G) (tmp_lower d) (lowerGuardVector d).

(** [bl = upperGuardVector(xs), al = lowerGuardVector(xs),
     bu = upperGuardVector(xe), au = lowerGuardVector(xe),
     rl = minvb[xs], ru = minvb[xe]] *)
Definition interface_coefficients (G : decomposition) (p : Z) (d : rank_arrays)
    : IPT.coefficients :=
  IPT.mkCoefficients
    (minvb d)[@xstart G] (minvb d)[@xend G]
    (lower_guard G p d)[@xstart G] (upper_guard G p d)[@xstart G]
    (lower_guard G p d)[@xend G] (upper_guard G p d)[@xend G].

(** The reduced system is solved: on every rank one more update of the two
    interface values changes nothing, and the halo values are the
    neighbours' interface values, as the exchange of the original method
    delivers them ([xloc[0]] from the inner neighbour's [xloc[2]], [xloc[3]]
    from the outer neighbour's [xloc[1]]). *)
Definition reduced_system_solved (G : decomposition) (ranks : Z -> rank_arrays) : Prop :=
  forall p, 0 <= p < nproc G ->
    let xl := xloclast (ranks p) in
    let xloc := IPT.update_interface c0 cadd cmul
                  (interface_coefficients G p (ranks p)) xl xl in
    xloc[@1] = xl[@1] /\ xloc[@2] = xl[@2] /\
    (0 < p -> xl[@0] = (xloclast (ranks (p - 1)))[@2]) /\
    (p < nproc G - 1 -> xl[@3] = (xloclast (ranks (p + 1)))[@1]).

(** After the loop: [xk1dlast[xs-1] = xloclast[0]; xk1dlast[xs] =
    xloclast[1]; xk1dlast[xe] = xloclast[2]; xk1dlast[xe+1] = xloclast[3]]. *)
Definition store_interface (G : decomposition) (xloclast xk1dlast : list dcomplex)
    : list dcomplex :=
  let v := aset xk1dlast (xstart G - 1) xloclast[@0] in
  let v := aset v (xstart G) xloclast[@1] in
  let v := aset v (xend G) xloclast[@2] in
  aset v (xend G + 1) xloclast[@3].

(** The local solution [xk1d] a rank ends with. *)
Definition local_solution (G : decomposition) (p : Z) (d : rank_arrays) : list dcomplex :=
  reconstruct_full_solution c0 cadd cmul (firstX G p) (lastX G p)
    (xstart G) (xend G) (LocalNx G)
    (minvb d) (lower_guard G p d) (upper_guard G p d)
    (store_interface G (xloclast d) (xk1dlast d)) (xk1d d).

(** *** The global system on one rank

    Global index [g] is local index [g - p * n] on rank [p], where [n] is
    the number of own points of a rank.  A rank owns [xstart .. xend]; the
    first rank also owns the boundary cells below, the last rank those
    above. *)
Definition own_points (G : decomposition) : Z := xend G - xstart G + 1.
Definition GlobalNx (G : decomposition) : Z := nproc G * own_points G + 2 * xstart G.

Definition owner (G : decomposition) (g : Z) : Z :=
  if g <? xstart G then 0
  else Z.min ((g - xstart G) / own_points G) (nproc G - 1).

Definition local_index (G : decomposition) (g : Z) : Z :=
  g - owner G g * own_points G.

(** A global array assembled from the owners' cells. *)
Definition assemble (G : decomposition) (v : Z -> list dcomplex) : list dcomplex :=
  map (fun g : nat => (v (owner G (Z.of_nat g)))[@local_index G (Z.of_nat g)])
      (seq 0 (Z.to_nat (GlobalNx G))).

End InterfaceSystem.


(** ** Reduction equivalence in exact arithmetic *)

Section ReductionEquivalence.
Context {dcomplex : Type}.
Context (c0 c1 : dcomplex) (cadd cmul csub : dcomplex -> dcomplex -> dcomplex)
        (copp : dcomplex -> dcomplex).
Context (dcomplex_ring : ring_theory c0 c1 cadd cmul csub copp eq).

Add Ring dcomplex_ring_reduction : dcomplex_ring.

Local Notation "x +c y" := (cadd x y) (at level 50, left associativity).
Local Notation "x *c y" := (cmul x y) (at level 40, left associativity).
Local Notation "a [@ i ]" := (aget c0 a i) (at level 1, i at level 200, format "a [@ i ]").

Local Abbreviation row := (tridiagonal_row c0 cadd cmul).
Local Abbreviation solution := (local_solution c0 cadd cmul).
Local Abbreviation U := (upper_guard c0).
Local Abbreviation L := (lower_guard c0).

Lemma aget_patch_internal_boundaries G p fill v i :
  well_formed G -> Z.of_nat (length v) = LocalNx G -> 0 <= i < LocalNx G ->
  (patch_internal_boundaries c0 G p fill v)[@i]
  = if (negb (firstX G p) && (i <? xstart G)) || (negb (lastX G p) && (xend G <? i))
    then fill else v[@i].
Proof.
  intros (Hn & Hx & Hncx) Hlen Hi. unfold patch_internal_boundaries.
  destruct (firstX G p), (lastX G p); simpl;
    rewrite ?aget_for_range_cellwise, ?length_for_range_cellwise;
    repeat (destruct (decide _)); destruct (Z.ltb_spec i (xstart G));
    destruct (Z.ltb_spec (xend G) i); simpl; try done; lia.
Qed.

Lemma aget_unit_impulse ncx k ev i :
  Z.of_nat (length ev) = ncx -> 0 <= k < ncx -> 0 <= i < ncx ->
  (unit_impulse c0 c1 ncx k ev)[@i] = if decide (i = k) then c1 else c0.
Proof.
  intros Hlen Hk Hi. unfold unit_impulse.
  destruct (decide (i = k)) as [->|Hne].
  - rewrite aget_aset_eq; [done | rewrite length_fill_zero; lia].
  - rewrite aget_aset_ne by lia. by apply aget_fill_zero.
Qed.

Lemma aget_upper_guard G p d j :
  Z.of_nat (length (upperGuardVector d)) = LocalNx G -> 0 <= j < LocalNx G ->
  (U G p d)[@j] = if lastX G p then c0 else (tmp_upper d)[@j].
Proof.
  intros Hlen Hj. unfold upper_guard, set_upperGuardVector.
  destruct (lastX G p); simpl.
  - by apply aget_fill_zero.
  - apply aget_copy_array; lia.
Qed.

Lemma aget_lower_guard G p d j :
  Z.of_nat (length (lowerGuardVector d)) = LocalNx G -> 0 <= j < LocalNx G ->
  (L G p d)[@j] = if firstX G p then c0 else (tmp_lower d)[@j].
Proof.
  intros Hlen Hj. unfold lower_guard, set_lowerGuardVector.
  destruct (firstX G p); simpl.
  - by apply aget_fill_zero.
  - apply aget_copy_array; lia.
Qed.

Lemma aget_store_interface G xl xkl :
  well_formed G -> Z.of_nat (length xkl) = LocalNx G ->
  (store_interface c0 G xl xkl)[@xstart G - 1] = xl[@0] /\
  (store_interface c0 G xl xkl)[@xend G + 1] = xl[@3].
Proof.
  intros (Hn & Hx & Hncx) Hlen. unfold store_interface. split.
  - rewrite !aget_aset_ne by lia. rewrite aget_aset_eq by lia. done.
  - rewrite aget_aset_eq; [done|]. rewrite !length_aset. lia.
Qed.

(** Every cell of the local solution, guard cells included. *)
Lemma aget_local_solution G p d j :
  well_formed G -> allocated G d -> 0 <= j < LocalNx G ->
  (solution G p d)[@j]
  = (minvb d)[@j] +c (L G p d)[@j] *c (xloclast d)[@0]
                  +c (U G p d)[@j] *c (xloclast d)[@3].
Proof.
  intros Hwf Hal Hj.
  destruct Hal as (_ & _ & _ & _ & _ & Hu & Hl & _ & Hxkl & Hxk).
  unfold local_solution.
  rewrite aget_reconstruct_full_solution by lia.
  unfold reconstructed_cell.
  destruct (aget_store_interface G (xloclast d) (xk1dlast d) Hwf Hxkl) as [-> ->].
  pose proof (aget_upper_guard G p d j Hu Hj) as HU.
  pose proof (aget_lower_guard G p d j Hl Hj) as HL.
  destruct (firstX G p), (lastX G p); simpl; rewrite ?HU, ?HL; ring.
Qed.

(** A row is linear in the vector it is applied to. *)
Lemma tridiagonal_row_linear a b c x m l u e0 e3 n i :
  0 <= i < n ->
  (forall j, i - 1 <= j <= i + 1 -> 0 <= j < n ->
     x[@j] = m[@j] +c l[@j] *c e0 +c u[@j] *c e3) ->
  row a b c x n i
  = row a b c m n i +c row a b c l n i *c e0 +c row a b c u n i *c e3.
Proof.
  intros Hi Hx. unfold tridiagonal_row.
  rewrite (Hx i) by lia.
  destruct (decide (0 < i)), (decide (i < n - 1));
    rewrite ?(Hx (i - 1)), ?(Hx (i + 1)) by lia; ring.
Qed.

(** A row looks at three cells of its vector, and only inside the system;
    two rows whose entries correspond have the same value. *)
Lemma tridiagonal_row_transport a b c a' b' c' x x' n n' i i' :
  a[@i] = a'[@i'] -> b[@i] = b'[@i'] -> c[@i] = c'[@i'] ->
  x[@i] = x'[@i'] ->
  (0 < i <-> 0 < i') ->
  (0 < i -> x[@i - 1] = x'[@i' - 1]) ->
  (i < n - 1 <-> i' < n' - 1) ->
  (i < n - 1 -> x[@i + 1] = x'[@i' + 1]) ->
  row a b c x n i = row a' b' c' x' n' i'.
Proof.
  intros Ha Hb Hc Hx H0 Hxm Hn Hxp. unfold tridiagonal_row.
  rewrite Ha, Hb, Hc, Hx.
  destruct (decide (0 < i)), (decide (0 < i')), (decide (i < n - 1)),
    (decide (i' < n' - 1)); try lia; rewrite ?Hxm, ?Hxp by done; done.
Qed.

Lemma tridiagonal_row_ext a b c x x' n i :
  x[@i] = x'[@i] ->
  (0 < i -> x[@i - 1] = x'[@i - 1]) ->
  (i < n - 1 -> x[@i + 1] = x'[@i + 1]) ->
  row a b c x n i = row a b c x' n i.
Proof. intros. by apply tridiagonal_row_transport. Qed.

Lemma tridiagonal_row_zero a b c x n i :
  x[@i] = c0 ->
  (0 < i -> x[@i - 1] = c0) ->
  (i < n - 1 -> x[@i + 1] = c0) ->
  row a b c x n i = c0.
Proof.
  intros Hx Hxm Hxp. unfold tridiagonal_row. rewrite Hx.
  destruct (decide (0 < i)), (decide (i < n - 1));
    rewrite ?Hxm, ?Hxp by done; ring.
Qed.

Section OneRank.
Context (G : decomposition) (p : Z) (d : @rank_arrays dcomplex).
Context (Hwf : well_formed G) (Hal : allocated G d).
Context (Hsolves : local_solves c0 c1 cadd cmul G p d).

Local Abbreviation a := (patched_avec c0 G p d).
Local Abbreviation b := (patched_bvec c0 c1 G p d).
Local Abbreviation c := (patched_cvec c0 G p d).
Local Abbreviation ncx := (LocalNx G).

Lemma upper_guard_row i :
  0 <= i < ncx ->
  row a b c (U G p d) ncx i
  = if lastX G p then c0
    else (unit_impulse c0 c1 ncx (xend G + 1) (evec d))[@i].
Proof.
  intros Hi.
  destruct Hal as (_ & _ & _ & _ & _ & Hu & _).
  destruct (lastX G p) eqn:E.
  - apply tridiagonal_row_zero; intros; rewrite aget_upper_guard by lia;
      by rewrite E.
  - destruct Hsolves as (_ & Hup & _). rewrite <- (Hup E i Hi).
    apply tridiagonal_row_ext; try done; intros;
      rewrite aget_upper_guard by lia; by rewrite E.
Qed.

Lemma lower_guard_row i :
  0 <= i < ncx ->
  row a b c (L G p d) ncx i
  = if firstX G p then c0
    else (unit_impulse c0 c1 ncx (xstart G - 1) (evec d))[@i].
Proof.
  intros Hi.
  destruct Hal as (_ & _ & _ & _ & _ & _ & Hl & _).
  destruct (firstX G p) eqn:E.
  - apply tridiagonal_row_zero; intros; rewrite aget_lower_guard by lia;
      by rewrite E.
  - destruct Hsolves as (_ & _ & Hlo). rewrite <- (Hlo E i Hi).
    apply tridiagonal_row_ext; try done; intros;
      rewrite aget_lower_guard by lia; by rewrite E.
Qed.

(** Row [i] of the patched local system applied to the local solution. *)
Lemma local_solution_row i :
  0 <= i < ncx ->
  row a b c (solution G p d) ncx i
  = (patched_bk1d c0 G p d)[@i]
    +c (if firstX G p then c0
        else (unit_impulse c0 c1 ncx (xstart G - 1) (evec d))[@i]) *c (xloclast d)[@0]
    +c (if lastX G p then c0
        else (unit_impulse c0 c1 ncx (xend G + 1) (evec d))[@i]) *c (xloclast d)[@3].
Proof.
  intros Hi.
  rewrite (tridiagonal_row_linear a b c _ (minvb d) (L G p d) (U G p d)
             (xloclast d)[@0] (xloclast d)[@3] ncx i Hi).
  - rewrite upper_guard_row, lower_guard_row by done.
    destruct Hsolves as (Hm & _). rewrite (Hm i Hi). done.
  - intros j _ Hj. by apply aget_local_solution.
Qed.

(** On a rank that is not the first one the guard cell [xstart-1] of the
    local solution is the halo value [xloclast[0]]. *)
Lemma local_solution_lower_halo :
  firstX G p = false -> (solution G p d)[@xstart G - 1] = (xloclast d)[@0].
Proof.
  intros Hf.
  pose proof Hwf as (Hn & Hx & Hncx).
  pose proof Hal as (Ha & Hb & Hc & Hr & He & _).
  assert (Hi : 0 <= xstart G - 1 < ncx) by lia.
  pose proof (local_solution_row (xstart G - 1) Hi) as Hrow.
  unfold tridiagonal_row in Hrow.
  unfold patched_avec, patched_bvec, patched_cvec, patched_bk1d in Hrow.
  rewrite !aget_patch_internal_boundaries in Hrow by done.
  rewrite !aget_unit_impulse in Hrow by lia.
  rewrite Hf in Hrow. simpl in Hrow.
  destruct (Z.ltb_spec (xstart G - 1) (xstart G)); [|lia]. simpl in Hrow.
  destruct (decide (xstart G - 1 = xstart G - 1)); [|done].
  destruct (decide (xstart G - 1 = xend G + 1)); [lia|].
  destruct (lastX G p);
    destruct (decide (0 < xstart G - 1)), (decide (xstart G - 1 < ncx - 1));
    try lia;
    match type of Hrow with ?lhs = ?rhs =>
      transitivity lhs; [ring | rewrite Hrow; ring] end.
Qed.

(** On a rank that is not the last one the guard cell [xend+1] is the halo
    value [xloclast[3]]. *)
Lemma local_solution_upper_halo :
  lastX G p = false -> (solution G p d)[@xend G + 1] = (xloclast d)[@3].
Proof.
  intros Hl.
  pose proof Hwf as (Hn & Hx & Hncx).
  pose proof Hal as (Ha & Hb & Hc & Hr & He & _).
  assert (Hi : 0 <= xend G + 1 < ncx) by lia.
  pose proof (local_solution_row (xend G + 1) Hi) as Hrow.
  unfold tridiagonal_row in Hrow.
  unfold patched_avec, patched_bvec, patched_cvec, patched_bk1d in Hrow.
  rewrite !aget_patch_internal_boundaries in Hrow by done.
  rewrite !aget_unit_impulse in Hrow by lia.
  rewrite Hl in Hrow. simpl in Hrow.
  destruct (Z.ltb_spec (xend G) (xend G + 1)); [|lia].
  rewrite !orb_true_r in Hrow.
  destruct (decide (xend G + 1 = xend G + 1)); [|done].
  destruct (decide (xend G + 1 = xstart G - 1)); [lia|].
  destruct (firstX G p);
    destruct (decide (0 < xend G + 1)), (decide (xend G + 1 < ncx - 1));
    try lia;
    match type of Hrow with ?lhs = ?rhs =>
      transitivity lhs; [ring | rewrite Hrow; ring] end.
Qed.

End OneRank.

(** *** Owners of the global indices *)

(** The local indices a rank contributes to the global arrays. *)
Definition owned (G : decomposition) (p i : Z) : Prop :=
  (if p =? 0 then 0 else xstart G) <= i
  <= (if p =? nproc G - 1 then LocalNx G - 1 else xend G).

Lemma owner_spec G g :
  well_formed G -> 0 <= g < GlobalNx G ->
  0 <= owner G g < nproc G /\ owned G (owner G g) (local_index G g).
Proof.
  intros (Hn & Hx & Hncx) Hg. unfold local_index, owner, owned, GlobalNx in *.
  set (n := own_points G) in *.
  assert (Hpos : 0 < n) by (unfold n, own_points; lia).
  assert (Hn_eq : n = xend G - xstart G + 1) by done.
  destruct (Z.ltb_spec g (xstart G)) as [Hlt|Hge].
  - split; [lia|]. change (0 =? 0) with true. cbv iota.
    destruct (Z.eqb_spec 0 (nproc G - 1)); lia.
  - set (q := (g - xstart G) / n).
    assert (Hq1 : n * q <= g - xstart G) by (apply Z.mul_div_le; lia).
    assert (Hq2 : g - xstart G < n * Z.succ q) by (apply Z.mul_succ_div_gt; lia).
    assert (Hq0 : 0 <= q) by (apply Z.div_pos; lia).
    destruct (Z.min_spec q (nproc G - 1)) as [[Hm ->]|[Hm ->]].
    + split; [lia|].
      destruct (Z.eqb_spec q 0), (Z.eqb_spec q (nproc G - 1)); nia.
    + split; [lia|].
      destruct (Z.eqb_spec (nproc G - 1) 0),
        (Z.eqb_spec (nproc G - 1) (nproc G - 1)); nia.
Qed.

Lemma owner_of_owned G p i :
  well_formed G -> 0 <= p < nproc G -> owned G p i ->
  owner G (p * own_points G + i) = p /\ local_index G (p * own_points G + i) = i.
Proof.
  intros (Hn & Hx & Hncx) Hp Hown. unfold local_index.
  assert (Howner : owner G (p * own_points G + i) = p); [|rewrite Howner; lia].
  unfold owner, owned in *.
  set (n := own_points G) in *.
  assert (Hpos : 0 < n) by (unfold n, own_points; lia).
  assert (Hn_eq : n = xend G - xstart G + 1) by done.
  destruct (Z.ltb_spec (p * n + i) (xstart G)) as [Hlt|Hge].
  - destruct (Z.eqb_spec p 0); [lia | nia].
  - assert (Hi : xstart G <= i) by (destruct (Z.eqb_spec p 0); nia).
    destruct (Z.eqb_spec p (nproc G - 1)) as [Hlast|Hnl].
    + assert (p <= (p * n + i - xstart G) / n)
        by (apply Z.div_le_lower_bound; nia).
      lia.
    + assert ((p * n + i - xstart G) / n = p).
      { symmetry. apply (Z.div_unique _ _ _ (i - xstart G)); lia. }
      lia.
Qed.

Lemma length_assemble G v :
  length (assemble c0 G v) = Z.to_nat (GlobalNx G).
Proof. unfold assemble. by rewrite length_map, length_seq. Qed.

Lemma aget_assemble G v g :
  0 <= g < GlobalNx G ->
  (assemble c0 G v)[@g] = (v (owner G g))[@local_index G g].
Proof.
  intros Hg. unfold assemble. unfold aget at 1.
  destruct (Z.ltb_spec g 0); [lia|].
  rewrite list_lookup_fmap, lookup_seq_lt by lia. simpl.
  rewrite Z2Nat.id by lia. done.
Qed.

(** *** The assembled solution solves the assembled system *)

Section AllRanks.
Context (G : decomposition) (ranks : Z -> @rank_arrays dcomplex).
Context (Hwf : well_formed G).
Context (Hal : forall p, 0 <= p < nproc G -> allocated G (ranks p)).
Context (Hsolves : forall p, 0 <= p < nproc G ->
                     local_solves c0 c1 cadd cmul G p (ranks p)).
Context (Hreduced : reduced_system_solved c0 cadd cmul G ranks).

Local Abbreviation x_ := (fun p => solution G p (ranks p)).

Lemma local_solution_edges p :
  0 <= p < nproc G ->
  (x_ p)[@xstart G] = (xloclast (ranks p))[@1] /\
  (x_ p)[@xend G] = (xloclast (ranks p))[@2].
Proof.
  intros Hp. pose proof Hwf as (Hn & Hx & Hncx).
  destruct (Hreduced p Hp) as (H1 & H2 & _).
  pose proof (Hal p Hp) as Hallocated.
  assert (Hlen : (4 <= length (xloclast (ranks p)))%nat)
    by (destruct Hallocated as (_ & _ & _ & _ & _ & _ & _ & H4 & _); lia).
  rewrite IPT.aget_update_interface_1 in H1 by done.
  rewrite IPT.aget_update_interface_2 in H2 by done.
  simpl in H1, H2.
  rewrite !aget_local_solution by (done || lia).
  rewrite <- H1, <- H2. split; ring.
Qed.

Lemma firstX_false p : 0 < p -> firstX G p = false.
Proof. intros. unfold firstX. apply Z.eqb_neq. lia. Qed.

Lemma lastX_false p : p < nproc G - 1 -> lastX G p = false.
Proof. intros. unfold lastX. apply Z.eqb_neq. lia. Qed.

(** The cell below an own cell, in the assembled solution. *)
Lemma assembled_below p i :
  0 <= p < nproc G -> owned G p i -> 0 < i ->
  (assemble c0 G x_)[@p * own_points G + i - 1] = (x_ p)[@i - 1].
Proof.
  intros Hp Hown Hi. pose proof Hwf as (Hn & Hx & Hncx).
  assert (Hpos : 0 < own_points G) by (unfold own_points; lia).
  assert (Hrange : 0 <= p * own_points G + i - 1 < GlobalNx G).
  { unfold GlobalNx, owned in *.
    destruct (Z.eqb_spec p 0), (Z.eqb_spec p (nproc G - 1));
      unfold own_points in *; nia. }
  rewrite aget_assemble by done.
  destruct (decide (owned G p (i - 1))) as [Hown'|Hnot].
  - replace (p * own_points G + i - 1) with (p * own_points G + (i - 1)) by lia.
    destruct (owner_of_owned G p (i - 1) Hwf Hp Hown') as [-> ->]. done.
  - assert (Hp0 : 0 < p /\ i = xstart G).
    { unfold owned in *. destruct (Z.eqb_spec p 0),
        (Z.eqb_spec p (nproc G - 1)); lia. }
    destruct Hp0 as [Hp0 ->].
    replace (p * own_points G + xstart G - 1)
      with ((p - 1) * own_points G + xend G) by (unfold own_points; lia).
    assert (Hown' : owned G (p - 1) (xend G)).
    { unfold owned. destruct (Z.eqb_spec (p - 1) 0),
        (Z.eqb_spec (p - 1) (nproc G - 1)); lia. }
    destruct (owner_of_owned G (p - 1) (xend G) Hwf ltac:(lia) Hown') as [-> ->].
    destruct (local_solution_edges (p - 1) ltac:(lia)) as [_ ->].
    destruct (Hreduced p Hp) as (_ & _ & Hin & _).
    rewrite <- (Hin Hp0).
    symmetry. apply local_solution_lower_halo; auto using firstX_false.
Qed.

(** The cell above an own cell, in the assembled solution. *)
Lemma assembled_above p i :
  0 <= p < nproc G -> owned G p i -> i < LocalNx G - 1 ->
  (assemble c0 G x_)[@p * own_points G + i + 1] = (x_ p)[@i + 1].
Proof.
  intros Hp Hown Hi. pose proof Hwf as (Hn & Hx & Hncx).
  assert (Hpos : 0 < own_points G) by (unfold own_points; lia).
  assert (Hrange : 0 <= p * own_points G + i + 1 < GlobalNx G).
  { unfold GlobalNx, owned in *.
    destruct (Z.eqb_spec p 0), (Z.eqb_spec p (nproc G - 1));
      unfold own_points in *; nia. }
  rewrite aget_assemble by done.
  destruct (decide (owned G p (i + 1))) as [Hown'|Hnot].
  - replace (p * own_points G + i + 1) with (p * own_points G + (i + 1)) by lia.
    destruct (owner_of_owned G p (i + 1) Hwf Hp Hown') as [-> ->]. done.
  - assert (Hp0 : p < nproc G - 1 /\ i = xend G).
    { unfold owned in *. destruct (Z.eqb_spec p 0),
        (Z.eqb_spec p (nproc G - 1)); lia. }
    destruct Hp0 as [Hp0 ->].
    replace (p * own_points G + xend G + 1)
      with ((p + 1) * own_points G + xstart G) by (unfold own_points; lia).
    assert (Hown' : owned G (p + 1) (xstart G)).
    { unfold owned. destruct (Z.eqb_spec (p + 1) 0),
        (Z.eqb_spec (p + 1) (nproc G - 1)); lia. }
    destruct (owner_of_owned G (p + 1) (xstart G) Hwf ltac:(lia) Hown') as [-> ->].
    destruct (local_solution_edges (p + 1) ltac:(lia)) as [-> _].
    destruct (Hreduced p Hp) as (_ & _ & _ & Hout).
    rewrite <- (Hout Hp0).
    symmetry. apply local_solution_upper_halo; auto using lastX_false.
Qed.

Lemma owned_in_range p i :
  0 <= p < nproc G -> owned G p i -> 0 <= i < LocalNx G.
Proof.
  intros Hp Hown. pose proof Hwf as (Hn & Hx & Hncx). unfold owned in Hown.
  destruct (Z.eqb_spec p 0), (Z.eqb_spec p (nproc G - 1)); lia.
Qed.

(** An own cell is not touched by the patching of the internal boundaries. *)
Lemma aget_patched_owned p i fill v :
  0 <= p < nproc G -> owned G p i -> Z.of_nat (length v) = LocalNx G ->
  (patch_internal_boundaries c0 G p fill v)[@i] = v[@i].
Proof.
  intros Hp Hown Hlen.
  rewrite aget_patch_internal_boundaries by eauto using owned_in_range.
  unfold owned, firstX, lastX in *.
  destruct (Z.eqb_spec p 0), (Z.eqb_spec p (nproc G - 1));
    destruct (Z.ltb_spec i (xstart G)), (Z.ltb_spec (xend G) i);
    simpl; try done; lia.
Qed.

(** The assembled local solutions satisfy every row of the global system
    assembled from the ranks' own rows. *)
Lemma assembled_solves_global :
  tridag_solves c0 cadd cmul
    (assemble c0 G (fun p => avec (ranks p)))
    (assemble c0 G (fun p => bvec (ranks p)))
    (assemble c0 G (fun p => cvec (ranks p)))
    (assemble c0 G (fun p => bk1d (ranks p)))
    (assemble c0 G x_) (GlobalNx G).
Proof.
  intros g Hg.
  destruct (owner_spec G g Hwf Hg) as [Hp Hown].
  rewrite !(aget_assemble G _ g Hg).
  assert (Hgi : g = owner G g * own_points G + local_index G g)
    by (unfold local_index; lia).
  set (p := owner G g) in *. set (i := local_index G g) in *.
  pose proof (owned_in_range p i Hp Hown) as Hi.
  pose proof Hwf as (Hn & Hx & Hncx).
  pose proof (Hal p Hp) as Hallocated.
  pose proof Hallocated as (Ha & Hb & Hc & Hr & He & _).
  assert (Hpos : 0 < own_points G) by (unfold own_points; lia).
  assert (Hfirst : 0 < g <-> 0 < i).
  { unfold owned in Hown. destruct (Z.eqb_spec p 0); nia. }
  assert (Hlast : g < GlobalNx G - 1 <-> i < LocalNx G - 1).
  { unfold owned, GlobalNx in *. destruct (Z.eqb_spec p (nproc G - 1));
      unfold own_points in *; nia. }
  rewrite (tridiagonal_row_transport _ _ _
             (patched_avec c0 G p (ranks p)) (patched_bvec c0 c1 G p (ranks p))
             (patched_cvec c0 G p (ranks p)) _ (x_ p) _ (LocalNx G) g i).
  - rewrite (local_solution_row G p (ranks p) Hwf Hallocated (Hsolves p Hp) i Hi).
    unfold patched_bk1d. rewrite aget_patched_owned by done.
    assert (Hlo : (if firstX G p then c0
                   else (unit_impulse c0 c1 (LocalNx G) (xstart G - 1)
                           (evec (ranks p)))[@i]) = c0).
    { destruct (firstX G p) eqn:E; [done|].
      rewrite aget_unit_impulse by lia.
      destruct (decide _) as [Heq|]; [|done].
      unfold owned, firstX in *. destruct (Z.eqb_spec p 0); [done | lia]. }
    assert (Hup : (if lastX G p then c0
                   else (unit_impulse c0 c1 (LocalNx G) (xend G + 1)
                           (evec (ranks p)))[@i]) = c0).
    { destruct (lastX G p) eqn:E; [done|].
      rewrite aget_unit_impulse by lia.
      destruct (decide _) as [Heq|]; [|done].
      unfold owned, lastX in *. destruct (Z.eqb_spec p (nproc G - 1)); [done | lia]. }
    rewrite Hlo, Hup. ring.
  - rewrite aget_assemble by done. unfold patched_avec.
    by rewrite aget_patched_owned.
  - rewrite aget_assemble by done. unfold patched_bvec.
    by rewrite aget_patched_owned.
  - rewrite aget_assemble by done. unfold patched_cvec.
    by rewrite aget_patched_owned.
  - by rewrite aget_assemble.
  - done.
  - intros H0. rewrite Hgi. apply assembled_below; [done | done | lia].
  - done.
  - intros H0. rewrite Hgi. apply assembled_above; [done | done | lia].
Qed.

End AllRanks.

(** C1 (reduction equivalence, in exact arithmetic).  For any number of
    ranks: let every rank's three local solves be exact, and let the
    interface values solve the reduced system built from [minvb] and the
    guard vectors ([rl, ru, al, bl, au, bu]).  Then the local solutions
    reconstructed from the guard vectors, put together over the ranks,
    satisfy every row of the global tridiagonal system assembled from the
    ranks' own rows; hence they coincide with the result of a direct solve
    of that system on one rank, the system having one solution only. *)
Theorem reduction_equivalence
    (G : decomposition) (ranks : Z -> @rank_arrays dcomplex)
    (Xdirect : list dcomplex) :
  let A := assemble c0 G (fun p => avec (ranks p)) in
  let B := assemble c0 G (fun p => bvec (ranks p)) in
  let C := assemble c0 G (fun p => cvec (ranks p)) in
  let R := assemble c0 G (fun p => bk1d (ranks p)) in
  let X := assemble c0 G (fun p => solution G p (ranks p)) in
  well_formed G ->
  (forall p, 0 <= p < nproc G -> allocated G (ranks p)) ->
  (forall p, 0 <= p < nproc G -> local_solves c0 c1 cadd cmul G p (ranks p)) ->
  reduced_system_solved c0 cadd cmul G ranks ->
  tridag_solves c0 cadd cmul A B C R Xdirect (GlobalNx G) ->
  (forall Y Y', tridag_solves c0 cadd cmul A B C R Y (GlobalNx G) ->
                tridag_solves c0 cadd cmul A B C R Y' (GlobalNx G) ->
                forall g, 0 <= g < GlobalNx G -> Y[@g] = Y'[@g]) ->
  tridag_solves c0 cadd cmul A B C R X (GlobalNx G) /\
  forall g, 0 <= g < GlobalNx G -> X[@g] = Xdirect[@g].
Proof.
  intros A B C R X Hwf Hal Hsolves Hreduced Hdirect Hunique.
  assert (HX : tridag_solves c0 cadd cmul A B C R X (GlobalNx G))
    by (by apply assembled_solves_global).
  split; [done|].
  intros g Hg. by apply (Hunique X Xdirect).
Qed.

End ReductionEquivalence.


(** ** Two ranks over the integers

    The system with ones on the three diagonals and right-hand side
    [1, 2, 3, 4, 5, 6], on two ranks with two own points and one guard cell
    each.  The guard cells of the coefficient arrays hold other values (9,
    7), which the patching and the impulse overwrite. *)

Module TwoRanks.

Definition G : decomposition := mkDecomposition 2 1 2 4.

Definition rank0 : rank_arrays :=
  mkRankArrays
    [1; 1; 1; 1] [1; 1; 1; 1] [1; 1; 1; 1] [1; 2; 3; 9]
    [-1; 2; 1; 0] [1; -1; 0; 1] [0; 0; 0; 0]
    [7; 7; 7; 7] [0; 0; 0; 0] [0; 0; 0; 0]
    [0; 3; 1; -1] [0; 0; 0; 0] [0; 0; 0; 0].

Definition rank1 : rank_arrays :=
  mkRankArrays
    [1; 1; 1; 1] [1; 1; 1; 1] [1; 1; 1; 1] [9; 4; 5; 6]
    [0; -1; 5; 1] [0; 0; 0; 0] [1; 0; -1; 1]
    [7; 7; 7; 7] [0; 0; 0; 0] [0; 0; 0; 0]
    [1; -1; 4; 0] [0; 0; 0; 0] [0; 0; 0; 0].

Definition ranks (p : Z) : rank_arrays := if p =? 0 then rank0 else rank1.

(** The direct solution of the six equations. *)
Definition Xdirect : list Z := [-2; 3; 1; -1; 4; 2].

(** The global arrays are what one expects. *)
Lemma assembled_system :
  assemble 0 G (fun p => avec (ranks p)) = [1; 1; 1; 1; 1; 1] /\
  assemble 0 G (fun p => bvec (ranks p)) = [1; 1; 1; 1; 1; 1] /\
  assemble 0 G (fun p => cvec (ranks p)) = [1; 1; 1; 1; 1; 1] /\
  assemble 0 G (fun p => bk1d (ranks p)) = [1; 2; 3; 4; 5; 6].
Proof. repeat split. Qed.

Lemma four_cases i : 0 <= i < 4 -> i = 0 \/ i = 1 \/ i = 2 \/ i = 3.
Proof. lia. Qed.

Lemma six_cases i :
  0 <= i < 6 -> i = 0 \/ i = 1 \/ i = 2 \/ i = 3 \/ i = 4 \/ i = 5.
Proof. lia. Qed.

Lemma two_ranks p : 0 <= p < nproc G -> p = 0 \/ p = 1.
Proof. simpl. lia. Qed.

Lemma well_formed_G : well_formed G.
Proof. unfold well_formed. simpl. lia. Qed.

Lemma allocated_ranks p : 0 <= p < nproc G -> allocated G (ranks p).
Proof.
  intros Hp. destruct (two_ranks p Hp) as [-> | ->];
    unfold allocated; simpl; repeat split.
Qed.

Lemma local_solves_ranks p :
  0 <= p < nproc G -> local_solves 0 1 Z.add Z.mul G p (ranks p).
Proof.
  intros Hp. destruct (two_ranks p Hp) as [-> | ->];
    (split; [|split]);
    try (intros Hflag; try discriminate Hflag; clear Hflag);
    intros i Hi; change (LocalNx G) with 4 in Hi; apply four_cases in Hi;
    destruct Hi as [-> | [-> | [-> | ->]]]; reflexivity.
Qed.

Lemma reduced_system_solved_ranks : reduced_system_solved 0 Z.add Z.mul G ranks.
Proof.
  intros p Hp. destruct (two_ranks p Hp) as [-> | ->];
    simpl; repeat split; (reflexivity || lia).
Qed.

Lemma Xdirect_solves :
  tridag_solves 0 Z.add Z.mul
    (assemble 0 G (fun p => avec (ranks p)))
    (assemble 0 G (fun p => bvec (ranks p)))
    (assemble 0 G (fun p => cvec (ranks p)))
    (assemble 0 G (fun p => bk1d (ranks p))) Xdirect (GlobalNx G).
Proof.
  intros i Hi. change (GlobalNx G) with 6 in Hi. apply six_cases in Hi.
  destruct Hi as [-> | [-> | [-> | [-> | [-> | ->]]]]]; reflexivity.
Qed.

(** The six rows of a solution [Y], written out. *)
Lemma rows_of_solution (Y : list Z) :
  tridag_solves 0 Z.add Z.mul
    (assemble 0 G (fun p => avec (ranks p)))
    (assemble 0 G (fun p => bvec (ranks p)))
    (assemble 0 G (fun p => cvec (ranks p)))
    (assemble 0 G (fun p => bk1d (ranks p))) Y (GlobalNx G) ->
  aget 0 Y 0 + aget 0 Y 1 = 1 /\
  aget 0 Y 0 + aget 0 Y 1 + aget 0 Y 2 = 2 /\
  aget 0 Y 1 + aget 0 Y 2 + aget 0 Y 3 = 3 /\
  aget 0 Y 2 + aget 0 Y 3 + aget 0 Y 4 = 4 /\
  aget 0 Y 3 + aget 0 Y 4 + aget 0 Y 5 = 5 /\
  aget 0 Y 4 + aget 0 Y 5 = 6.
Proof.
  destruct assembled_system as (-> & -> & -> & ->).
  change (GlobalNx G) with 6.
  intros H.
  pose proof (H 0 ltac:(lia)) as H0.
  pose proof (H 1 ltac:(lia)) as H1.
  pose proof (H 2 ltac:(lia)) as H2.
  pose proof (H 3 ltac:(lia)) as H3.
  pose proof (H 4 ltac:(lia)) as H4.
  pose proof (H 5 ltac:(lia)) as H5.
  clear H. unfold tridiagonal_row in *.
  repeat match goal with
         | H : context [aget 0 [?a; ?b; ?c; ?d; ?e; ?f] ?i] |- _ =>
             let v := eval vm_compute in (aget 0 [a; b; c; d; e; f] i) in
             change (aget 0 [a; b; c; d; e; f] i) with v in H
         end.
  repeat match goal with
         | H : context [decide (?x < ?y)] |- _ => destruct (decide (x < y)); try lia
         end.
  change (0 - 1) with (-1) in *. change (1 - 1) with 0 in *.
  change (1 + 1) with 2 in *. change (2 - 1) with 1 in *.
  change (2 + 1) with 3 in *. change (3 - 1) with 2 in *.
  change (3 + 1) with 4 in *. change (4 - 1) with 3 in *.
  change (4 + 1) with 5 in *. change (5 - 1) with 4 in *.
  change (0 + 1) with 1 in *.
  lia.
Qed.

Lemma solution_unique (Y Y' : list Z) :
  tridag_solves 0 Z.add Z.mul
    (assemble 0 G (fun p => avec (ranks p)))
    (assemble 0 G (fun p => bvec (ranks p)))
    (assemble 0 G (fun p => cvec (ranks p)))
    (assemble 0 G (fun p => bk1d (ranks p))) Y (GlobalNx G) ->
  tridag_solves 0 Z.add Z.mul
    (assemble 0 G (fun p => avec (ranks p)))
    (assemble 0 G (fun p => bvec (ranks p)))
    (assemble 0 G (fun p => cvec (ranks p)))
    (assemble 0 G (fun p => bk1d (ranks p))) Y' (GlobalNx G) ->
  forall g, 0 <= g < GlobalNx G -> aget 0 Y g = aget 0 Y' g.
Proof.
  intros HY HY' g Hg.
  apply rows_of_solution in HY, HY'.
  change (GlobalNx G) with 6 in Hg. apply six_cases in Hg.
  destruct Hg as [-> | [-> | [-> | [-> | [-> | ->]]]]]; lia.
Qed.

End TwoRanks.

(** The reduced path on the two ranks returns the direct solution. *)
Lemma reduction_equivalence_witness :
  assemble 0 TwoRanks.G
    (fun p => local_solution 0 Z.add Z.mul TwoRanks.G p (TwoRanks.ranks p))
  = TwoRanks.Xdirect
  /\ aget 0 (assemble 0 TwoRanks.G
               (fun p => local_solution 0 Z.add Z.mul TwoRanks.G p (TwoRanks.ranks p))) 3
     = aget 0 TwoRanks.Xdirect 3.
Proof.
  split; [reflexivity|].
  apply (proj2 (reduction_equivalence 0 1 Z.add Z.mul Z.sub Z.opp Zth
                  TwoRanks.G TwoRanks.ranks TwoRanks.Xdirect
                  TwoRanks.well_formed_G TwoRanks.allocated_ranks
                  TwoRanks.local_solves_ranks TwoRanks.reduced_system_solved_ranks
                  TwoRanks.Xdirect_solves TwoRanks.solution_unique) 3).
  change (0 <= 3 < 6). lia.
Defined.


(** ** Laplace1DMG::solve: the loop as a whole

    [1d_multigrid.cxx], the [while (true)] loop of [Laplace1DMG::solve], run
    from the state in which [solve] enters it. *)

Module MGLoop.
Section Loop.
Context {dcomplex : Type}.
Context (c0 : dcomplex) (csub cmul : dcomplex -> dcomplex -> dcomplex).
Context {Rest : Type}.

Local Abbreviation LevelArrays := (@MG.LevelArrays dcomplex Rest).

Context (refine : Z -> Z -> list bool -> LevelArrays -> result LevelArrays).
Context (update_solution : Z -> list bool -> LevelArrays -> result LevelArrays).
Context (synchronize_xloc : Z -> Z -> LevelArrays -> result LevelArrays).
Context (synchronize_residual : Z -> Z -> LevelArrays -> result LevelArrays).
Context (coarsen : Z -> list bool -> LevelArrays -> result LevelArrays).
Context (residual_point : Z -> Z -> Z -> LevelArrays -> LevelArrays).
Context (steps : nat).
Context (LocalNx : Z).
Context (allreduce_total : Z -> LevelArrays -> Z -> float * float).
Context (ceil_log_ratio : float -> float -> Z).
Context (is_diagonally_dominant : LevelArrays -> bool).
Context (allreduce_land : Z -> bool -> bool).

Local Abbreviation state := (@MG.state dcomplex Rest).
Local Abbreviation outcome := (@MG.outcome dcomplex Rest).
Local Abbreviation sweep_and_check :=
  (MG.sweep_and_check c0 csub cmul residual_point steps LocalNx allreduce_total
     ceil_log_ratio).
Local Abbreviation advance :=
  (MG.advance refine update_solution synchronize_xloc synchronize_residual coarsen
     residual_point steps is_diagonally_dominant allreduce_land).
Local Abbreviation solve_iteration :=
  (MG.solve_iteration c0 csub cmul refine update_solution synchronize_xloc
     synchronize_residual coarsen residual_point steps LocalNx allreduce_total
     ceil_log_ratio is_diagonally_dominant allreduce_land).










End Loop.
End MGLoop.



(** ** LaplaceParallelTri, third version: the relaxation loop as a whole

    [parallel_tri.cxx], the [while (true)] loop of the third
    [LaplaceParallelTri::solve(b, x0)] for one mode on one rank; the
    neighbours' messages may differ from pass to pass. *)

Module IPTLoop.
Section Loop.
Context {dcomplex : Type}.
Context (c0 : dcomplex) (cadd cmul csub : dcomplex -> dcomplex -> dcomplex).
Context (cabs : dcomplex -> float).

Local Notation "x +c y" := (cadd x y) (at level 50, left associativity).
Local Notation "x *c y" := (cmul x y) (at level 40, left associativity).
Local Notation "a [@ i ]" := (aget c0 a i) (at level 1, i at level 200, format "a [@ i ]").

Local Abbreviation state := (@IPT.state dcomplex).
Local Abbreviation message := (@IPT.message dcomplex).
Local Abbreviation outcome := (@IPT.outcome dcomplex).
Local Abbreviation iterate := (IPT.iterate c0 cadd cmul csub cabs).
Local Abbreviation update_interface := (IPT.update_interface c0 cadd cmul).


Lemma iterate_continue_flags opt cf m_in m_out (s s' : state) :
  snd (iterate opt cf m_in m_out s) = IPT.Continue s' ->
  IPT.count s' = IPT.count s + 1 /\ IPT.count s' <= IPT.maxits opt /\
  (IPT.neighbour_in s' = true -> IPT.self_in s' = true) /\
  (IPT.neighbour_out s' = true -> IPT.self_out s' = true) /\
  IPT.xloclast s' = copy_array c0 4 (IPT.xloc s') (IPT.xloclast s).
Proof.
  unfold IPT.iterate.
  destruct (_ && _); simpl; [discriminate|].
  destruct (Z.ltb_spec (IPT.maxits opt) (IPT.count s + 1)); simpl; [discriminate|].
  intros [= <-]. simpl. repeat split; try done.
  - intros ->. done.
  - intros ->. done.
Qed.




(** A rank stops once both neighbours are known to have converged.  After a
    pass that ends with [neighbour_in] and [neighbour_out] both set, the next
    pass sends nothing, receives nothing (the halo cells [xloc[0]] and
    [xloc[3]] keep their values) and leaves the loop by [break], whether or
    not the rank's own tolerance test succeeds; the edge values it leaves
    with are the interface equations applied to those final halo values. *)
Theorem leaves_once_both_neighbours_converged
    (opt : IPT.options) (cf : IPT.coefficients)
    (m_in m_out m_in' m_out' : message) (s s' : state) :
  (4 <= length (IPT.xloc s'))%nat ->
  (4 <= length (IPT.xloclast s))%nat ->
  snd (iterate opt cf m_in m_out s) = IPT.Continue s' ->
  IPT.neighbour_in s' = true ->
  IPT.neighbour_out s' = true ->
  exists s'',
    iterate opt cf m_in' m_out' s' = ([], IPT.Break s'') /\
    IPT.count s'' = IPT.count s' /\
    (IPT.xloc s'')[@0] = (IPT.xloc s')[@0] /\
    (IPT.xloc s'')[@3] = (IPT.xloc s')[@3] /\
    (IPT.xloc s'')[@1]
      = IPT.rl cf +c IPT.al cf *c (IPT.xloc s'')[@0] +c IPT.bl cf *c (IPT.xloc s'')[@3] /\
    (IPT.xloc s'')[@2]
      = IPT.ru cf +c IPT.au cf *c (IPT.xloc s'')[@0] +c IPT.bu cf *c (IPT.xloc s'')[@3].
Proof.
  intros Hx Hxl Hstep Hin Hout.
  apply iterate_continue_flags in Hstep as (_ & _ & Hsi & Hso & Hlast).
  specialize (Hsi Hin). specialize (Hso Hout).
  assert (Hfst : fst (iterate opt cf m_in' m_out' s') = []).
  { rewrite IPT.fst_iterate. unfold IPT.sent_messages. rewrite Hin, Hout. done. }
  assert (Hsnd := IPT.snd_iterate_when_marked c0 cadd cmul csub cabs opt cf m_in' m_out' s').
  cbv zeta in Hsnd. rewrite Hsi, Hso, orb_true_r in Hsnd. specialize (Hsnd eq_refl).
  eexists. split.
  { destruct (iterate opt cf m_in' m_out' s') as [sent o]. simpl in *.
    rewrite Hfst, Hsnd. reflexivity. }
  cbn [IPT.count IPT.xloc].
  assert (Hex : IPT.exchanged_xloc m_in' m_out' s'
                  (update_interface cf (IPT.xloclast s') (IPT.xloc s'))
                = update_interface cf (IPT.xloclast s') (IPT.xloc s')).
  { unfold IPT.exchanged_xloc. rewrite Hin, Hout. done. }
  rewrite Hex.
  rewrite !IPT.aget_update_interface_halo by lia.
  rewrite IPT.aget_update_interface_1, IPT.aget_update_interface_2 by done.
  rewrite Hlast, !aget_copy_array by lia.
  done.
Qed.

End Loop.
End IPTLoop.

(** A single rank: both physical boundaries count as converged neighbours,
    so the second pass leaves the loop without any exchange. *)
Lemma leaves_once_both_neighbours_converged_witness :
  exists s'',
    RealAxis.iterate RealAxis.opt RealAxis.cf
      RealAxis.unconverged_neighbour RealAxis.unconverged_neighbour
      (IPT.mkState 1 true true true true [2; 2; 2; 2] [2; 2; 2; 2])%float
    = ([], IPT.Break s'').
Proof.
  destruct (IPTLoop.leaves_once_both_neighbours_converged 0%float PrimFloat.add
              PrimFloat.mul PrimFloat.sub PrimFloat.abs RealAxis.opt RealAxis.cf
              RealAxis.unconverged_neighbour RealAxis.unconverged_neighbour
              RealAxis.unconverged_neighbour RealAxis.unconverged_neighbour
              (IPT.initial_state true true [2; 2; 2; 2] [2; 2; 2; 2])%float
              (IPT.mkState 1 true true true true [2; 2; 2; 2] [2; 2; 2; 2])%float)
    as (s'' & H & _).
  - simpl. lia.
  - simpl. lia.
  - vm_compute. reflexivity.
  - reflexivity.
  - reflexivity.
  - exists s''. exact H.
Defined.



(** ** Laplace1DMG::Level::calculate_total_residual: the error arrays *)

Section TotalResidualErrors.
Context (total : Z -> float * float).
Context (rtol atol : float).

Local Abbreviation mark_mode := (MG.mark_mode total rtol atol).

Lemma mark_mode_lengths kz ea er cv :
  let '(ea', er', cv') := mark_mode kz (ea, er, cv) in
  length ea' = length ea /\ length er' = length er /\ length cv' = length cv.
Proof.
  unfold MG.mark_mode. destruct (negb _); [|done].
  rewrite !length_aset. destruct (_ || _); rewrite ?length_aset; done.
Qed.

Lemma mark_mode_errors kz ea er cv j :
  0 <= kz < Z.of_nat (length ea) -> 0 <= kz < Z.of_nat (length er) ->
  let '(ea', er', cv') := mark_mode kz (ea, er, cv) in
  aget 0%float ea' j
    = (if decide (j = kz) then
         if aget true cv kz then aget 0%float ea kz
         else PrimFloat.sqrt (fst (total kz))
       else aget 0%float ea j) /\
  aget 0%float er' j
    = (if decide (j = kz) then
         if aget true cv kz then aget 0%float er kz
         else (PrimFloat.sqrt (fst (total kz)) / PrimFloat.sqrt (snd (total kz)))%float
       else aget 0%float er j) /\
  (j <> kz -> aget true cv' j = aget true cv j).
Proof.
  intros Hea Her. unfold MG.mark_mode.
  destruct (aget true cv kz) eqn:Ec; simpl.
  - destruct (decide (j = kz)) as [->|]; done.
  - destruct (decide (j = kz)) as [->|Hne].
    + rewrite !aget_aset_eq by lia. split; [done|]. split; [done|]. done.
    + rewrite !aget_aset_ne by lia. split; [done|]. split; [done|]. intros _.
      destruct (_ || _); [|done]. rewrite aget_aset_ne by lia. done.
Qed.

Lemma for_loop_mark_mode_errors fuel lo ea er cv :
  0 <= lo -> lo + Z.of_nat fuel <= Z.of_nat (length ea) ->
  length er = length ea ->
  let '(ea', er', cv') := for_loop fuel lo mark_mode (ea, er, cv) in
  length ea' = length ea /\ length er' = length er /\
  forall j,
    aget 0%float ea' j
      = (if decide (lo <= j < lo + Z.of_nat fuel) then
           if aget true cv j then aget 0%float ea j
           else PrimFloat.sqrt (fst (total j))
         else aget 0%float ea j) /\
    aget 0%float er' j
      = (if decide (lo <= j < lo + Z.of_nat fuel) then
           if aget true cv j then aget 0%float er j
           else (PrimFloat.sqrt (fst (total j)) / PrimFloat.sqrt (snd (total j)))%float
         else aget 0%float er j).
Proof.
  revert lo ea er cv.
  induction fuel as [|fuel IH]; intros lo ea er cv Hlo Hhi Hlen; cbn [for_loop].
  - split; [done|]. split; [done|]. intros j. destruct (decide _); [lia | done].
  - pose proof (mark_mode_lengths lo ea er cv) as Hl.
    pose proof (fun j => mark_mode_errors lo ea er cv j ltac:(lia) ltac:(lia)) as He.
    destruct (mark_mode lo (ea, er, cv)) as [[ea1 er1] cv1].
    destruct Hl as (Hl1 & Hl2 & Hl3).
    specialize (IH (lo + 1) ea1 er1 cv1 ltac:(lia) ltac:(lia) ltac:(lia)).
    destruct (for_loop fuel (lo + 1) mark_mode (ea1, er1, cv1)) as [[ea' er'] cv'].
    destruct IH as (IH1 & IH2 & IH3).
    split; [lia|]. split; [lia|]. intros j.
    destruct (IH3 j) as [Ha Hr]. destruct (He j) as (Ha1 & Hr1 & Hc1).
    rewrite Ha, Hr, Ha1, Hr1.
    destruct (decide (lo + 1 <= j < lo + 1 + Z.of_nat fuel)) as [H1|H1];
      destruct (decide (j = lo)) as [H2|H2];
      destruct (decide (lo <= j < lo + Z.of_nat (Datatypes.S fuel))) as [H3|H3];
      try lia; subst; try done.
    rewrite Hc1 by done. done.
Qed.

(** The error arrays after [calculate_total_residual]: for a mode that was
    already converged the entries of [error_abs] and [error_rel] keep their
    last values; for any other mode they are overwritten with
    [sqrt(total(0, kz))] and [sqrt(total(0, kz)) / sqrt(total(1, kz))],
    whether or not the mode is then marked.  The arrays keep their sizes. *)
Theorem converged_modes_keep_their_errors
    (nmode : Z) (error_abs error_rel : list float) (converged : list bool) (kz : Z) :
  Z.of_nat (length error_abs) = nmode ->
  Z.of_nat (length error_rel) = nmode ->
  0 <= kz < nmode ->
  let '(error_abs', error_rel', converged') :=
    MG.calculate_total_residual total rtol atol nmode error_abs error_rel converged in
  length error_abs' = length error_abs /\ length error_rel' = length error_rel /\
  aget 0%float error_abs' kz
    = (if aget true converged kz then aget 0%float error_abs kz
       else PrimFloat.sqrt (fst (total kz))) /\
  aget 0%float error_rel' kz
    = (if aget true converged kz then aget 0%float error_rel kz
       else (PrimFloat.sqrt (fst (total kz)) / PrimFloat.sqrt (snd (total kz)))%float).
Proof.
  intros Hea Her Hkz. unfold MG.calculate_total_residual, for_range.
  pose proof (for_loop_mark_mode_errors (Z.to_nat (nmode - 0)) 0 error_abs error_rel
                converged ltac:(lia) ltac:(lia) ltac:(lia)) as H.
  destruct (for_loop _ 0 mark_mode _) as [[ea' er'] cv'].
  destruct H as (H1 & H2 & H3). split; [done|]. split; [done|].
  destruct (H3 kz) as [Ha Hr]. rewrite Ha, Hr.
  destruct (decide _); [done | lia].
Qed.
End TotalResidualErrors.

(** Two modes, the first one converged. *)
Lemma converged_modes_keep_their_errors_witness :
  let '(error_abs', error_rel', converged') :=
    MG.calculate_total_residual (fun _ => (4%float, 16%float)) 0x1p-23%float 0x1p-66%float
      2 [0.5; 0.25]%float [0.125; 0.0625]%float [true; false] in
  aget 0%float error_abs' 0 = 0.5%float.
Proof.
  pose proof (converged_modes_keep_their_errors (fun _ => (4%float, 16%float))
                0x1p-23%float 0x1p-66%float 2 [0.5; 0.25]%float [0.125; 0.0625]%float
                [true; false] 0 eq_refl eq_refl ltac:(lia)) as H.
  destruct (MG.calculate_total_residual _ _ _ _ _ _ _) as [[ea er] cv].
  destruct H as (_ & _ & H & _). exact H.
Defined.


(** ** Loops and checked matrices: facts used by the sections below *)

Section LoopFacts.
Context {S : Type}.

Lemma for_loop_invariant (P : Z -> S -> Prop) (body : Z -> S -> S)
    (fuel : nat) (lo : Z) (s : S) :
  P lo s ->
  (forall i s, lo <= i < lo + Z.of_nat fuel -> P i s -> P (i + 1) (body i s)) ->
  P (lo + Z.of_nat fuel) (for_loop fuel lo body s).
Proof.
  revert lo s. induction fuel as [|fuel IH]; intros lo s H0 Hstep; cbn [for_loop].
  - replace (lo + Z.of_nat 0) with lo by lia. done.
  - replace (lo + Z.of_nat (Datatypes.S fuel)) with (lo + 1 + Z.of_nat fuel) by lia.
    apply IH.
    + apply Hstep; [lia | done].
    + intros i s' Hi. apply Hstep. lia.
Qed.

Lemma for_range_invariant (P : Z -> S -> Prop) (body : Z -> S -> S) (lo hi : Z) (s : S) :
  lo <= hi -> P lo s ->
  (forall i s, lo <= i < hi -> P i s -> P (i + 1) (body i s)) ->
  P hi (for_range lo hi body s).
Proof.
  intros Hle H0 Hstep. unfold for_range.
  replace hi with (lo + Z.of_nat (Z.to_nat (hi - lo))) at 1 by lia.
  apply for_loop_invariant; [done|].
  intros i s' Hi. apply Hstep. lia.
Qed.

(** A counted loop whose body may fault: with enough fuel it either runs to
    the end, keeping the invariant [P], or stops at the first fault, which
    then satisfies [R]. *)
Lemma for_stride_invariant (P : Z -> S -> Prop) (R : Z -> Z -> Prop)
    (body : Z -> S -> result S) (fuel : nat) (lo hi step : Z) (s : S) :
  0 < step -> hi - lo <= Z.of_nat fuel * step -> P lo s ->
  (forall i s, lo <= i < hi -> P i s ->
     (exists s', body i s = Ok s' /\ P (i + step) s') \/
     (exists a b, body i s = OutOfBounds a b /\ R a b)) ->
  (exists i' s', for_stride fuel lo hi step body s = Ok s' /\ P i' s' /\
                 hi <= i' /\ ((i' = lo /\ hi <= lo) \/ (lo < hi /\ i' < hi + step))) \/
  (exists a b, for_stride fuel lo hi step body s = OutOfBounds a b /\ R a b).
Proof.
  intros Hstep. revert lo s.
  induction fuel as [|fuel IH]; intros lo s Hfuel H0 Hbody; cbn [for_stride].
  - destruct (Z.ltb_spec lo hi); [lia|].
    left. exists lo, s. repeat split; first [done | lia | by left].
  - destruct (Z.ltb_spec lo hi) as [Hlt|Hge].
    + destruct (Hbody lo s ltac:(lia) H0) as [(s' & -> & HP)|(a & b & -> & HR)].
      * cbn [bind].
        destruct (IH (lo + step) s') as [(i' & s'' & Hr & HP' & Hhi & Hi')|Hfault].
        { lia. }
        { done. }
        { intros i s0 Hi. apply Hbody. lia. }
        { left. exists i', s''. repeat split; try done. right. lia. }
        { by right. }
      * right. exists a, b. done.
    + left. exists lo, s. repeat split; first [done | lia | by left].
Qed.

(** What a loop that ran to the end has gone through: every iteration was
    made, from a state satisfying the preserved property [Q]. *)
Lemma for_stride_completed (Q : S -> Prop) (body : Z -> S -> result S)
    (fuel : nat) (lo hi : Z) (s s' : S) :
  Q s ->
  (forall i s s1, Q s -> body i s = Ok s1 -> Q s1) ->
  for_stride fuel lo hi 1 body s = Ok s' ->
  Q s' /\ forall i, lo <= i < hi -> exists s0 s1, Q s0 /\ body i s0 = Ok s1.
Proof.
  intros HQ Hpres. revert lo s HQ.
  induction fuel as [|fuel IH]; intros lo s HQ; cbn [for_stride].
  - destruct (Z.ltb_spec lo hi); [discriminate|].
    intros [= <-]. split; [done|]. intros i Hi. lia.
  - destruct (Z.ltb_spec lo hi) as [Hlt|Hge].
    + destruct (body lo s) as [s1| |] eqn:E; cbn [bind]; try discriminate.
      intros H. apply IH in H as [HQ' Hall]; [|by eapply Hpres].
      split; [done|]. intros i Hi.
      destruct (decide (i = lo)) as [->|Hne].
      * by exists s, s1.
      * apply Hall. lia.
    + intros [= <-]. split; [done|]. intros i Hi. lia.
Qed.
End LoopFacts.

Section MatrixFacts.
Context {dcomplex : Type}.
Context (c0 : dcomplex).

(** The element [m(i, j)] of the row-major storage. *)
Definition entry (m : Matrix) (i j : Z) : dcomplex :=
  aget c0 (mdata m) (i * shape2 m + j).

(** A matrix as its constructor allocates it: [n1 * n2] elements. *)
Definition well_shaped (m : @Matrix dcomplex) : Prop :=
  0 <= shape1 m /\ 0 <= shape2 m /\
  Z.of_nat (length (mdata m)) = shape1 m * shape2 m.

(** Two matrices of one shape. *)
Definition same_shape (m m' : @Matrix dcomplex) : Prop :=
  shape1 m' = shape1 m /\ shape2 m' = shape2 m.

Lemma in_bounds_true (m : @Matrix dcomplex) i j :
  in_bounds m i j = true <-> 0 <= i < shape1 m /\ 0 <= j < shape2 m.
Proof.
  unfold in_bounds. rewrite !andb_true_iff, !Z.leb_le, !Z.ltb_lt. lia.
Qed.

Lemma in_bounds_false (m : @Matrix dcomplex) i j :
  in_bounds m i j = false <-> ~ (0 <= i < shape1 m /\ 0 <= j < shape2 m).
Proof.
  rewrite <- in_bounds_true. destruct (in_bounds m i j); split; try done.
Qed.

Lemma in_bounds_same_shape (m m' : @Matrix dcomplex) i j :
  same_shape m m' -> in_bounds m' i j = in_bounds m i j.
Proof. intros [H1 H2]. unfold in_bounds. by rewrite H1, H2. Qed.

Lemma mget_in (m : Matrix) i j :
  0 <= i < shape1 m -> 0 <= j < shape2 m -> mget c0 m i j = Ok (entry m i j).
Proof.
  intros Hi Hj. unfold mget.
  replace (in_bounds m i j) with true; [done|].
  symmetry. by apply in_bounds_true.
Qed.

Lemma mset_in (m : @Matrix dcomplex) i j v :
  0 <= i < shape1 m -> 0 <= j < shape2 m ->
  mset m i j v
  = Ok (mkMatrix (shape1 m) (shape2 m) (aset (mdata m) (i * shape2 m + j) v)).
Proof.
  intros Hi Hj. unfold mset.
  replace (in_bounds m i j) with true; [done|].
  symmetry. by apply in_bounds_true.
Qed.

Lemma mset_out (m : @Matrix dcomplex) i j v :
  ~ (0 <= i < shape1 m /\ 0 <= j < shape2 m) -> mset m i j v = OutOfBounds i j.
Proof.
  intros H. unfold mset. apply in_bounds_false in H. by rewrite H.
Qed.

Lemma mset_Ok (m m' : @Matrix dcomplex) i j v :
  mset m i j v = Ok m' ->
  (0 <= i < shape1 m /\ 0 <= j < shape2 m) /\ same_shape m m'.
Proof.
  unfold mset. destruct (in_bounds m i j) eqn:E; [|discriminate].
  intros [= <-]. apply in_bounds_true in E. done.
Qed.

(** The matrix after [m(i, j) = v]. *)
Definition updated (m : @Matrix dcomplex) (i j : Z) (v : dcomplex) : Matrix :=
  mkMatrix (shape1 m) (shape2 m) (aset (mdata m) (i * shape2 m + j) v).

Lemma well_shaped_updated m i j v : well_shaped m -> well_shaped (updated m i j v).
Proof.
  unfold well_shaped, updated. simpl. rewrite length_aset. done.
Qed.

Lemma same_shape_updated m i j v : same_shape m (updated m i j v).
Proof. done. Qed.

Lemma entry_updated m i j v i' j' :
  well_shaped m ->
  0 <= i < shape1 m -> 0 <= j < shape2 m ->
  0 <= i' < shape1 m -> 0 <= j' < shape2 m ->
  entry (updated m i j v) i' j'
  = if decide (i' = i /\ j' = j) then v else entry m i' j'.
Proof.
  intros (H1 & H2 & Hlen) Hi Hj Hi' Hj'. unfold entry, updated. simpl.
  destruct (decide (i' = i /\ j' = j)) as [[-> ->]|Hne].
  - apply aget_aset_eq. rewrite Hlen.
    assert (i * shape2 m <= (shape1 m - 1) * shape2 m)
      by (apply Z.mul_le_mono_nonneg_r; lia).
    lia.
  - apply aget_aset_ne. intros Heq. apply Hne.
    assert (i' = i) by nia. subst. lia.
Qed.

(** Two well-shaped matrices of one shape with the same elements are the
    same matrix. *)
Lemma matrix_ext (m m' : @Matrix dcomplex) :
  well_shaped m -> well_shaped m' -> same_shape m m' ->
  (forall i j, 0 <= i < shape1 m -> 0 <= j < shape2 m -> entry m' i j = entry m i j) ->
  m' = m.
Proof.
  destruct m as [n1 n2 d], m' as [n1' n2' d'].
  intros (H1 & H2 & Hlen) (H1' & H2' & Hlen') [Hs1 Hs2] Hent. simpl in *. subst.
  f_equal. apply (aget_ext c0); [lia|].
  intros k Hk. rewrite Hlen' in Hk.
  assert (0 < n2) by nia.
  specialize (Hent (k / n2) (k mod n2)). unfold entry in Hent. simpl in Hent.
  pose proof (Z.mod_pos_bound k n2 ltac:(lia)).
  pose proof (Z.div_mod k n2 ltac:(lia)).
  assert (0 <= k / n2 < n1).
  { split; [apply Z.div_pos; lia|]. apply Z.div_lt_upper_bound; lia. }
  replace (k / n2 * n2 + k mod n2) with k in Hent by lia.
  apply Hent; lia.
Qed.
End MatrixFacts.


(** ** Laplace1DMG::transpose

    [1d_multigrid.cxx], [Laplace1DMG::transpose(m_t, m)]: the loops run over
    the shape of the source [m]; the target [m_t] is written through its
    checked element access. *)

Section Transpose.
Context {dcomplex : Type}.
Context (c0 : dcomplex).

Local Abbreviation Mat := (@Matrix dcomplex).

(** [m_t(i1, i2) = m(i2, i1);] *)
Definition transpose_point (m : Mat) (i1 i2 : Z) (m_t : Mat) : result Mat :=
  do v <- mget c0 m i2 i1 ;; mset m_t i1 i2 v.

(** [n1 = std::get<1>(m.shape()); n2 = std::get<0>(m.shape());
    for (i1 < n1) for (i2 < n2) m_t(i1, i2) = m(i2, i1);] *)
Definition transpose (m_t m : Mat) : result Mat :=
  let n1 := shape2 m in
  let n2 := shape1 m in
  for_stride (Z.to_nat n1) 0 n1 1
    (fun i1 m_t => for_stride (Z.to_nat n2) 0 n2 1 (transpose_point m i1) m_t)
    m_t.

(** The target has room for the transpose of the source. *)
Definition fits (m_t m : Mat) : Prop :=
  shape2 m <= shape1 m_t /\ shape1 m <= shape2 m_t.

Lemma transpose_point_in (m s : Mat) i1 i2 :
  0 <= i1 < shape2 m -> 0 <= i2 < shape1 m ->
  transpose_point m i1 i2 s = mset s i1 i2 (entry c0 m i2 i1).
Proof.
  intros H1 H2. unfold transpose_point. rewrite mget_in by done. done.
Qed.

(** One row of the target. *)
Lemma transpose_row (m m_t s : Mat) (i1 : Z) :
  same_shape m_t s -> well_shaped s -> fits m_t m -> 0 <= i1 < shape2 m ->
  exists s',
    for_stride (Z.to_nat (shape1 m)) 0 (shape1 m) 1 (transpose_point m i1) s = Ok s' /\
    same_shape m_t s' /\ well_shaped s' /\
    forall a b, 0 <= a < shape1 m_t -> 0 <= b < shape2 m_t ->
      entry c0 s' a b
      = if decide (a = i1 /\ b < shape1 m) then entry c0 m b i1 else entry c0 s a b.
Proof.
  intros Hss Hws [Hf1 Hf2] Hi1.
  destruct (for_stride_invariant
              (fun i2 s' => same_shape m_t s' /\ well_shaped s' /\
                 forall a b, 0 <= a < shape1 m_t -> 0 <= b < shape2 m_t ->
                   entry c0 s' a b
                   = if decide (a = i1 /\ b < i2) then entry c0 m b i1
                     else entry c0 s a b)
              (fun _ _ => False)
              (transpose_point m i1) (Z.to_nat (shape1 m)) 0 (shape1 m) 1 s)
    as [(i' & s' & Hr & (Hs' & Hw' & He') & Hhi & Hi')|(a & b & _ & [])].
  - lia.
  - lia.
  - split; [done|]. split; [done|]. intros a b Ha Hb.
    destruct (decide _); [lia | done].
  - intros i2 s1 Hi2 (Hs1 & Hw1 & He1). left.
    destruct Hs1 as [Hs11 Hs12].
    rewrite transpose_point_in by lia.
    rewrite mset_in by lia. eexists. split; [done|].
    fold (updated s1 i1 i2 (entry c0 m i2 i1)).
    split; [done|]. split; [by apply well_shaped_updated|].
    intros a b Ha Hb. rewrite entry_updated by (done || lia).
    rewrite He1 by done.
    destruct (decide (a = i1 /\ b = i2)) as [[-> ->]|Hne].
    + destruct (decide _); [done | lia].
    + destruct (decide (a = i1 /\ b < i2 + 1)); destruct (decide (a = i1 /\ b < i2));
        try done; lia.
  - exists s'. split; [done|]. split; [done|]. split; [done|].
    intros a b Ha Hb. rewrite He' by done.
    destruct (decide (a = i1 /\ b < i')); destruct (decide (a = i1 /\ b < shape1 m));
      try done; lia.
Qed.

Lemma transpose_run (m_t m : Mat) :
  well_shaped m_t -> fits m_t m ->
  exists r,
    transpose m_t m = Ok r /\ same_shape m_t r /\ well_shaped r /\
    forall i1 i2, 0 <= i1 < shape1 m_t -> 0 <= i2 < shape2 m_t ->
      entry c0 r i1 i2
      = if decide (i1 < shape2 m /\ i2 < shape1 m) then entry c0 m i2 i1
        else entry c0 m_t i1 i2.
Proof.
  intros Hw Hfit. unfold transpose.
  destruct (for_stride_invariant
              (fun i1 s => same_shape m_t s /\ well_shaped s /\
                 forall a b, 0 <= a < shape1 m_t -> 0 <= b < shape2 m_t ->
                   entry c0 s a b
                   = if decide (a < i1 /\ b < shape1 m) then entry c0 m b a
                     else entry c0 m_t a b)
              (fun _ _ => False)
              (fun i1 m_t => for_stride (Z.to_nat (shape1 m)) 0 (shape1 m) 1
                               (transpose_point m i1) m_t)
              (Z.to_nat (shape2 m)) 0 (shape2 m) 1 m_t)
    as [(i' & s' & Hr & (Hs' & Hw' & He') & Hhi & Hi')|(a & b & _ & [])].
  - lia.
  - lia.
  - split; [done|]. split; [done|]. intros a b Ha Hb.
    destruct (decide _); [lia | done].
  - intros i1 s Hi1 (Hs & Hws & He). left.
    destruct (transpose_row m m_t s i1 Hs Hws Hfit Hi1) as (s' & -> & Hs' & Hw' & He').
    exists s'. split; [done|]. split; [done|]. split; [done|].
    intros a b Ha Hb. rewrite He', He by done.
    destruct (decide (a = i1 /\ b < shape1 m)) as [[? ?]|?];
      destruct (decide (a < i1 + 1 /\ b < shape1 m));
      destruct (decide (a < i1 /\ b < shape1 m)); try done; try lia.
    by subst.
  - exists s'. split; [done|]. split; [done|]. split; [done|].
    intros a b Ha Hb. rewrite He' by done.
    destruct (decide (a < i' /\ b < shape1 m));
      destruct (decide (a < shape2 m /\ b < shape1 m)); try done; lia.
Qed.

(** [transpose] into a target that has room.  The call completes, the
    target keeps its shape, [m_t(i1, i2) = m(i2, i1)] for every element of
    the source, and the cells of a larger target that lie outside the
    transposed shape are left alone. *)
Theorem transpose_entries (m_t m : Mat) :
  well_shaped m_t -> fits m_t m ->
  exists r,
    transpose m_t m = Ok r /\ same_shape m_t r /\
    (forall i1 i2, 0 <= i1 < shape2 m -> 0 <= i2 < shape1 m ->
       entry c0 r i1 i2 = entry c0 m i2 i1) /\
    (forall i1 i2, 0 <= i1 < shape1 m_t -> 0 <= i2 < shape2 m_t ->
       ~ (i1 < shape2 m /\ i2 < shape1 m) ->
       entry c0 r i1 i2 = entry c0 m_t i1 i2).
Proof.
  intros Hw Hfit.
  destruct (transpose_run m_t m Hw Hfit) as (r & Hr & Hs & _ & He).
  exists r. split; [done|]. split; [done|]. destruct Hfit as [Hf1 Hf2]. split.
  - intros i1 i2 H1 H2. rewrite He by lia. destruct (decide _); [done | lia].
  - intros i1 i2 H1 H2 Hout. rewrite He by lia. destruct (decide _); [done | done].
Qed.

(** Transposing twice gives the matrix back: with a target of exactly the
    transposed shape, [transpose(m_t, m)] followed by [transpose(m', m_t)]
    into any matrix [m'] of the shape of [m] leaves [m' = m]. *)
Theorem transpose_twice (m m_t m' : Mat) :
  well_shaped m -> well_shaped m_t -> well_shaped m' ->
  shape1 m_t = shape2 m -> shape2 m_t = shape1 m ->
  same_shape m m' ->
  exists r, transpose m_t m = Ok r /\ transpose m' r = Ok m.
Proof.
  intros Hw Hwt Hw' Hs1 Hs2 [Hm1 Hm2].
  destruct (transpose_run m_t m Hwt) as (r & Hr & [Hr1 Hr2] & Hwr & He).
  { unfold fits. lia. }
  exists r. split; [done|].
  destruct (transpose_run m' r Hw') as (r' & Hr' & [Hr1' Hr2'] & Hwr' & He').
  { unfold fits. lia. }
  rewrite Hr'. f_equal. apply (matrix_ext c0); try done.
  { split; lia. }
  intros i j Hi Hj. rewrite He' by lia.
  destruct (decide _) as [_|Hd]; [|lia].
  rewrite He by lia. destruct (decide _) as [_|Hd]; [done | lia].
Qed.

(** [transpose] into a target that is too small.  With a non-empty source
    and a target that has fewer rows than the source has columns, or fewer
    columns than the source has rows, the call does not complete: it stops
    at an element access outside the target. *)
Theorem transpose_too_small_faults (m_t m : Mat) :
  0 < shape1 m -> 0 < shape2 m -> ~ fits m_t m ->
  exists a b, transpose m_t m = OutOfBounds a b /\ in_bounds m_t a b = false.
Proof.
  intros Hn2 Hn1 Hnofit.
  assert (Hpoint : forall i1 i2 s, 0 <= i1 < shape2 m -> 0 <= i2 < shape1 m ->
            same_shape m_t s ->
            (exists s', transpose_point m i1 i2 s = Ok s' /\ same_shape m_t s') \/
            (exists a b, transpose_point m i1 i2 s = OutOfBounds a b
                         /\ in_bounds m_t a b = false)).
  { intros i1 i2 s H1 H2 Hs. rewrite transpose_point_in by done.
    destruct (in_bounds s i1 i2) eqn:E.
    - left. apply in_bounds_true in E as [E1 E2]. rewrite mset_in by done.
      eexists. split; [done|]. destruct Hs. done.
    - right. exists i1, i2. split.
      + apply mset_out. by apply in_bounds_false.
      + by rewrite <- (in_bounds_same_shape m_t s). }
  assert (Hrow : forall i1 s, 0 <= i1 < shape2 m -> same_shape m_t s ->
            (exists s', for_stride (Z.to_nat (shape1 m)) 0 (shape1 m) 1
                          (transpose_point m i1) s = Ok s' /\ same_shape m_t s') \/
            (exists a b, for_stride (Z.to_nat (shape1 m)) 0 (shape1 m) 1
                           (transpose_point m i1) s = OutOfBounds a b
                         /\ in_bounds m_t a b = false)).
  { intros i1 s Hi1 Hs.
    destruct (for_stride_invariant (fun _ s' => same_shape m_t s')
                (fun a b => in_bounds m_t a b = false)
                (transpose_point m i1) (Z.to_nat (shape1 m)) 0 (shape1 m) 1 s)
      as [(i' & s' & Hr & Hs' & _)|Hfault];
      [lia | lia | done | intros i2 s1 Hi2 Hs1; by apply Hpoint | | by right].
    left. by exists s'. }
  unfold transpose.
  destruct (for_stride_invariant (fun _ s' => same_shape m_t s')
              (fun a b => in_bounds m_t a b = false)
              (fun i1 m_t => for_stride (Z.to_nat (shape1 m)) 0 (shape1 m) 1
                               (transpose_point m i1) m_t)
              (Z.to_nat (shape2 m)) 0 (shape2 m) 1 m_t)
    as [(i' & s' & Hr & Hs' & _)|Hfault];
    [lia | lia | done | intros i1 s Hi1 Hs; by apply Hrow | | done].
  (* a run to the end has written the last element of the transposed shape *)
  exfalso. apply Hnofit.
  apply (for_stride_completed (fun s => same_shape m_t s)) in Hr as [_ Hall].
  - destruct (Hall (shape2 m - 1)) as (s0 & s1 & Hs0 & Hinner); [lia|].
    apply (for_stride_completed (fun s => same_shape m_t s)) in Hinner as [_ Hall'].
    + destruct (Hall' (shape1 m - 1)) as (s2 & s3 & Hs2 & Hp); [lia|].
      rewrite transpose_point_in in Hp by lia.
      apply mset_Ok in Hp as [[Hb1 Hb2] _]. destruct Hs2 as [E1 E2].
      unfold fits. lia.
    + done.
    + intros i s s4 Hs Hp. unfold transpose_point in Hp.
      destruct (mget c0 m i (shape2 m - 1)); try discriminate. cbn [bind] in Hp.
      apply mset_Ok in Hp as [_ [E1 E2]]. destruct Hs as [E3 E4].
      split; congruence.
  - done.
  - intros i s s4 Hs Hinner.
    apply (for_stride_completed (fun s => same_shape m_t s)) in Hinner as [Hq _];
      [done | done |].
    intros i2 s5 s6 Hs5 Hp. unfold transpose_point in Hp.
    destruct (mget c0 m i2 i); try discriminate. cbn [bind] in Hp.
    apply mset_Ok in Hp as [_ [E1 E2]]. destruct Hs5 as [E3 E4].
    split; congruence.
Qed.
End Transpose.


(** ** LaplaceParallelTri, third version: the tail of [solve]

    [parallel_tri.cxx], third version of [LaplaceParallelTri::solve(b, x0)]:
    the guard cells of the periodic branch, the halo values recovered after
    the loop of the new method, and the removal of the mean for
    [INVERT_KX_ZERO]. *)

Section PeriodicGuardCells.
Context {dcomplex : Type}.
Context (c0 : dcomplex).

Local Notation "a [@ i ]" := (aget c0 a i) (at level 1, i at level 200, format "a [@ i ]").

(** "Copy boundary regions":
    [for (int ix = 0; ix < xs; ix++) {
       xk1d[ix] = xk1d[ncx - 2 * xs + ix];
       xk1d[ncx - xs + ix] = xk1d[xs + ix]; }] *)
Definition copy_boundary_regions (xs ncx : Z) (xk1d : list dcomplex) : list dcomplex :=
  for_range 0 xs
    (fun ix xk1d =>
       let xk1d := aset xk1d ix (xk1d[@ncx - 2 * xs + ix]) in
       aset xk1d (ncx - xs + ix) (xk1d[@xs + ix]))
    xk1d.

Lemma copy_boundary_regions_cells (xs ncx : Z) (xk1d : list dcomplex) :
  Z.of_nat (length xk1d) = ncx -> 0 <= xs -> 3 * xs <= ncx ->
  let x' := copy_boundary_regions xs ncx xk1d in
  length x' = length xk1d /\
  forall j, x'[@j] =
    if decide (0 <= j < xs) then xk1d[@ncx - 2 * xs + j]
    else if decide (ncx - xs <= j < ncx) then xk1d[@j - (ncx - 2 * xs)]
    else xk1d[@j].
Proof.
  intros Hlen Hxs Hwide. unfold copy_boundary_regions.
  pose proof (for_range_invariant
    (fun k (x' : list dcomplex) =>
       length x' = length xk1d /\
       forall j, x'[@j] =
         if decide (0 <= j < k) then xk1d[@ncx - 2 * xs + j]
         else if decide (ncx - xs <= j < ncx - xs + k) then xk1d[@j - (ncx - 2 * xs)]
         else xk1d[@j])
    (fun ix xk1d =>
       let xk1d := aset xk1d ix (xk1d[@ncx - 2 * xs + ix]) in
       aset xk1d (ncx - xs + ix) (xk1d[@xs + ix]))
    0 xs xk1d Hxs) as Hinv.
  cbv beta in Hinv. destruct Hinv as [Hl Hc].
  - split; [done|]. intros j.
    destruct (decide (0 <= j < 0)); [lia|]. destruct (decide _); [lia | done].
  - intros k x [Hk1 Hk2] [Hlx Hcx]. cbv zeta. rewrite !length_aset. split; [done|].
    intros j.
    destruct (decide (j = ncx - xs + k)) as [->|Hne1].
    + rewrite aget_aset_eq by (rewrite length_aset; lia).
      rewrite aget_aset_ne by lia. rewrite Hcx.
      repeat (destruct (decide _); try lia). f_equal. lia.
    + rewrite aget_aset_ne by lia.
      destruct (decide (j = k)) as [->|Hne2].
      * rewrite aget_aset_eq by lia. rewrite Hcx.
        repeat (destruct (decide _); try lia). done.
      * rewrite aget_aset_ne by lia. rewrite Hcx.
        repeat (destruct (decide _); try lia); done.
  - split; [done|]. intros j. rewrite Hc.
    repeat (destruct (decide _); try lia); done.
Qed.

(** The periodic branch leaves a periodic array.  With at least [xs]
    interior points ([ncx >= 3 * xs]) the copy of the boundary regions
    leaves the interior cells alone and fills the [2 * xs] guard cells so
    that [xk1d[i] = xk1d[i + (ncx - 2 * xs)]] wherever both cells exist:
    the array is periodic with the number of interior points as period. *)
Theorem boundary_regions_periodic (xs ncx : Z) (xk1d : list dcomplex) :
  Z.of_nat (length xk1d) = ncx -> 0 <= xs -> 3 * xs <= ncx ->
  let x' := copy_boundary_regions xs ncx xk1d in
  length x' = length xk1d /\
  (forall i, xs <= i < ncx - xs -> x'[@i] = xk1d[@i]) /\
  (forall i, 0 <= i < 2 * xs -> x'[@i] = x'[@i + (ncx - 2 * xs)]).
Proof.
  intros Hlen Hxs Hwide x'.
  destruct (copy_boundary_regions_cells xs ncx xk1d Hlen Hxs Hwide) as [Hl Hc].
  fold x' in Hl, Hc. split; [done|]. split.
  - intros i Hi. rewrite Hc. repeat (destruct (decide _); try lia); done.
  - intros i Hi. rewrite !Hc.
    repeat (destruct (decide _); try lia); f_equal; lia.
Qed.
End PeriodicGuardCells.

(** Two guard cells on either side of four interior points. *)
Lemma boundary_regions_periodic_witness :
  copy_boundary_regions 0 2 8 [0; 0; 1; 2; 3; 4; 0; 0] = [3; 4; 1; 2; 3; 4; 1; 2].
Proof.
  destruct (boundary_regions_periodic 0 2 8 [0; 0; 1; 2; 3; 4; 0; 0]) as (_ & _ & _).
  - reflexivity.
  - lia.
  - lia.
  - reflexivity.
Defined.

Section ExactTail.
Context {dcomplex : Type}.
Context (c0 c1 : dcomplex) (cadd cmul csub : dcomplex -> dcomplex -> dcomplex)
        (copp : dcomplex -> dcomplex) (cdiv : dcomplex -> dcomplex -> dcomplex)
        (cinv : dcomplex -> dcomplex).
Context (dcomplex_field : field_theory c0 c1 cadd cmul csub copp cdiv cinv eq).

Add Field dcomplex_fld : dcomplex_field.

Local Notation "x +c y" := (cadd x y) (at level 50, left associativity).
Local Notation "x -c y" := (csub x y) (at level 50, left associativity).
Local Notation "x *c y" := (cmul x y) (at level 40, left associativity).
Local Notation "x /c y" := (cdiv x y) (at level 40, left associativity).
Local Notation "a [@ i ]" := (aget c0 a i) (at level 1, i at level 200, format "a [@ i ]").

(** The block [if (new_method) { ... }] after the loop: the halo values of
    [xk1dlast] are recovered from its edge values and the coefficients of
    the original method. *)
Definition recover_halo (firstX lastX : bool)
    (alold auold blold buold rlold ruold : dcomplex) (xs xe : Z)
    (xk1dlast : list dcomplex) : list dcomplex :=
  let d := c1 /c (buold *c alold -c blold *c auold) in
  if negb firstX && negb lastX then
    let xk1dlast :=
      aset xk1dlast (xs - 1)
        (d *c (buold *c (xk1dlast[@xs] -c rlold) -c blold *c (xk1dlast[@xe] -c ruold))) in
    aset xk1dlast (xe + 1)
      (copp d *c (auold *c (xk1dlast[@xs] -c rlold) -c alold *c (xk1dlast[@xe] -c ruold)))
  else if firstX && negb lastX then
    aset xk1dlast (xe + 1) ((xk1dlast[@xe] -c ruold) /c buold)
  else if lastX && negb firstX then
    aset xk1dlast (xs - 1) ((xk1dlast[@xs] -c rlold) /c alold)
  else xk1dlast.

(** The halo values recovered by the new method satisfy the interface
    equations of the original method, in exact arithmetic.  On an interior
    rank with [bu * al - bl * au <> 0] both equations
    [x[xs] = rl + al * x[xs-1] + bl * x[xe+1]] and
    [x[xe] = ru + au * x[xs-1] + bu * x[xe+1]] hold afterwards; on the first
    rank (with [bu <> 0]) the upper one without its [au] term, on the last
    rank (with [al <> 0]) the lower one without its [bl] term.  The cells
    [xs .. xe] are not written. *)
Theorem recovered_halo_solves_interface_equations
    (firstX lastX : bool) (alold auold blold buold rlold ruold : dcomplex)
    (xs xe : Z) (xk1dlast : list dcomplex) :
  1 <= xs <= xe -> xe + 1 < Z.of_nat (length xk1dlast) ->
  let x' := recover_halo firstX lastX alold auold blold buold rlold ruold xs xe xk1dlast in
  (forall i, xs <= i <= xe -> x'[@i] = xk1dlast[@i]) /\
  (firstX = false -> lastX = false ->
   buold *c alold -c blold *c auold <> c0 ->
   x'[@xs] = rlold +c alold *c x'[@xs - 1] +c blold *c x'[@xe + 1] /\
   x'[@xe] = ruold +c auold *c x'[@xs - 1] +c buold *c x'[@xe + 1]) /\
  (firstX = true -> lastX = false -> buold <> c0 ->
   x'[@xe] = ruold +c buold *c x'[@xe + 1] /\ x'[@xs - 1] = xk1dlast[@xs - 1]) /\
  (firstX = false -> lastX = true -> alold <> c0 ->
   x'[@xs] = rlold +c alold *c x'[@xs - 1] /\ x'[@xe + 1] = xk1dlast[@xe + 1]).
Proof.
  intros Hx Hlen x'. subst x'. unfold recover_halo.
  split; [|split; [|split]].
  - intros i Hi. destruct firstX, lastX; cbn [negb andb];
      rewrite ?aget_aset_ne by lia; done.
  - intros -> -> Hdet. cbn [negb andb].
    repeat first [rewrite aget_aset_ne by lia
                 | rewrite aget_aset_eq by (rewrite ?length_aset; lia)].
    split; field; done.
  - intros -> -> Hbu. cbn [negb andb].
    repeat first [rewrite aget_aset_ne by lia
                 | rewrite aget_aset_eq by (rewrite ?length_aset; lia)].
    split; [field; done | done].
  - intros -> -> Hal. cbn [negb andb].
    repeat first [rewrite aget_aset_ne by lia
                 | rewrite aget_aset_eq by (rewrite ?length_aset; lia)].
    split; [field; done | done].
Qed.
End ExactTail.

Section MeanRemoval.
Context {dcomplex : Type}.
Context (c0 c1 : dcomplex) (cadd cmul csub : dcomplex -> dcomplex -> dcomplex)
        (copp : dcomplex -> dcomplex) (cdiv : dcomplex -> dcomplex -> dcomplex)
        (cinv : dcomplex -> dcomplex).
Context (dcomplex_field : field_theory c0 c1 cadd cmul csub copp cdiv cinv eq).

Add Field dcomplex_fld_mean : dcomplex_field.

Local Notation "x +c y" := (cadd x y) (at level 50, left associativity).
Local Notation "x -c y" := (csub x y) (at level 50, left associativity).
Local Notation "x *c y" := (cmul x y) (at level 40, left associativity).
Local Notation "x /c y" := (cdiv x y) (at level 40, left associativity).
Local Notation "a [@ i ]" := (aget c0 a i) (at level 1, i at level 200, format "a [@ i ]").

(** [static_cast<BoutReal>(n)] as a scalar: the integer [n] in the field. *)
Definition real_of_int (n : Z) : dcomplex := gen_phiZ c0 c1 cadd cmul copp n.

(** [dcomplex offset(0.0);
    for (int ix = xstart; ix <= xend; ix++) offset += xk1d[ix];] *)
Definition interior_sum (xstart xend : Z) (xk1d : list dcomplex) : dcomplex :=
  for_range xstart (xend + 1) (fun ix offset => offset +c xk1d[@ix]) c0.

(** "If the global flag is set to INVERT_KX_ZERO": the block guarded by
    [(global_flags & INVERT_KX_ZERO) && (kz == 0)]. *)
Definition subtract_mean (invert_kx_zero : bool) (kz xstart xend : Z)
    (xk1d : list dcomplex) : list dcomplex :=
  if invert_kx_zero && (kz =? 0) then
    let offset := interior_sum xstart xend xk1d in
    let offset := offset /c real_of_int (xend - xstart + 1) in
    for_range xstart (xend + 1) (cellwise c0 (fun _ x => x -c offset)) xk1d
  else xk1d.

Lemma real_of_int_succ (n : Z) : real_of_int (n + 1) = real_of_int n +c c1.
Proof.
  unfold real_of_int.
  rewrite (gen_phiZ_add (Eqsth dcomplex) (Eq_ext cadd cmul copp) (F_R dcomplex_field)).
  done.
Qed.

Lemma sum_loop_acc (x : list dcomplex) (fuel : nat) (lo : Z) (a : dcomplex) :
  for_loop fuel lo (fun ix offset => offset +c x[@ix]) a
  = a +c for_loop fuel lo (fun ix offset => offset +c x[@ix]) c0.
Proof.
  revert lo a. induction fuel as [|fuel IH]; intros lo a; cbn [for_loop].
  - ring.
  - rewrite (IH _ (a +c x[@lo])), (IH _ (c0 +c x[@lo])). ring.
Qed.

Lemma sum_loop_shift (x x' : list dcomplex) (m : dcomplex) (fuel : nat) (lo : Z) :
  (forall i, lo <= i < lo + Z.of_nat fuel -> x'[@i] = x[@i] -c m) ->
  for_loop fuel lo (fun ix offset => offset +c x'[@ix]) c0
  = for_loop fuel lo (fun ix offset => offset +c x[@ix]) c0
    -c real_of_int (Z.of_nat fuel) *c m.
Proof.
  revert lo. induction fuel as [|fuel IH]; intros lo Hx; cbn [for_loop].
  - change (real_of_int (Z.of_nat 0)) with c0. ring.
  - rewrite (sum_loop_acc x'), (sum_loop_acc x), IH by (intros i Hi; apply Hx; lia).
    rewrite Hx by lia.
    replace (Z.of_nat (Datatypes.S fuel)) with (Z.of_nat fuel + 1) by lia.
    rewrite real_of_int_succ. ring.
Qed.

(** [INVERT_KX_ZERO] removes the mean of the [kz = 0] mode over the rank's
    interior points, in exact arithmetic: with the flag set and [kz = 0],
    the values [xk1d[xstart .. xend]] sum to zero afterwards, every one of
    them has been reduced by the same amount, and the guard cells are not
    touched.  For any other mode, or without the flag, the array is left as
    it is. *)
Theorem kx_zero_mode_has_zero_mean
    (invert_kx_zero : bool) (kz xstart xend : Z) (xk1d : list dcomplex) :
  0 <= xstart <= xend -> xend < Z.of_nat (length xk1d) ->
  real_of_int (xend - xstart + 1) <> c0 ->
  let x' := subtract_mean invert_kx_zero kz xstart xend xk1d in
  length x' = length xk1d /\
  (forall i, ~ (xstart <= i <= xend) -> x'[@i] = xk1d[@i]) /\
  (invert_kx_zero = true -> kz = 0 ->
   interior_sum xstart xend x' = c0 /\
   forall i j, xstart <= i <= xend -> xstart <= j <= xend ->
     x'[@i] -c x'[@j] = xk1d[@i] -c xk1d[@j]) /\
  (invert_kx_zero = false \/ kz <> 0 -> x' = xk1d).
Proof.
  intros Hx Hlen Hn x'. subst x'. unfold subtract_mean.
  set (m := interior_sum xstart xend xk1d /c real_of_int (xend - xstart + 1)).
  assert (Hcell : forall i, xstart <= i <= xend ->
            (for_range xstart (xend + 1) (cellwise c0 (fun _ x => x -c m)) xk1d)[@i]
            = xk1d[@i] -c m).
  { intros i Hi. rewrite aget_for_range_cellwise.
    destruct (decide _); [done | lia]. }
  split; [|split; [|split]].
  - destruct (_ && _); [|done]. apply length_for_range_cellwise.
  - intros i Hi. destruct (_ && _); [|done].
    rewrite aget_for_range_cellwise. destruct (decide _); [lia | done].
  - intros -> ->. cbn [andb Z.eqb]. split.
    + unfold interior_sum at 1. unfold for_range.
      rewrite (sum_loop_shift xk1d _ m) by (intros i Hi; apply Hcell; lia).
      replace (Z.of_nat (Z.to_nat (xend + 1 - xstart))) with (xend - xstart + 1) by lia.
      fold (for_range xstart (xend + 1) (fun ix offset => offset +c xk1d[@ix]) c0).
      fold (interior_sum xstart xend xk1d).
      subst m. field. done.
    + intros i j Hi Hj. rewrite !Hcell by done. ring.
  - intros [-> | Hkz]; [done|].
    destruct (Z.eqb_spec kz 0); [done|]. by rewrite andb_false_r.
Qed.
End MeanRemoval.


(** ** LaplacePCR: the boundary rows

    [pcr.cxx], [LaplacePCR::eliminate_boundary_rows] and
    [LaplacePCR::apply_boundary_conditions], called by [cr_pcr_solver]
    before and after the reduction.  The matrices hold one system per row:
    [a(kz, ix)] is the sub-diagonal coefficient of row [ix] of system
    [kz]. *)

Section LoopsDown.
Context {S : Type}.

(** [for (int i = hi; i >= lo; i--) body] *)
Fixpoint for_down (fuel : nat) (i lo : Z) (body : Z -> S -> result S) (s : S)
    : result S :=
  if lo <=? i then
    match fuel with
    | O => Timeout
    | Datatypes.S fuel' => do s' <- body i s ;; for_down fuel' (i - 1) lo body s'
    end
  else Ok s.

Lemma for_down_invariant (P : Z -> S -> Prop) (body : Z -> S -> result S)
    (fuel : nat) (i lo : Z) (s : S) :
  i - lo < Z.of_nat fuel -> P i s ->
  (forall j s, lo <= j <= i -> P j s -> exists s', body j s = Ok s' /\ P (j - 1) s') ->
  exists s', for_down fuel i lo body s = Ok s' /\ P (Z.min i (lo - 1)) s'.
Proof.
  revert i s. induction fuel as [|fuel IH]; intros i s Hfuel H0 Hbody; cbn [for_down].
  - destruct (Z.leb_spec lo i); [lia|].
    exists s. split; [done|]. by replace (Z.min i (lo - 1)) with i by lia.
  - destruct (Z.leb_spec lo i) as [Hle|Hgt].
    + destruct (Hbody i s ltac:(lia) H0) as (s' & -> & HP). cbn [bind].
      destruct (IH (i - 1) s') as (s'' & Hr & HP'); [lia | done | |].
      { intros j s0 Hj. apply Hbody. lia. }
      exists s''. split; [done|].
      by replace (Z.min i (lo - 1)) with (Z.min (i - 1) (lo - 1)) by lia.
    + exists s. split; [done|]. by replace (Z.min i (lo - 1)) with i by lia.
Qed.

(** A counted loop whose body never faults. *)
Lemma for_stride_ok (P : Z -> S -> Prop) (body : Z -> S -> result S) (lo hi : Z) (s : S) :
  P lo s ->
  (forall i s, lo <= i < hi -> P i s -> exists s', body i s = Ok s' /\ P (i + 1) s') ->
  exists s', for_stride (Z.to_nat (hi - lo)) lo hi 1 body s = Ok s' /\ P (Z.max lo hi) s'.
Proof.
  intros H0 Hbody.
  destruct (for_stride_invariant P (fun _ _ => False) body (Z.to_nat (hi - lo)) lo hi 1 s)
    as [(i' & s' & Hr & HP & Hhi & Hi')|(a & b & _ & [])]; [lia | lia | done | |].
  - intros i s0 Hi HP. left. by apply Hbody.
  - exists s'. split; [done|]. by replace (Z.max lo hi) with i' by lia.
Qed.
End LoopsDown.

Section MatrixUpdates.
Context {dcomplex : Type}.
Context (c0 : dcomplex).

Lemma mset_updated (m : @Matrix dcomplex) i j v :
  0 <= i < shape1 m -> 0 <= j < shape2 m -> mset m i j v = Ok (updated m i j v).
Proof. apply mset_in. Qed.

Lemma entry_updated_same (m : @Matrix dcomplex) i j v :
  well_shaped m -> 0 <= i < shape1 m -> 0 <= j < shape2 m ->
  entry c0 (updated m i j v) i j = v.
Proof.
  intros Hw Hi Hj. rewrite entry_updated by done.
  destruct (decide _) as [_|Hd]; [done|]. exfalso. by apply Hd.
Qed.

Lemma entry_updated_other (m : @Matrix dcomplex) i j v i' j' :
  well_shaped m -> 0 <= i < shape1 m -> 0 <= j < shape2 m ->
  0 <= i' < shape1 m -> 0 <= j' < shape2 m -> i' <> i \/ j' <> j ->
  entry c0 (updated m i j v) i' j' = entry c0 m i' j'.
Proof.
  intros Hw Hi Hj Hi' Hj' Hne. rewrite entry_updated by done.
  destruct (decide _) as [[? ?]|_]; [lia | done].
Qed.

(** A matrix of the given shape, as allocated. *)
Definition shaped (n1 n2 : Z) (m : @Matrix dcomplex) : Prop :=
  shape1 m = n1 /\ shape2 m = n2 /\ Z.of_nat (length (mdata m)) = n1 * n2.

Lemma shaped_well_shaped n1 n2 m : 0 <= n1 -> 0 <= n2 -> shaped n1 n2 m -> well_shaped m.
Proof. intros H1 H2 (E1 & E2 & E3). unfold well_shaped. rewrite E1, E2. done. Qed.

Lemma shaped_updated n1 n2 m i j v : shaped n1 n2 m -> shaped n1 n2 (updated m i j v).
Proof. unfold shaped, updated. simpl. by rewrite length_aset. Qed.
End MatrixUpdates.

Section PCRBoundaryRows.
Context {dcomplex : Type}.
Context (c0 c1 : dcomplex) (cadd cmul csub : dcomplex -> dcomplex -> dcomplex)
        (copp : dcomplex -> dcomplex) (cdiv : dcomplex -> dcomplex -> dcomplex)
        (cinv : dcomplex -> dcomplex).
Context (dcomplex_field : field_theory c0 c1 cadd cmul csub copp cdiv cinv eq).

Add Field dcomplex_fld_pcr : dcomplex_field.

Local Notation "x +c y" := (cadd x y) (at level 50, left associativity).
Local Notation "x -c y" := (csub x y) (at level 50, left associativity).
Local Notation "x *c y" := (cmul x y) (at level 40, left associativity).
Local Notation "x /c y" := (cdiv x y) (at level 40, left associativity).
Local Notation "m [[ i , j ]]" := (entry c0 m i j)
  (at level 1, i at level 200, j at level 200, format "m [[ i ,  j ]]").

Local Abbreviation Mat := (@Matrix dcomplex).

(** [b(kz,xstart) = b(kz,xstart) - c(kz,xstart-1) * a(kz,xstart) / b(kz,xstart-1);
    r(kz,xstart) = r(kz,xstart) - r(kz,xstart-1) * a(kz,xstart) / b(kz,xstart-1);] *)
Definition eliminate_lower_row (a c : Mat) (xstart kz : Z) (br : Mat * Mat)
    : result (Mat * Mat) :=
  let '(b, r) := br in
  do b_i <- mget c0 b kz xstart ;;
  do c_m <- mget c0 c kz (xstart - 1) ;;
  do a_i <- mget c0 a kz xstart ;;
  do b_m <- mget c0 b kz (xstart - 1) ;;
  do b <- mset b kz xstart (b_i -c c_m *c a_i /c b_m) ;;
  do r_i <- mget c0 r kz xstart ;;
  do r_m <- mget c0 r kz (xstart - 1) ;;
  do a_i <- mget c0 a kz xstart ;;
  do b_m <- mget c0 b kz (xstart - 1) ;;
  do r <- mset r kz xstart (r_i -c r_m *c a_i /c b_m) ;;
  Ok (b, r).

(** [b(kz,xind) = b(kz,xind) - c(kz,xind) * a(kz,xind+1) / b(kz,xind+1);
    r(kz,xind) = r(kz,xind) - c(kz,xind) * r(kz,xind+1) / b(kz,xind+1);] *)
Definition eliminate_upper_row (a c : Mat) (xind kz : Z) (br : Mat * Mat)
    : result (Mat * Mat) :=
  let '(b, r) := br in
  do b_i <- mget c0 b kz xind ;;
  do c_i <- mget c0 c kz xind ;;
  do a_p <- mget c0 a kz (xind + 1) ;;
  do b_p <- mget c0 b kz (xind + 1) ;;
  do b <- mset b kz xind (b_i -c c_i *c a_p /c b_p) ;;
  do r_i <- mget c0 r kz xind ;;
  do c_i <- mget c0 c kz xind ;;
  do r_p <- mget c0 r kz (xind + 1) ;;
  do b_p <- mget c0 b kz (xind + 1) ;;
  do r <- mset r kz xind (r_i -c c_i *c r_p /c b_p) ;;
  Ok (b, r).

(** [eliminate_boundary_rows(a, b, c, r)]: [b] and [r] are updated in
    place; [firstX], [lastX] and [xstart] come from the mesh, [xs], [xe] and
    [nsys] are members of the solver. *)
Definition eliminate_boundary_rows (firstX lastX : bool) (xstart xs xe nsys : Z)
    (a b c r : Mat) : result (Mat * Mat) :=
  do br <- (if firstX
            then for_stride (Z.to_nat nsys) 0 nsys 1 (eliminate_lower_row a c xstart) (b, r)
            else Ok (b, r)) ;;
  if lastX then
    let n := xe - xs + 1 in
    let xind := n - xstart - 1 in
    for_stride (Z.to_nat nsys) 0 nsys 1 (eliminate_upper_row a c xind) br
  else Ok br.

(** [x(kz,ix) = (r(kz,ix) - c(kz,ix) * x(kz,ix+1)) / b(kz,ix);] *)
Definition apply_lower_row (b c r : Mat) (kz ix : Z) (x : Mat) : result Mat :=
  do r_i <- mget c0 r kz ix ;;
  do c_i <- mget c0 c kz ix ;;
  do x_p <- mget c0 x kz (ix + 1) ;;
  do b_i <- mget c0 b kz ix ;;
  mset x kz ix ((r_i -c c_i *c x_p) /c b_i).

(** [x(kz,ix) = (r(kz,ix) - a(kz,ix) * x(kz,ix-1)) / b(kz,ix);] *)
Definition apply_upper_row (a b r : Mat) (kz ix : Z) (x : Mat) : result Mat :=
  do r_i <- mget c0 r kz ix ;;
  do a_i <- mget c0 a kz ix ;;
  do x_m <- mget c0 x kz (ix - 1) ;;
  do b_i <- mget c0 b kz ix ;;
  mset x kz ix ((r_i -c a_i *c x_m) /c b_i).

(** [apply_boundary_conditions(a, b, c, r, x)]: on the first rank
    [for (ix = xstart-1; ix >= 0; ix--)], on the last rank
    [for (ix = n - xstart; ix < n; ix++)] with [n = xe - xs + 1]. *)
Definition apply_boundary_conditions (firstX lastX : bool) (xstart xs xe nsys : Z)
    (a b c r : Mat) (x : Mat) : result Mat :=
  do x <- (if firstX
           then for_stride (Z.to_nat nsys) 0 nsys 1
                  (fun kz x => for_down (Z.to_nat xstart) (xstart - 1) 0
                                 (apply_lower_row b c r kz) x) x
           else Ok x) ;;
  if lastX then
    let n := xe - xs + 1 in
    for_stride (Z.to_nat nsys) 0 nsys 1
      (fun kz x => for_stride (Z.to_nat xstart) (n - xstart) n 1
                     (apply_upper_row a b r kz) x) x
  else Ok x.

(** Row [ix] of system [kz] with its two-term boundary form. *)
Definition lower_boundary_row (b c r x : Mat) (kz ix : Z) : Prop :=
  b[[kz, ix]] *c x[[kz, ix]] +c c[[kz, ix]] *c x[[kz, ix + 1]] = r[[kz, ix]].

Definition upper_boundary_row (a b r x : Mat) (kz ix : Z) : Prop :=
  a[[kz, ix]] *c x[[kz, ix - 1]] +c b[[kz, ix]] *c x[[kz, ix]] = r[[kz, ix]].

Section Shapes.
Context (nsys n xstart : Z).
Context (Hnsys : 0 <= nsys) (Hxstart : 1 <= xstart) (Hwide : 2 * xstart < n).

Local Ltac shapes :=
  repeat match goal with
         | H : shaped _ _ _ |- _ => destruct H as (? & ? & ?)
         end;
  cbn [updated shape1 shape2] in *; lia.

Local Ltac mrun :=
  repeat (first [rewrite (mget_in c0) by shapes
                | rewrite mset_updated by shapes];
          cbn [bind]).

Lemma apply_lower_rows_one (b c r x : Mat) (kz : Z) :
  shaped nsys n b -> shaped nsys n c -> shaped nsys n r -> shaped nsys n x ->
  0 <= kz < nsys ->
  (forall ix, 0 <= ix < xstart -> b[[kz, ix]] <> c0) ->
  exists x',
    for_down (Z.to_nat xstart) (xstart - 1) 0 (apply_lower_row b c r kz) x = Ok x' /\
    shaped nsys n x' /\
    (forall kz' ix, 0 <= kz' < nsys -> 0 <= ix < n ->
       ~ (kz' = kz /\ ix < xstart) -> x'[[kz', ix]] = x[[kz', ix]]) /\
    (forall ix, 0 <= ix < xstart -> lower_boundary_row b c r x' kz ix).
Proof.
  intros Hb Hc Hr Hx Hkz Hpiv.
  destruct (for_down_invariant
              (fun j (x' : Mat) =>
                 shaped nsys n x' /\
                 (forall kz' ix, 0 <= kz' < nsys -> 0 <= ix < n ->
                    ~ (kz' = kz /\ j < ix < xstart) -> x'[[kz', ix]] = x[[kz', ix]]) /\
                 (forall ix, j < ix < xstart -> lower_boundary_row b c r x' kz ix))
              (apply_lower_row b c r kz) (Z.to_nat xstart) (xstart - 1) 0 x)
    as (x' & Hrun & Hs' & Hfr & Hrows).
  - lia.
  - split; [done|]. split; [done|]. intros ix Hix. lia.
  - intros j x1 Hj (Hs1 & Hfr1 & Hrows1).
    assert (Hw1 : well_shaped x1) by (eapply shaped_well_shaped; [| |exact Hs1]; lia).
    unfold apply_lower_row. mrun. eexists. split; [done|].
    split; [by apply shaped_updated|]. split.
    + intros kz' ix Hkz' Hix Hout.
      rewrite entry_updated_other by first [done | shapes].
      apply Hfr1; try done. lia.
    + intros ix Hix. unfold lower_boundary_row.
      destruct (decide (ix = j)) as [->|Hne].
      * rewrite entry_updated_same by first [done | shapes].
        rewrite entry_updated_other by first [done | shapes].
        field. apply Hpiv. lia.
      * rewrite !entry_updated_other by first [done | shapes].
        apply Hrows1. lia.
  - replace (Z.min (xstart - 1) (0 - 1)) with (-1) in * by lia.
    exists x'. split; [done|]. split; [done|]. split.
    + intros kz' ix Hkz' Hix Hout. apply Hfr; try done. lia.
    + intros ix Hix. apply Hrows. lia.
Qed.

Lemma apply_lower_rows_all (b c r x : Mat) :
  shaped nsys n b -> shaped nsys n c -> shaped nsys n r -> shaped nsys n x ->
  (forall kz ix, 0 <= kz < nsys -> 0 <= ix < xstart -> b[[kz, ix]] <> c0) ->
  exists x',
    for_stride (Z.to_nat nsys) 0 nsys 1
      (fun kz x => for_down (Z.to_nat xstart) (xstart - 1) 0
                     (apply_lower_row b c r kz) x) x = Ok x' /\
    shaped nsys n x' /\
    (forall kz ix, 0 <= kz < nsys -> xstart <= ix < n -> x'[[kz, ix]] = x[[kz, ix]]) /\
    (forall kz ix, 0 <= kz < nsys -> 0 <= ix < xstart ->
       lower_boundary_row b c r x' kz ix).
Proof.
  intros Hb Hc Hr Hx Hpiv.
  destruct (for_stride_ok
              (fun k (x' : Mat) =>
                 shaped nsys n x' /\
                 (forall kz ix, 0 <= kz < nsys -> 0 <= ix < n ->
                    ~ (kz < k /\ ix < xstart) -> x'[[kz, ix]] = x[[kz, ix]]) /\
                 (forall kz ix, 0 <= kz < k -> 0 <= ix < xstart ->
                    lower_boundary_row b c r x' kz ix))
              (fun kz x => for_down (Z.to_nat xstart) (xstart - 1) 0
                             (apply_lower_row b c r kz) x) 0 nsys x)
    as (x' & Hrun & Hs' & Hfr & Hrows).
  - split; [done|]. split; [done|]. intros kz ix Hkz. lia.
  - intros k x1 Hk (Hs1 & Hfr1 & Hrows1).
    destruct (apply_lower_rows_one b c r x1 k Hb Hc Hr Hs1 Hk)
      as (x2 & Hrun2 & Hs2 & Hfr2 & Hrows2).
    { intros ix Hix. apply Hpiv; lia. }
    exists x2. split; [done|]. split; [done|]. split.
    + intros kz ix Hkz Hix Hout. rewrite Hfr2 by (done || lia).
      apply Hfr1; try done. lia.
    + intros kz ix Hkz Hix.
      destruct (decide (kz = k)) as [->|Hne]; [by apply Hrows2|].
      unfold lower_boundary_row.
      rewrite !Hfr2 by (done || lia). apply Hrows1; lia.
  - replace (Z.to_nat (nsys - 0)) with (Z.to_nat nsys) in Hrun by lia.
    replace (Z.max 0 nsys) with nsys in * by lia.
    exists x'. split; [done|]. split; [done|]. split.
    + intros kz ix Hkz Hix. apply Hfr; try done; lia.
    + done.
Qed.

Lemma apply_upper_rows_one (a b r x : Mat) (kz : Z) :
  shaped nsys n a -> shaped nsys n b -> shaped nsys n r -> shaped nsys n x ->
  0 <= kz < nsys ->
  (forall ix, n - xstart <= ix < n -> b[[kz, ix]] <> c0) ->
  exists x',
    for_stride (Z.to_nat xstart) (n - xstart) n 1 (apply_upper_row a b r kz) x = Ok x' /\
    shaped nsys n x' /\
    (forall kz' ix, 0 <= kz' < nsys -> 0 <= ix < n ->
       ~ (kz' = kz /\ n - xstart <= ix) -> x'[[kz', ix]] = x[[kz', ix]]) /\
    (forall ix, n - xstart <= ix < n -> upper_boundary_row a b r x' kz ix).
Proof.
  intros Ha Hb Hr Hx Hkz Hpiv.
  destruct (for_stride_ok
              (fun j (x' : Mat) =>
                 shaped nsys n x' /\
                 (forall kz' ix, 0 <= kz' < nsys -> 0 <= ix < n ->
                    ~ (kz' = kz /\ n - xstart <= ix < j) -> x'[[kz', ix]] = x[[kz', ix]]) /\
                 (forall ix, n - xstart <= ix < j -> upper_boundary_row a b r x' kz ix))
              (apply_upper_row a b r kz) (n - xstart) n x)
    as (x' & Hrun & Hs' & Hfr & Hrows).
  - split; [done|]. split; [done|]. intros ix Hix. lia.
  - intros j x1 Hj (Hs1 & Hfr1 & Hrows1).
    assert (Hw1 : well_shaped x1) by (eapply shaped_well_shaped; [| |exact Hs1]; lia).
    unfold apply_upper_row. mrun. eexists. split; [done|].
    split; [by apply shaped_updated|]. split.
    + intros kz' ix Hkz' Hix Hout.
      rewrite entry_updated_other by first [done | shapes].
      apply Hfr1; try done. lia.
    + intros ix Hix. unfold upper_boundary_row.
      destruct (decide (ix = j)) as [->|Hne].
      * rewrite entry_updated_same by first [done | shapes].
        rewrite entry_updated_other by first [done | shapes].
        field. apply Hpiv. lia.
      * rewrite !entry_updated_other by first [done | shapes].
        apply Hrows1. lia.
  - replace (Z.to_nat (n - (n - xstart))) with (Z.to_nat xstart) in Hrun by lia.
    replace (Z.max (n - xstart) n) with n in * by lia.
    exists x'. split; [done|]. split; [done|]. split.
    + intros kz' ix Hkz' Hix Hout. apply Hfr; try done. lia.
    + done.
Qed.

Lemma apply_upper_rows_all (a b r x : Mat) :
  shaped nsys n a -> shaped nsys n b -> shaped nsys n r -> shaped nsys n x ->
  (forall kz ix, 0 <= kz < nsys -> n - xstart <= ix < n -> b[[kz, ix]] <> c0) ->
  exists x',
    for_stride (Z.to_nat nsys) 0 nsys 1
      (fun kz x => for_stride (Z.to_nat xstart) (n - xstart) n 1
                     (apply_upper_row a b r kz) x) x = Ok x' /\
    shaped nsys n x' /\
    (forall kz ix, 0 <= kz < nsys -> 0 <= ix < n - xstart -> x'[[kz, ix]] = x[[kz, ix]]) /\
    (forall kz ix, 0 <= kz < nsys -> n - xstart <= ix < n ->
       upper_boundary_row a b r x' kz ix).
Proof.
  intros Ha Hb Hr Hx Hpiv.
  destruct (for_stride_ok
              (fun k (x' : Mat) =>
                 shaped nsys n x' /\
                 (forall kz ix, 0 <= kz < nsys -> 0 <= ix < n ->
                    ~ (kz < k /\ n - xstart <= ix) -> x'[[kz, ix]] = x[[kz, ix]]) /\
                 (forall kz ix, 0 <= kz < k -> n - xstart <= ix < n ->
                    upper_boundary_row a b r x' kz ix))
              (fun kz x => for_stride (Z.to_nat xstart) (n - xstart) n 1
                             (apply_upper_row a b r kz) x) 0 nsys x)
    as (x' & Hrun & Hs' & Hfr & Hrows).
  - split; [done|]. split; [done|]. intros kz ix Hkz. lia.
  - intros k x1 Hk (Hs1 & Hfr1 & Hrows1).
    destruct (apply_upper_rows_one a b r x1 k Ha Hb Hr Hs1 Hk)
      as (x2 & Hrun2 & Hs2 & Hfr2 & Hrows2).
    { intros ix Hix. apply Hpiv; lia. }
    exists x2. split; [done|]. split; [done|]. split.
    + intros kz ix Hkz Hix Hout. rewrite Hfr2 by (done || lia).
      apply Hfr1; try done. lia.
    + intros kz ix Hkz Hix.
      destruct (decide (kz = k)) as [->|Hne]; [by apply Hrows2|].
      unfold upper_boundary_row.
      rewrite !Hfr2 by (done || lia). apply Hrows1; lia.
  - replace (Z.to_nat (nsys - 0)) with (Z.to_nat nsys) in Hrun by lia.
    replace (Z.max 0 nsys) with nsys in * by lia.
    exists x'. split; [done|]. split; [done|]. split.
    + intros kz ix Hkz Hix. apply Hfr; try done; lia.
    + done.
Qed.

Lemma apply_boundary_conditions_run (firstX lastX : bool) (xs xe : Z) (a b c r x : Mat) :
  n = xe - xs + 1 ->
  shaped nsys n a -> shaped nsys n b -> shaped nsys n c -> shaped nsys n r ->
  shaped nsys n x ->
  (firstX = true -> forall kz ix, 0 <= kz < nsys -> 0 <= ix < xstart -> b[[kz, ix]] <> c0) ->
  (lastX = true ->
   forall kz ix, 0 <= kz < nsys -> n - xstart <= ix < n -> b[[kz, ix]] <> c0) ->
  exists x',
    apply_boundary_conditions firstX lastX xstart xs xe nsys a b c r x = Ok x' /\
    shaped nsys n x' /\
    (forall kz ix, 0 <= kz < nsys ->
       (if firstX then xstart else 0) <= ix < (if lastX then n - xstart else n) ->
       x'[[kz, ix]] = x[[kz, ix]]) /\
    (firstX = true -> forall kz ix, 0 <= kz < nsys -> 0 <= ix < xstart ->
       lower_boundary_row b c r x' kz ix) /\
    (lastX = true -> forall kz ix, 0 <= kz < nsys -> n - xstart <= ix < n ->
       upper_boundary_row a b r x' kz ix).
Proof.
  intros Hn Ha Hb Hc Hr Hx Hpl Hpu. unfold apply_boundary_conditions. rewrite <- Hn.
  assert (Hlow : exists x1,
            (if firstX
             then for_stride (Z.to_nat nsys) 0 nsys 1
                    (fun kz x => for_down (Z.to_nat xstart) (xstart - 1) 0
                                   (apply_lower_row b c r kz) x) x
             else Ok x) = Ok x1 /\
            shaped nsys n x1 /\
            (forall kz ix, 0 <= kz < nsys -> (if firstX then xstart else 0) <= ix < n ->
               x1[[kz, ix]] = x[[kz, ix]]) /\
            (firstX = true -> forall kz ix, 0 <= kz < nsys -> 0 <= ix < xstart ->
               lower_boundary_row b c r x1 kz ix)).
  { destruct firstX.
    - destruct (apply_lower_rows_all b c r x Hb Hc Hr Hx (Hpl eq_refl))
        as (x1 & Hrun & Hs1 & Hfr1 & Hrows1).
      exists x1. done.
    - exists x. done. }
  destruct Hlow as (x1 & -> & Hs1 & Hfr1 & Hrows1). cbn [bind].
  destruct lastX.
  - destruct (apply_upper_rows_all a b r x1 Ha Hb Hr Hs1 (Hpu eq_refl))
      as (x2 & Hrun & Hs2 & Hfr2 & Hrows2).
    exists x2. split; [done|]. split; [done|]. split; [|split].
    + intros kz ix Hkz Hix. rewrite Hfr2 by (destruct firstX; lia).
      apply Hfr1; destruct firstX; lia.
    + intros Hf kz ix Hkz Hix. unfold lower_boundary_row.
      rewrite !Hfr2 by lia. by apply Hrows1.
    + intros _. done.
  - exists x1. split; [done|]. split; [done|]. split; [|split]; done.
Qed.

(** [apply_boundary_conditions] fills the boundary cells so that the
    boundary rows hold, in exact arithmetic.  With non-zero diagonal
    entries in the boundary rows, the call completes; on the first rank
    every row [ix < xstart] satisfies
    [b(kz,ix) x(kz,ix) + c(kz,ix) x(kz,ix+1) = r(kz,ix)] afterwards, on the
    last rank every row [ix >= n - xstart] satisfies
    [a(kz,ix) x(kz,ix-1) + b(kz,ix) x(kz,ix) = r(kz,ix)]; the cells between
    the boundaries keep their values, and on a rank that is neither first
    nor last nothing is written. *)
Theorem boundary_rows_hold_after_apply_boundary_conditions
    (firstX lastX : bool) (xs xe : Z) (a b c r x : Mat) :
  n = xe - xs + 1 ->
  shaped nsys n a -> shaped nsys n b -> shaped nsys n c -> shaped nsys n r ->
  shaped nsys n x ->
  (firstX = true -> forall kz ix, 0 <= kz < nsys -> 0 <= ix < xstart -> b[[kz, ix]] <> c0) ->
  (lastX = true ->
   forall kz ix, 0 <= kz < nsys -> n - xstart <= ix < n -> b[[kz, ix]] <> c0) ->
  exists x',
    apply_boundary_conditions firstX lastX xstart xs xe nsys a b c r x = Ok x' /\
    (forall kz ix, 0 <= kz < nsys ->
       (if firstX then xstart else 0) <= ix < (if lastX then n - xstart else n) ->
       x'[[kz, ix]] = x[[kz, ix]]) /\
    (firstX = true -> forall kz ix, 0 <= kz < nsys -> 0 <= ix < xstart ->
       b[[kz, ix]] *c x'[[kz, ix]] +c c[[kz, ix]] *c x'[[kz, ix + 1]] = r[[kz, ix]]) /\
    (lastX = true -> forall kz ix, 0 <= kz < nsys -> n - xstart <= ix < n ->
       a[[kz, ix]] *c x'[[kz, ix - 1]] +c b[[kz, ix]] *c x'[[kz, ix]] = r[[kz, ix]]) /\
    (firstX = false -> lastX = false -> x' = x).
Proof.
  intros Hn Ha Hb Hc Hr Hx Hpl Hpu.
  destruct (apply_boundary_conditions_run firstX lastX xs xe a b c r x
              Hn Ha Hb Hc Hr Hx Hpl Hpu) as (x' & Hrun & _ & Hfr & Hlow & Hup).
  exists x'. split; [done|]. split; [done|]. split; [done|]. split; [done|].
  intros -> ->. unfold apply_boundary_conditions in Hrun. cbn [bind] in Hrun.
  congruence.
Qed.

Lemma eliminate_lower_rows (a b c r : Mat) :
  shaped nsys n a -> shaped nsys n b -> shaped nsys n c -> shaped nsys n r ->
  exists b' r',
    for_stride (Z.to_nat nsys) 0 nsys 1 (eliminate_lower_row a c xstart) (b, r)
    = Ok (b', r') /\
    shaped nsys n b' /\ shaped nsys n r' /\
    forall kz ix, 0 <= kz < nsys -> 0 <= ix < n ->
      b'[[kz, ix]]
      = (if decide (ix = xstart)
         then b[[kz, xstart]] -c c[[kz, xstart - 1]] *c a[[kz, xstart]] /c b[[kz, xstart - 1]]
         else b[[kz, ix]]) /\
      r'[[kz, ix]]
      = (if decide (ix = xstart)
         then r[[kz, xstart]] -c r[[kz, xstart - 1]] *c a[[kz, xstart]] /c b[[kz, xstart - 1]]
         else r[[kz, ix]]).
Proof.
  intros Ha Hb Hc Hr.
  destruct (for_stride_ok
              (fun k (br : Mat * Mat) =>
                 shaped nsys n (fst br) /\ shaped nsys n (snd br) /\
                 forall kz ix, 0 <= kz < nsys -> 0 <= ix < n ->
                   (fst br)[[kz, ix]]
                   = (if decide (kz < k /\ ix = xstart)
                      then b[[kz, xstart]]
                           -c c[[kz, xstart - 1]] *c a[[kz, xstart]] /c b[[kz, xstart - 1]]
                      else b[[kz, ix]]) /\
                   (snd br)[[kz, ix]]
                   = (if decide (kz < k /\ ix = xstart)
                      then r[[kz, xstart]]
                           -c r[[kz, xstart - 1]] *c a[[kz, xstart]] /c b[[kz, xstart - 1]]
                      else r[[kz, ix]]))
              (eliminate_lower_row a c xstart) 0 nsys (b, r))
    as ([b' r'] & Hrun & Hsb & Hsr & Hent).
  - split; [done|]. split; [done|]. intros kz ix Hkz Hix. cbn [fst snd].
    destruct (decide _); [lia | done].
  - intros k [b1 r1] Hk (Hsb & Hsr & Hent). cbn [fst snd] in *.
    assert (Hwb : well_shaped b1) by (eapply shaped_well_shaped; [| |exact Hsb]; lia).
    assert (Hwr : well_shaped r1) by (eapply shaped_well_shaped; [| |exact Hsr]; lia).
    unfold eliminate_lower_row. mrun. eexists. split; [done|]. cbn [fst snd].
    split; [by apply shaped_updated|]. split; [by apply shaped_updated|].
    intros kz ix Hkz Hix.
    destruct (decide (kz = k /\ ix = xstart)) as [ [-> ->]|Hne].
    + rewrite !entry_updated_same by first [done | shapes].
      rewrite !entry_updated_other by first [done | shapes].
      destruct (Hent k xstart ltac:(lia) ltac:(lia)) as [-> ->].
      destruct (Hent k (xstart - 1) ltac:(lia) ltac:(lia)) as [-> ->].
      repeat (destruct (decide _); try lia). done.
    + rewrite !entry_updated_other by first [done | shapes | lia].
      destruct (Hent kz ix ltac:(lia) ltac:(lia)) as [-> ->].
      repeat (destruct (decide _); try lia); done.
  - replace (Z.to_nat (nsys - 0)) with (Z.to_nat nsys) in Hrun by lia.
    replace (Z.max 0 nsys) with nsys in * by lia. cbn [fst snd] in *.
    exists b', r'. split; [done|]. split; [done|]. split; [done|].
    intros kz ix Hkz Hix. destruct (Hent kz ix Hkz Hix) as [-> ->].
    repeat (destruct (decide _); try lia); done.
Qed.

Lemma eliminate_upper_rows (a b c r : Mat) :
  shaped nsys n a -> shaped nsys n b -> shaped nsys n c -> shaped nsys n r ->
  let xind := n - xstart - 1 in
  exists b' r',
    for_stride (Z.to_nat nsys) 0 nsys 1 (eliminate_upper_row a c xind) (b, r)
    = Ok (b', r') /\
    shaped nsys n b' /\ shaped nsys n r' /\
    forall kz ix, 0 <= kz < nsys -> 0 <= ix < n ->
      b'[[kz, ix]]
      = (if decide (ix = xind)
         then b[[kz, xind]] -c c[[kz, xind]] *c a[[kz, xind + 1]] /c b[[kz, xind + 1]]
         else b[[kz, ix]]) /\
      r'[[kz, ix]]
      = (if decide (ix = xind)
         then r[[kz, xind]] -c c[[kz, xind]] *c r[[kz, xind + 1]] /c b[[kz, xind + 1]]
         else r[[kz, ix]]).
Proof.
  intros Ha Hb Hc Hr xind.
  destruct (for_stride_ok
              (fun k (br : Mat * Mat) =>
                 shaped nsys n (fst br) /\ shaped nsys n (snd br) /\
                 forall kz ix, 0 <= kz < nsys -> 0 <= ix < n ->
                   (fst br)[[kz, ix]]
                   = (if decide (kz < k /\ ix = xind)
                      then b[[kz, xind]]
                           -c c[[kz, xind]] *c a[[kz, xind + 1]] /c b[[kz, xind + 1]]
                      else b[[kz, ix]]) /\
                   (snd br)[[kz, ix]]
                   = (if decide (kz < k /\ ix = xind)
                      then r[[kz, xind]]
                           -c c[[kz, xind]] *c r[[kz, xind + 1]] /c b[[kz, xind + 1]]
                      else r[[kz, ix]]))
              (eliminate_upper_row a c xind) 0 nsys (b, r))
    as ([b' r'] & Hrun & Hsb & Hsr & Hent).
  - split; [done|]. split; [done|]. intros kz ix Hkz Hix. cbn [fst snd].
    destruct (decide _); [lia | done].
  - intros k [b1 r1] Hk (Hsb & Hsr & Hent). cbn [fst snd] in *.
    assert (Hwb : well_shaped b1) by (eapply shaped_well_shaped; [| |exact Hsb]; lia).
    assert (Hwr : well_shaped r1) by (eapply shaped_well_shaped; [| |exact Hsr]; lia).
    assert (Hxind : 0 <= xind /\ xind + 1 < n) by (subst xind; lia).
    unfold eliminate_upper_row. mrun. eexists. split; [done|]. cbn [fst snd].
    split; [by apply shaped_updated|]. split; [by apply shaped_updated|].
    intros kz ix Hkz Hix.
    destruct (decide (kz = k /\ ix = xind)) as [ [-> ->]|Hne].
    + rewrite !entry_updated_same by first [done | shapes].
      rewrite !entry_updated_other by first [done | shapes].
      destruct (Hent k xind ltac:(lia) ltac:(lia)) as [-> ->].
      destruct (Hent k (xind + 1) ltac:(lia) ltac:(lia)) as [-> ->].
      repeat (destruct (decide _); try lia). done.
    + rewrite !entry_updated_other by first [done | shapes | lia].
      destruct (Hent kz ix ltac:(lia) ltac:(lia)) as [-> ->].
      repeat (destruct (decide _); try lia); done.
  - replace (Z.to_nat (nsys - 0)) with (Z.to_nat nsys) in Hrun by lia.
    replace (Z.max 0 nsys) with nsys in * by lia. cbn [fst snd] in *.
    exists b', r'. split; [done|]. split; [done|]. split; [done|].
    intros kz ix Hkz Hix. destruct (Hent kz ix Hkz Hix) as [-> ->].
    repeat (destruct (decide _); try lia); done.
Qed.

(** The treatment of the boundary rows is exact.  On a rank of a solver
    that was constructed (so not both first and last in x),
    [eliminate_boundary_rows] completes and changes only [b] and [r] in
    the interior row next to the boundary ([xstart] on the first rank,
    [xind = n - xstart - 1] on the last).  Take any [x]: after
    [apply_boundary_conditions] with the updated [b] and [r], whenever the
    eliminated row holds for [x] (with [t] standing for its coupling to the
    neighbouring interior row), the original three-term row of the system
    holds for the completed [x]. *)
Theorem boundary_elimination_is_exact
    (firstX lastX : bool) (xs xe : Z) (a b c r : Mat) :
  n = xe - xs + 1 ->
  firstX && lastX = false ->
  shaped nsys n a -> shaped nsys n b -> shaped nsys n c -> shaped nsys n r ->
  (firstX = true -> forall kz ix, 0 <= kz < nsys -> 0 <= ix < xstart -> b[[kz, ix]] <> c0) ->
  (lastX = true ->
   forall kz ix, 0 <= kz < nsys -> n - xstart <= ix < n -> b[[kz, ix]] <> c0) ->
  let xind := n - xstart - 1 in
  exists b' r',
    eliminate_boundary_rows firstX lastX xstart xs xe nsys a b c r = Ok (b', r') /\
    (forall kz ix, 0 <= kz < nsys -> 0 <= ix < n ->
       ~ (firstX = true /\ ix = xstart) -> ~ (lastX = true /\ ix = xind) ->
       b'[[kz, ix]] = b[[kz, ix]] /\ r'[[kz, ix]] = r[[kz, ix]]) /\
    forall x, shaped nsys n x ->
      exists x',
        apply_boundary_conditions firstX lastX xstart xs xe nsys a b' c r' x = Ok x' /\
        forall kz t, 0 <= kz < nsys ->
          (firstX = true ->
           b'[[kz, xstart]] *c x[[kz, xstart]] +c t = r'[[kz, xstart]] ->
           a[[kz, xstart]] *c x'[[kz, xstart - 1]] +c b[[kz, xstart]] *c x'[[kz, xstart]] +c t
           = r[[kz, xstart]]) /\
          (lastX = true ->
           t +c b'[[kz, xind]] *c x[[kz, xind]] = r'[[kz, xind]] ->
           t +c b[[kz, xind]] *c x'[[kz, xind]] +c c[[kz, xind]] *c x'[[kz, xind + 1]]
           = r[[kz, xind]]).
Proof.
  intros Hn Hnot Ha Hb Hc Hr Hpl Hpu xind.
  assert (Helim : exists b' r',
            eliminate_boundary_rows firstX lastX xstart xs xe nsys a b c r = Ok (b', r') /\
            shaped nsys n b' /\ shaped nsys n r' /\
            forall kz ix, 0 <= kz < nsys -> 0 <= ix < n ->
              b'[[kz, ix]]
              = (if decide (firstX = true /\ ix = xstart)
                 then b[[kz, xstart]]
                      -c c[[kz, xstart - 1]] *c a[[kz, xstart]] /c b[[kz, xstart - 1]]
                 else if decide (lastX = true /\ ix = xind)
                 then b[[kz, xind]] -c c[[kz, xind]] *c a[[kz, xind + 1]] /c b[[kz, xind + 1]]
                 else b[[kz, ix]]) /\
              r'[[kz, ix]]
              = (if decide (firstX = true /\ ix = xstart)
                 then r[[kz, xstart]]
                      -c r[[kz, xstart - 1]] *c a[[kz, xstart]] /c b[[kz, xstart - 1]]
                 else if decide (lastX = true /\ ix = xind)
                 then r[[kz, xind]] -c c[[kz, xind]] *c r[[kz, xind + 1]] /c b[[kz, xind + 1]]
                 else r[[kz, ix]])).
  { unfold eliminate_boundary_rows. rewrite <- Hn. fold xind.
    destruct firstX, lastX; try discriminate.
    - destruct (eliminate_lower_rows a b c r Ha Hb Hc Hr)
        as (b' & r' & -> & Hsb & Hsr & Hent).
      cbn [bind]. exists b', r'. split; [done|]. split; [done|]. split; [done|].
      intros kz ix Hkz Hix. destruct (Hent kz ix Hkz Hix) as [-> ->].
      repeat (destruct (decide _); try lia; try tauto); intuition congruence.
    - cbn [bind].
      destruct (eliminate_upper_rows a b c r Ha Hb Hc Hr)
        as (b' & r' & Hrun & Hsb & Hsr & Hent).
      fold xind in Hrun, Hent. rewrite Hrun.
      exists b', r'. split; [done|]. split; [done|]. split; [done|].
      intros kz ix Hkz Hix. destruct (Hent kz ix Hkz Hix) as [-> ->].
      repeat (destruct (decide _); try lia; try tauto); intuition congruence.
    - cbn [bind]. exists b, r. split; [done|]. split; [done|]. split; [done|].
      intros kz ix Hkz Hix.
      repeat (destruct (decide _); try lia; try tauto); intuition congruence. }
  destruct Helim as (b' & r' & Hrun & Hsb & Hsr & Hent).
  exists b', r'. split; [done|]. split.
  { intros kz ix Hkz Hix H1 H2. destruct (Hent kz ix Hkz Hix) as [-> ->].
    repeat (destruct (decide _); try tauto). }
  intros x Hx.
  assert (Hxind : xstart <= xind /\ xind + 1 < n /\ xind + 1 = n - xstart)
    by (subst xind; lia).
  destruct (apply_boundary_conditions_run firstX lastX xs xe a b' c r' x
              Hn Ha Hsb Hc Hsr Hx) as (x' & Hrunx & _ & Hfr & Hlow & Hup).
  { intros Hf kz ix Hkz Hix. destruct (Hent kz ix ltac:(lia) ltac:(lia)) as [-> _].
    destruct (decide (firstX = true /\ ix = xstart)); [lia|].
    destruct (decide (lastX = true /\ ix = xind)); [lia|]. by apply Hpl. }
  { intros Hl kz ix Hkz Hix. destruct (Hent kz ix ltac:(lia) ltac:(lia)) as [-> _].
    destruct (decide (firstX = true /\ ix = xstart)); [lia|].
    destruct (decide (lastX = true /\ ix = xind)); [lia|]. by apply Hpu. }
  exists x'. split; [done|].
  intros kz t Hkz. split.
  - intros Hf Hrow. subst firstX. simpl in Hnot. subst lastX.
    specialize (Hlow eq_refl kz (xstart - 1) Hkz ltac:(lia)).
    unfold lower_boundary_row in Hlow.
    replace (xstart - 1 + 1) with xstart in Hlow by lia.
    rewrite (Hfr kz xstart) in * by lia.
    destruct (Hent kz xstart ltac:(lia) ltac:(lia)) as [Eb Er].
    destruct (Hent kz (xstart - 1) ltac:(lia) ltac:(lia)) as [Ebm Erm].
    destruct (decide (true = true /\ xstart = xstart)) as [_|Hd]; [|tauto].
    destruct (decide (true = true /\ xstart - 1 = xstart)); [lia|].
    destruct (decide (false = true /\ xstart - 1 = xind)) as [ [? ?]|_]; [done|].
    rewrite Eb, Er in Hrow. rewrite Ebm, Erm in Hlow.
    assert (Hp : b[[kz, xstart - 1]] <> c0) by (apply Hpl; [done | lia | lia]).
    assert (Hxm : x'[[kz, xstart - 1]]
                  = (r[[kz, xstart - 1]] -c c[[kz, xstart - 1]] *c x[[kz, xstart]])
                    /c b[[kz, xstart - 1]]).
    { rewrite <- Hlow. field. done. }
    rewrite Hxm.
    transitivity ((b[[kz, xstart]]
                   -c c[[kz, xstart - 1]] *c a[[kz, xstart]] /c b[[kz, xstart - 1]])
                  *c x[[kz, xstart]] +c t
                  +c r[[kz, xstart - 1]] *c a[[kz, xstart]] /c b[[kz, xstart - 1]]).
    { field. done. }
    rewrite Hrow. field. done.
  - intros Hl Hrow. subst lastX. rewrite andb_true_r in Hnot. subst firstX.
    destruct Hxind as (Hx1 & Hx2 & Hx3).
    specialize (Hup eq_refl kz (xind + 1) Hkz ltac:(lia)).
    unfold upper_boundary_row in Hup.
    replace (xind + 1 - 1) with xind in Hup by lia.
    rewrite (Hfr kz xind) in * by lia.
    destruct (Hent kz xind ltac:(lia) ltac:(lia)) as [Eb Er].
    destruct (Hent kz (xind + 1) ltac:(lia) ltac:(lia)) as [Ebp Erp].
    destruct (decide (false = true /\ xind = xstart)) as [ [? ?]|_]; [done|].
    destruct (decide (true = true /\ xind = xind)) as [_|Hd]; [|tauto].
    destruct (decide (false = true /\ xind + 1 = xstart)) as [ [? ?]|_]; [done|].
    destruct (decide (true = true /\ xind + 1 = xind)); [lia|].
    rewrite Eb, Er in Hrow. rewrite Ebp, Erp in Hup.
    assert (Hp : b[[kz, xind + 1]] <> c0) by (apply Hpu; [done | done | lia]).
    assert (Hxp : x'[[kz, xind + 1]]
                  = (r[[kz, xind + 1]] -c a[[kz, xind + 1]] *c x[[kz, xind]])
                    /c b[[kz, xind + 1]]).
    { rewrite <- Hup. field. done. }
    rewrite Hxp.
    transitivity (t +c (b[[kz, xind]]
                        -c c[[kz, xind]] *c a[[kz, xind + 1]] /c b[[kz, xind + 1]])
                       *c x[[kz, xind]]
                  +c c[[kz, xind]] *c r[[kz, xind + 1]] /c b[[kz, xind + 1]]).
    { field. done. }
    rewrite Hrow. field. done.
Qed.
End Shapes.
End PCRBoundaryRows.


(** ** Concrete runs of the routines above *)

(** A 2 x 3 matrix into a 3 x 2 target. *)
Lemma transpose_entries_witness :
  exists r, transpose 0 (mkMatrix 3 2 [0; 0; 0; 0; 0; 0]) (mkMatrix 2 3 [1; 2; 3; 4; 5; 6])
            = Ok r.
Proof.
  destruct (transpose_entries 0 (mkMatrix 3 2 [0; 0; 0; 0; 0; 0])
              (mkMatrix 2 3 [1; 2; 3; 4; 5; 6])) as (r & Hr & _).
  - unfold well_shaped. simpl. lia.
  - unfold fits. simpl. lia.
  - exists r. exact Hr.
Defined.

(** There and back. *)
Lemma transpose_twice_witness :
  exists r,
    transpose 0 (mkMatrix 3 2 [0; 0; 0; 0; 0; 0]) (mkMatrix 2 3 [1; 2; 3; 4; 5; 6]) = Ok r /\
    transpose 0 (mkMatrix 2 3 [9; 9; 9; 9; 9; 9]) r = Ok (mkMatrix 2 3 [1; 2; 3; 4; 5; 6]).
Proof.
  apply (transpose_twice 0 (mkMatrix 2 3 [1; 2; 3; 4; 5; 6])
           (mkMatrix 3 2 [0; 0; 0; 0; 0; 0]) (mkMatrix 2 3 [9; 9; 9; 9; 9; 9])).
  - unfold well_shaped. simpl. lia.
  - unfold well_shaped. simpl. lia.
  - unfold well_shaped. simpl. lia.
  - reflexivity.
  - reflexivity.
  - unfold same_shape. simpl. lia.
Defined.

(** [transpose(bcmplx, bk)] as [solve] calls it, with [ncx = 2],
    [ncz / 2 + 1 = 3] and [nmode = 2]: the target has two rows, the source
    three columns. *)
Lemma transpose_too_small_faults_witness :
  exists a b,
    transpose 0 (mkMatrix 2 2 [0; 0; 0; 0]) (mkMatrix 2 3 [1; 2; 3; 4; 5; 6])
    = OutOfBounds a b.
Proof.
  destruct (transpose_too_small_faults 0 (mkMatrix 2 2 [0; 0; 0; 0])
              (mkMatrix 2 3 [1; 2; 3; 4; 5; 6])) as (a & b & H & _).
  - simpl. lia.
  - simpl. lia.
  - unfold fits. simpl. lia.
  - exists a, b. exact H.
Defined.

(** Exact arithmetic on the rationals. *)
Module Rational.
Definition Qc : Type := Qcanon.Qc.
Definition q (n : Z) : Qc := Qcanon.Q2Qc (QArith_base.inject_Z n).
Definition field := Qcanon.Qcft.

Lemma neq (x y : Qc) :
  QArith_base.Qeq_bool (Qcanon.this x) (Qcanon.this y) = false -> x <> y.
Proof. intros H ->. by rewrite QArith_base.Qeq_bool_refl in H. Qed.

(** Entries that are not zero. *)
Definition nonzero (x : Qc) : bool :=
  negb (QArith_base.Qeq_bool (Qcanon.this x) (Qcanon.this (q 0))).

Lemma nonzero_neq (x : Qc) : nonzero x = true -> x <> q 0.
Proof.
  unfold nonzero. intros H. apply neq. by apply negb_true_iff.
Qed.
End Rational.

(** An interior rank with [al = 2], [au = bl = bu = 1] and edge values
    [3] and [2]. *)
Lemma recovered_halo_solves_interface_equations_witness :
  let q := Rational.q in
  let x' := recover_halo (q 0) (q 1) Qcanon.Qcmult Qcanon.Qcminus Qcanon.Qcopp
              Qcanon.Qcdiv false false (q 2) (q 1) (q 1) (q 1) (q 0) (q 0) 1 2
              [q 0; q 3; q 2; q 0] in
  aget (q 0) x' 1
  = Qcanon.Qcplus (Qcanon.Qcplus (q 0) (Qcanon.Qcmult (q 2) (aget (q 0) x' 0)))
      (Qcanon.Qcmult (q 1) (aget (q 0) x' 3)).
Proof.
  intros q x'.
  destruct (recovered_halo_solves_interface_equations _ _ _ _ _ _ _ _ Rational.field
              false false (q 2) (q 1) (q 1) (q 1) (q 0) (q 0) 1 2
              [q 0; q 3; q 2; q 0]) as (_ & H & _).
  - lia.
  - simpl. lia.
  - destruct H as [H _]; [reflexivity | reflexivity | |exact H].
    apply Rational.neq. vm_compute. reflexivity.
Defined.

(** Three interior points with the values 1, 2 and 6. *)
Lemma kx_zero_mode_has_zero_mean_witness :
  let q := Rational.q in
  interior_sum (q 0) Qcanon.Qcplus 1 3
    (subtract_mean (q 0) (q 1) Qcanon.Qcplus Qcanon.Qcmult Qcanon.Qcminus Qcanon.Qcopp
       Qcanon.Qcdiv true 0 1 3 [q 9; q 1; q 2; q 6; q 9])
  = q 0.
Proof.
  intros q.
  destruct (kx_zero_mode_has_zero_mean _ _ _ _ _ _ _ _ Rational.field
              true 0 1 3 [q 9; q 1; q 2; q 6; q 9]) as (_ & _ & H & _).
  - lia.
  - simpl. lia.
  - apply Rational.neq. vm_compute. reflexivity.
  - destruct H as [H _]; [reflexivity | reflexivity | exact H].
Defined.

(** One system on a first rank: a boundary row, three interior rows. *)
Lemma boundary_rows_hold_after_apply_boundary_conditions_witness :
  let q := Rational.q in
  let a := mkMatrix 1 4 [q 0; q 1; q 1; q 1] in
  let b := mkMatrix 1 4 [q 2; q 4; q 4; q 4] in
  let c := mkMatrix 1 4 [q 1; q 1; q 1; q 0] in
  let r := mkMatrix 1 4 [q 3; q 5; q 6; q 7] in
  let x := mkMatrix 1 4 [q 0; q 1; q 1; q 1] in
  exists x',
    apply_boundary_conditions (q 0) Qcanon.Qcmult Qcanon.Qcminus Qcanon.Qcdiv
      true false 1 0 3 1 a b c r x = Ok x'.
Proof.
  intros q a b c r x.
  destruct (boundary_rows_hold_after_apply_boundary_conditions _ _ _ _ _ _ _ _
              Rational.field 1 4 1 ltac:(lia) ltac:(lia) ltac:(lia)
              true false 0 3 a b c r x) as (x' & H & _).
  - reflexivity.
  - repeat split.
  - repeat split.
  - repeat split.
  - repeat split.
  - repeat split.
  - intros _ kz ix Hkz Hix.
    assert (kz = 0) as -> by lia. assert (ix = 0) as -> by lia.
    apply Rational.nonzero_neq. vm_compute. reflexivity.
  - discriminate.
  - exists x'. exact H.
Defined.

(** The same system: elimination of the boundary row. *)
Lemma boundary_elimination_is_exact_witness :
  let q := Rational.q in
  let a := mkMatrix 1 4 [q 0; q 1; q 1; q 1] in
  let b := mkMatrix 1 4 [q 2; q 4; q 4; q 4] in
  let c := mkMatrix 1 4 [q 1; q 1; q 1; q 0] in
  let r := mkMatrix 1 4 [q 3; q 5; q 6; q 7] in
  exists b' r',
    eliminate_boundary_rows (q 0) Qcanon.Qcmult Qcanon.Qcminus Qcanon.Qcdiv
      true false 1 0 3 1 a b c r = Ok (b', r').
Proof.
  intros q a b c r.
  destruct (boundary_elimination_is_exact _ _ _ _ _ _ _ _
              Rational.field 1 4 1 ltac:(lia) ltac:(lia) ltac:(lia)
              true false 0 3 a b c r) as (b' & r' & H & _).
  - reflexivity.
  - reflexivity.
  - repeat split.
  - repeat split.
  - repeat split.
  - repeat split.
  - intros _ kz ix Hkz Hix.
    assert (kz = 0) as -> by lia. assert (ix = 0) as -> by lia.
    apply Rational.nonzero_neq. vm_compute. reflexivity.
  - discriminate.
  - exists b', r'. exact H.
Defined.


(** ** LaplacePCR: one level of cyclic reduction and of back-substitution

    [pcr.cxx], the loop nests of [LaplacePCR::cr_forward_multiple_row] and
    [LaplacePCR::cr_backward_multiple_row] for one level, and the 2x2 solve
    that ends [LaplacePCR::pcr_forward_single_row].  The arrays have
    [n_mpi + 2] columns: column 0 and column [n_mpi + 1] hold the rows
    received from the neighbouring ranks. *)

Section StridedLoops.
Context {S : Type}.

(** [for (i = hi; i >= lo; i -= step) body] *)
Fixpoint for_down_stride (fuel : nat) (i lo step : Z) (body : Z -> S -> result S) (s : S)
    : result S :=
  if lo <=? i then
    match fuel with
    | O => Timeout
    | Datatypes.S fuel' =>
        do s' <- body i s ;; for_down_stride fuel' (i - step) lo step body s'
    end
  else Ok s.

Lemma for_down_stride_invariant (P : Z -> S -> Prop) (body : Z -> S -> result S)
    (fuel : nat) (i lo step : Z) (s : S) :
  0 < step -> i - lo < Z.of_nat fuel * step -> P i s ->
  (forall j s, lo <= j <= i -> P j s ->
     exists s', body j s = Ok s' /\ P (j - step) s') ->
  exists j' s', for_down_stride fuel i lo step body s = Ok s' /\ P j' s' /\ j' < lo.
Proof.
  intros Hstep. revert i s.
  induction fuel as [|fuel IH]; intros i s Hfuel H0 Hbody; cbn [for_down_stride].
  - destruct (Z.leb_spec lo i); [lia|]. by exists i, s.
  - destruct (Z.leb_spec lo i) as [Hle|Hgt].
    + destruct (Hbody i s ltac:(lia) H0) as (s' & -> & HP). cbn [bind].
      apply IH; [lia | done |].
      intros j s0 Hj. apply Hbody. lia.
    + by exists i, s.
Qed.

Lemma for_stride_steps (P : Z -> S -> Prop) (body : Z -> S -> result S)
    (fuel : nat) (lo hi step : Z) (s : S) :
  0 < step -> hi - lo <= Z.of_nat fuel * step -> P lo s ->
  (forall i s, lo <= i < hi -> P i s -> exists s', body i s = Ok s' /\ P (i + step) s') ->
  exists i' s', for_stride fuel lo hi step body s = Ok s' /\ P i' s' /\ hi <= i'.
Proof.
  intros Hstep Hfuel H0 Hbody.
  destruct (for_stride_invariant P (fun _ _ => False) body fuel lo hi step s)
    as [(i' & s' & Hr & HP & Hhi & _)|(a & b & _ & [])]; [done | done | done | |].
  - intros i s0 Hi HP. left. by apply Hbody.
  - by exists i', s'.
Qed.
End StridedLoops.

Lemma odd_multiple_below (i d : Z) :
  1 <= d -> i mod (2 * d) = 0 -> (i - d) mod (2 * d) = d.
Proof.
  intros Hd Hi. apply Z.mod_divide in Hi as [q Hq]; [|lia].
  symmetry. apply (Z.mod_unique_pos _ _ (q - 1)); lia.
Qed.

Lemma odd_multiple_above (i d : Z) :
  1 <= d -> i mod (2 * d) = 0 -> (i + d) mod (2 * d) = d.
Proof.
  intros Hd Hi. apply Z.mod_divide in Hi as [q Hq]; [|lia].
  symmetry. apply (Z.mod_unique_pos _ _ q); lia.
Qed.

Lemma even_multiple_next (i d : Z) :
  1 <= d -> i mod (2 * d) = 0 -> (i + 2 * d) mod (2 * d) = 0.
Proof.
  intros Hd Hi. apply Z.mod_divide in Hi as [q Hq]; [|lia].
  apply Z.mod_divide; [lia|]. exists (q + 1). lia.
Qed.

Section CyclicReduction.
Context {dcomplex : Type}.
Context (c0 c1 : dcomplex) (cadd cmul csub : dcomplex -> dcomplex -> dcomplex)
        (copp : dcomplex -> dcomplex) (cdiv : dcomplex -> dcomplex -> dcomplex)
        (cinv : dcomplex -> dcomplex).
Context (dcomplex_field : field_theory c0 c1 cadd cmul csub copp cdiv cinv eq).

Add Field dcomplex_fld_cr : dcomplex_field.

Local Notation "x +c y" := (cadd x y) (at level 50, left associativity).
Local Notation "x -c y" := (csub x y) (at level 50, left associativity).
Local Notation "x *c y" := (cmul x y) (at level 40, left associativity).
Local Notation "x /c y" := (cdiv x y) (at level 40, left associativity).
Local Notation "a [@ i ]" := (aget c0 a i) (at level 1, i at level 200, format "a [@ i ]").
Local Notation "m [[ i , j ]]" := (entry c0 m i j)
  (at level 1, i at level 200, j at level 200, format "m [[ i ,  j ]]").

Local Abbreviation Mat := (@Matrix dcomplex).

(** The arrays the reduction works on: the coefficients [a], [b], [c], the
    right-hand side [r], and the work arrays [alpha] and [gamma]. *)
Record reduction : Type := mkReduction {
  red_a : Mat;
  red_b : Mat;
  red_c : Mat;
  red_r : Mat;
  alpha : list dcomplex;
  gamma : list dcomplex
}.

(** [alpha[kz] = -a(kz,i) / b(kz,ip);
    gamma[kz] = -c(kz,i) / b(kz,in);
    b(kz,i) += (alpha[kz] * c(kz,ip) + gamma[kz] * a(kz,in));
    a(kz,i) = alpha[kz] * a(kz,ip);
    c(kz,i) = gamma[kz] * c(kz,in);
    r(kz,i) += (alpha[kz] * r(kz,ip) + gamma[kz] * r(kz,in));] *)
Definition reduce_point (i ip in_ kz : Z) (s : reduction) : result reduction :=
  do a_i <- mget c0 (red_a s) kz i ;;
  do b_ip <- mget c0 (red_b s) kz ip ;;
  let alpha := aset (alpha s) kz (copp a_i /c b_ip) in
  do c_i <- mget c0 (red_c s) kz i ;;
  do b_in <- mget c0 (red_b s) kz in_ ;;
  let gamma := aset (gamma s) kz (copp c_i /c b_in) in
  do b_i <- mget c0 (red_b s) kz i ;;
  do c_ip <- mget c0 (red_c s) kz ip ;;
  do a_in <- mget c0 (red_a s) kz in_ ;;
  do b <- mset (red_b s) kz i (b_i +c (alpha[@kz] *c c_ip +c gamma[@kz] *c a_in)) ;;
  do a_ip <- mget c0 (red_a s) kz ip ;;
  do a <- mset (red_a s) kz i (alpha[@kz] *c a_ip) ;;
  do c_in <- mget c0 (red_c s) kz in_ ;;
  do c <- mset (red_c s) kz i (gamma[@kz] *c c_in) ;;
  do r_i <- mget c0 (red_r s) kz i ;;
  do r_ip <- mget c0 (red_r s) kz ip ;;
  do r_in <- mget c0 (red_r s) kz in_ ;;
  do r <- mset (red_r s) kz i (r_i +c (alpha[@kz] *c r_ip +c gamma[@kz] *c r_in)) ;;
  Ok (mkReduction a b c r alpha gamma).

(** One level of [cr_forward_multiple_row]:
    [start = dist2_row;
     for (i = start; i <= n_mpi; i += dist2_row) {
       ip = i - dist_row;  in = min(i + dist_row, n_mpi + 1);
       for (int kz = 0; kz < nsys; kz++) { ... } }]
    where [dist2_row] is twice [dist_row] (both are doubled at the end of
    every level). *)
Definition cr_reduce_level (nsys n_mpi dist_row : Z) (s : reduction) : result reduction :=
  let dist2_row := 2 * dist_row in
  let start := dist2_row in
  for_stride (Z.to_nat n_mpi) start (n_mpi + 1) dist2_row
    (fun i s =>
       let ip := i - dist_row in
       let in_ := Z.min (i + dist_row) (n_mpi + 1) in
       for_stride (Z.to_nat nsys) 0 nsys 1 (reduce_point i ip in_) s)
    s.

(** [x(kz,i) = r(kz,i) - c(kz,i)*x(kz,in) - a(kz,i)*x(kz,ip);
    x(kz,i) = x(kz,i) / b(kz,i);] *)
Definition substitute_point (a b c r : Mat) (i ip in_ kz : Z) (x : Mat) : result Mat :=
  do r_i <- mget c0 r kz i ;;
  do c_i <- mget c0 c kz i ;;
  do x_in <- mget c0 x kz in_ ;;
  do a_i <- mget c0 a kz i ;;
  do x_ip <- mget c0 x kz ip ;;
  do x <- mset x kz i (r_i -c c_i *c x_in -c a_i *c x_ip) ;;
  do x_i <- mget c0 x kz i ;;
  do b_i <- mget c0 b kz i ;;
  mset x kz i (x_i /c b_i).

(** One level of [cr_backward_multiple_row]:
    [dist2_row = dist_row * 2;
     for (i = n_mpi - dist_row; i >= 0; i -= dist2_row) {
       ip = i - dist_row;  in = i + dist_row;
       for (int kz = 0; kz < nsys; kz++) { ... } }] *)
Definition cr_substitute_level (nsys n_mpi dist_row : Z) (a b c r : Mat) (x : Mat)
    : result Mat :=
  let dist2_row := dist_row * 2 in
  for_down_stride (Z.to_nat n_mpi) (n_mpi - dist_row) 0 dist2_row
    (fun i x =>
       let ip := i - dist_row in
       let in_ := i + dist_row in
       for_stride (Z.to_nat nsys) 0 nsys 1 (substitute_point a b c r i ip in_) x)
    x.

(** "Solving 2x2 matrix" on the lower rank of a pair, [i = n_mpi],
    [in = n_mpi + 1]:
    [det = b(kz,i)*b(kz,in) - c(kz,i)*a(kz,in);
     x(kz,i) = (r(kz,i)*b(kz,in) - r(kz,in)*c(kz,i))/det;
     x(kz,in) = (r(kz,in)*b(kz,i) - r(kz,i)*a(kz,in))/det;] *)
Definition solve_pair_point (a b c r : Mat) (i in_ kz : Z) (x : Mat) : result Mat :=
  do b_i <- mget c0 b kz i ;;
  do b_in <- mget c0 b kz in_ ;;
  do c_i <- mget c0 c kz i ;;
  do a_in <- mget c0 a kz in_ ;;
  let det := b_i *c b_in -c c_i *c a_in in
  do r_i <- mget c0 r kz i ;;
  do r_in <- mget c0 r kz in_ ;;
  do x <- mset x kz i ((r_i *c b_in -c r_in *c c_i) /c det) ;;
  mset x kz in_ ((r_in *c b_i -c r_i *c a_in) /c det).

Definition solve_pair (nsys i in_ : Z) (a b c r : Mat) (x : Mat) : result Mat :=
  for_stride (Z.to_nat nsys) 0 nsys 1 (solve_pair_point a b c r i in_) x.

(** The row [slot] of system [kz] as an equation between three unknowns. *)
Definition row_holds (a b c r : Mat) (kz slot : Z) (xm x0 xp : dcomplex) : Prop :=
  a[[kz, slot]] *c xm +c b[[kz, slot]] *c x0 +c c[[kz, slot]] *c xp = r[[kz, slot]].

(** The four coefficients of row [ix] of system [kz]. *)
Definition row_of (s : reduction) (kz ix : Z) : dcomplex * dcomplex * dcomplex * dcomplex :=
  ((red_a s)[[kz, ix]], (red_b s)[[kz, ix]], (red_c s)[[kz, ix]], (red_r s)[[kz, ix]]).

(** Row [i] after its reduction with the rows [ip] and [in_]. *)
Definition reduced (s : reduction) (kz i ip in_ : Z)
    : dcomplex * dcomplex * dcomplex * dcomplex :=
  let al := copp (red_a s)[[kz, i]] /c (red_b s)[[kz, ip]] in
  let ga := copp (red_c s)[[kz, i]] /c (red_b s)[[kz, in_]] in
  (al *c (red_a s)[[kz, ip]],
   (red_b s)[[kz, i]] +c (al *c (red_c s)[[kz, ip]] +c ga *c (red_a s)[[kz, in_]]),
   ga *c (red_c s)[[kz, in_]],
   (red_r s)[[kz, i]] +c (al *c (red_r s)[[kz, ip]] +c ga *c (red_r s)[[kz, in_]])).

Section Level.
Context (nsys n_mpi : Z).
Context (Hnsys : 0 <= nsys) (Hn_mpi : 0 < n_mpi).

Definition allocated_reduction (s : reduction) : Prop :=
  shaped nsys (n_mpi + 2) (red_a s) /\ shaped nsys (n_mpi + 2) (red_b s) /\
  shaped nsys (n_mpi + 2) (red_c s) /\ shaped nsys (n_mpi + 2) (red_r s) /\
  Z.of_nat (length (alpha s)) = nsys /\ Z.of_nat (length (gamma s)) = nsys.

Local Ltac shapes :=
  repeat match goal with
         | H : shaped _ _ _ |- _ => destruct H as (? & ? & ?)
         end;
  cbn [updated shape1 shape2] in *; lia.

Local Ltac mrun :=
  repeat (first [rewrite (mget_in c0) by shapes
                | rewrite mset_updated by shapes];
          cbn [bind]).

Lemma reduce_point_run (i ip in_ kz : Z) (s : reduction) :
  allocated_reduction s -> 0 <= kz < nsys ->
  0 <= i < n_mpi + 2 -> 0 <= ip < n_mpi + 2 -> 0 <= in_ < n_mpi + 2 ->
  ip <> i -> in_ <> i ->
  exists s',
    reduce_point i ip in_ kz s = Ok s' /\ allocated_reduction s' /\
    forall kz' ix, 0 <= kz' < nsys -> 0 <= ix < n_mpi + 2 ->
      row_of s' kz' ix
      = if decide (kz' = kz /\ ix = i) then reduced s kz i ip in_ else row_of s kz' ix.
Proof.
  intros (Ha & Hb & Hc & Hr & Hal & Hga) Hkz Hi Hip Hin Hne1 Hne2.
  assert (Hwa : well_shaped (red_a s)) by (eapply shaped_well_shaped; [| |exact Ha]; lia).
  assert (Hwb : well_shaped (red_b s)) by (eapply shaped_well_shaped; [| |exact Hb]; lia).
  assert (Hwc : well_shaped (red_c s)) by (eapply shaped_well_shaped; [| |exact Hc]; lia).
  assert (Hwr : well_shaped (red_r s)) by (eapply shaped_well_shaped; [| |exact Hr]; lia).
  unfold reduce_point. mrun. rewrite !aget_aset_eq by lia.
  eexists. split; [done|]. split.
  { unfold allocated_reduction. cbn [red_a red_b red_c red_r alpha gamma].
    rewrite !length_aset. repeat split; first [by apply shaped_updated | shapes | done]. }
  intros kz' ix Hkz' Hix. unfold row_of, reduced. cbn [red_a red_b red_c red_r].
  destruct (decide (kz' = kz /\ ix = i)) as [ [-> ->]|Hne].
  - rewrite !entry_updated_same by first [done | shapes]. done.
  - rewrite !entry_updated_other by first [done | shapes | lia]. done.
Qed.

Section OneLevel.
Context (dist_row : Z) (Hdist : 1 <= dist_row) (Hmult : n_mpi mod (2 * dist_row) = 0).

(** The rows rewritten by the level: the multiples of [dist2_row] from
    [dist2_row] to [n_mpi]. *)
Definition reduced_row (ix : Z) : Prop :=
  ix mod (2 * dist_row) = 0 /\ 2 * dist_row <= ix <= n_mpi.

Lemma reduce_row_run (s0 s : reduction) (i : Z) :
  allocated_reduction s ->
  i mod (2 * dist_row) = 0 -> 2 * dist_row <= i <= n_mpi ->
  (forall kz ix, 0 <= kz < nsys -> 0 <= ix < n_mpi + 2 ->
     row_of s kz ix
     = if decide (reduced_row ix /\ ix < i)
       then reduced s0 kz ix (ix - dist_row) (Z.min (ix + dist_row) (n_mpi + 1))
       else row_of s0 kz ix) ->
  exists s',
    for_stride (Z.to_nat nsys) 0 nsys 1
      (reduce_point i (i - dist_row) (Z.min (i + dist_row) (n_mpi + 1))) s = Ok s' /\
    allocated_reduction s' /\
    forall kz ix, 0 <= kz < nsys -> 0 <= ix < n_mpi + 2 ->
      row_of s' kz ix
      = if decide (reduced_row ix /\ ix < i + 2 * dist_row)
        then reduced s0 kz ix (ix - dist_row) (Z.min (ix + dist_row) (n_mpi + 1))
        else row_of s0 kz ix.
Proof.
  intros Hs Himod Hi Hrows.
  assert (Hip : (i - dist_row) mod (2 * dist_row) = dist_row)
    by (by apply odd_multiple_below).
  assert (Hin : i < n_mpi -> (i + dist_row) mod (2 * dist_row) = dist_row)
    by (intros _; by apply odd_multiple_above).
  assert (Hnext : i < n_mpi -> i + 2 * dist_row <= n_mpi).
  { intros Hlt. pose proof Himod as Hm1. pose proof Hmult as Hm2.
    apply Z.mod_divide in Hm1 as [q Hq]; [|lia].
    apply Z.mod_divide in Hm2 as [p Hp]; [|lia].
    assert (q < p) by nia. nia. }
  set (ip := i - dist_row) in *.
  set (in_ := Z.min (i + dist_row) (n_mpi + 1)) in *.
  assert (Hin_ : in_ = n_mpi + 1 \/ (i < n_mpi /\ in_ = i + dist_row)).
  { subst in_. destruct (decide (i = n_mpi)); [left; lia | right].
    specialize (Hnext ltac:(lia)). lia. }
  assert (Hunread : forall kz j, 0 <= kz < nsys -> j = ip \/ j = in_ ->
            row_of s kz j = row_of s0 kz j).
  { intros kz j Hkz Hj. rewrite Hrows by (subst ip in_; lia).
    destruct (decide _) as [ [ [Hm Hr] Hlt]|_]; [|done].
    destruct Hj as [->| ->].
    - rewrite Hip in Hm. lia.
    - destruct Hin_ as [E|[Hlt' E] ]; rewrite E in *; [lia|].
      rewrite Hin in Hm by done. lia. }
  destruct (for_stride_ok
              (fun k (s' : reduction) =>
                 allocated_reduction s' /\
                 forall kz ix, 0 <= kz < nsys -> 0 <= ix < n_mpi + 2 ->
                   row_of s' kz ix
                   = if decide (kz < k /\ ix = i) then reduced s0 kz i ip in_
                     else row_of s kz ix)
              (reduce_point i ip in_) 0 nsys s) as (s' & Hrun & Hs' & Hrows').
  - split; [done|]. intros kz ix Hkz Hix. destruct (decide _); [lia | done].
  - intros k s1 Hk (Hs1 & Hrows1).
    destruct (reduce_point_run i ip in_ k s1 Hs1 Hk) as (s2 & Hrun2 & Hs2 & Hrows2);
      try (subst ip in_; lia).
    exists s2. split; [done|]. split; [done|].
    intros kz ix Hkz Hix. rewrite Hrows2 by done.
    destruct (decide (kz = k /\ ix = i)) as [ [-> ->]|Hne].
    + destruct (decide _) as [_|Hd]; [|lia].
      (* the rows read are still those of the start of the level *)
      unfold reduced.
      assert (E1 : row_of s1 k i = row_of s0 k i).
      { rewrite Hrows1 by lia. destruct (decide _); [lia|].
        rewrite Hrows by lia. destruct (decide _) as [ [_ Hlt]|_]; [lia | done]. }
      assert (E2 : row_of s1 k ip = row_of s0 k ip).
      { rewrite Hrows1 by (subst ip; lia). destruct (decide _); [subst ip; lia|].
        apply Hunread; [done | by left]. }
      assert (E3 : row_of s1 k in_ = row_of s0 k in_).
      { rewrite Hrows1 by (subst in_; lia). destruct (decide _); [subst in_; lia|].
        apply Hunread; [done | by right]. }
      unfold row_of in E1, E2, E3.
      injection E1 as -> -> -> ->. injection E2 as -> -> -> ->.
      injection E3 as -> -> -> ->. done.
    + rewrite Hrows1 by done.
      destruct (decide (kz < k /\ ix = i)); destruct (decide (kz < k + 1 /\ ix = i));
        try done; lia.
  - replace (Z.to_nat (nsys - 0)) with (Z.to_nat nsys) in Hrun by lia.
    replace (Z.max 0 nsys) with nsys in * by lia.
    exists s'. split; [done|]. split; [done|].
    intros kz ix Hkz Hix. rewrite Hrows' by done.
    destruct (decide (kz < nsys /\ ix = i)) as [ [_ ->]|Hne].
    + destruct (decide _) as [_|Hd]; [done|].
      exfalso. apply Hd. unfold reduced_row. lia.
    + rewrite Hrows by done.
      destruct (decide (reduced_row ix /\ ix < i)) as [ [Hr Hlt]|Hd1];
        destruct (decide (reduced_row ix /\ ix < i + 2 * dist_row)) as [ [Hr' Hlt']|Hd2];
        try done.
      * exfalso. apply Hd2. split; [done | lia].
      * exfalso. apply Hd1. split; [done|].
        destruct Hr' as [Hm _].
        apply Z.mod_divide in Hm as [q Hq]; [|lia].
        apply Z.mod_divide in Himod as [p Hp]; [|lia].
        assert (q < p + 1) by nia.
        assert (q <> p) by (intros ->; lia).
        nia.
Qed.

Lemma cr_reduce_level_run (s0 : reduction) :
  allocated_reduction s0 ->
  exists s',
    cr_reduce_level nsys n_mpi dist_row s0 = Ok s' /\ allocated_reduction s' /\
    forall kz ix, 0 <= kz < nsys -> 0 <= ix < n_mpi + 2 ->
      row_of s' kz ix
      = if decide (reduced_row ix)
        then reduced s0 kz ix (ix - dist_row) (Z.min (ix + dist_row) (n_mpi + 1))
        else row_of s0 kz ix.
Proof.
  intros Hs0. unfold cr_reduce_level.
  destruct (for_stride_steps
              (fun i (s : reduction) =>
                 i mod (2 * dist_row) = 0 /\ 2 * dist_row <= i /\
                 allocated_reduction s /\
                 forall kz ix, 0 <= kz < nsys -> 0 <= ix < n_mpi + 2 ->
                   row_of s kz ix
                   = if decide (reduced_row ix /\ ix < i)
                     then reduced s0 kz ix (ix - dist_row)
                            (Z.min (ix + dist_row) (n_mpi + 1))
                     else row_of s0 kz ix)
              (fun i s =>
                 let ip := i - dist_row in
                 let in_ := Z.min (i + dist_row) (n_mpi + 1) in
                 for_stride (Z.to_nat nsys) 0 nsys 1 (reduce_point i ip in_) s)
              (Z.to_nat n_mpi) (2 * dist_row) (n_mpi + 1) (2 * dist_row) s0)
    as (i' & s' & Hrun & (Hm & Hge & Hs' & Hrows) & Hhi).
  - lia.
  - nia.
  - split; [apply Z_mod_same_full|]. split; [lia|]. split; [done|].
    intros kz ix Hkz Hix. destruct (decide _) as [ [ [_ ?] ?]|_]; [lia | done].
  - intros i s Hi (Hm & Hge & Hs & Hrows). cbv zeta.
    destruct (reduce_row_run s0 s i Hs Hm ltac:(lia) Hrows) as (s' & Hrun & Hs' & Hrows').
    exists s'. split; [done|]. split; [by apply even_multiple_next|].
    split; [lia|]. done.
  - exists s'. split; [done|]. split; [done|].
    intros kz ix Hkz Hix. rewrite Hrows by done.
    destruct (decide (reduced_row ix /\ ix < i')) as [ [Hr Hlt]|Hd1];
      destruct (decide (reduced_row ix)) as [Hr'|Hd2]; try done.
    exfalso. apply Hd1. split; [done|]. destruct Hr' as [_ ?]. lia.
Qed.

(** One level of cyclic reduction keeps the solutions, in exact arithmetic.
    With [n_mpi] a multiple of [dist2_row = 2 * dist_row] and non-zero
    diagonal entries in the rows that are eliminated, the level completes;
    it rewrites only the rows [dist2_row, 2 * dist2_row, ..., n_mpi]; and
    whenever five values [x(i - dist2_row)], [x(i - dist_row)], [x(i)],
    [x(i + dist_row)], [x(i + dist2_row)] satisfy the three old rows [ip],
    [i] and [in] (which couple neighbours at distance [dist_row]), the new
    row [i] holds as an equation between [x(i - dist2_row)], [x(i)] and
    [x(i + dist2_row)] alone. *)
Theorem cyclic_reduction_level_keeps_solutions (s0 : reduction) :
  allocated_reduction s0 ->
  (forall kz i, 0 <= kz < nsys -> reduced_row i ->
     (red_b s0)[[kz, i - dist_row]] <> c0 /\
     (red_b s0)[[kz, Z.min (i + dist_row) (n_mpi + 1)]] <> c0) ->
  exists s',
    cr_reduce_level nsys n_mpi dist_row s0 = Ok s' /\
    (forall kz ix, 0 <= kz < nsys -> 0 <= ix < n_mpi + 2 -> ~ reduced_row ix ->
       row_of s' kz ix = row_of s0 kz ix) /\
    forall kz i xmm xm x0 xp xpp,
      0 <= kz < nsys -> reduced_row i ->
      row_holds (red_a s0) (red_b s0) (red_c s0) (red_r s0) kz (i - dist_row) xmm xm x0 ->
      row_holds (red_a s0) (red_b s0) (red_c s0) (red_r s0) kz i xm x0 xp ->
      row_holds (red_a s0) (red_b s0) (red_c s0) (red_r s0) kz
        (Z.min (i + dist_row) (n_mpi + 1)) x0 xp xpp ->
      row_holds (red_a s') (red_b s') (red_c s') (red_r s') kz i xmm x0 xpp.
Proof.
  intros Hs0 Hpiv.
  destruct (cr_reduce_level_run s0 Hs0) as (s' & Hrun & Hs' & Hrows).
  exists s'. split; [done|]. split.
  - intros kz ix Hkz Hix Hnr. rewrite Hrows by done. destruct (decide _); done.
  - intros kz i xmm xm x0 xp xpp Hkz Hred H1 H2 H3.
    destruct (Hpiv kz i Hkz Hred) as [Hp1 Hp2].
    assert (Hrow := Hrows kz i Hkz ltac:(destruct Hred; lia)).
    destruct (decide (reduced_row i)) as [_|Hd]; [|done].
    unfold row_of, reduced in Hrow. injection Hrow as Ea Eb Ec Er.
    unfold row_holds in *. rewrite Ea, Eb, Ec, Er.
    rewrite <- H1, <- H2, <- H3. field. done.
Qed.

(** The rows solved by the level: the odd multiples of [dist_row] below
    [n_mpi]. *)
Definition substituted_row (ix : Z) : Prop :=
  ix mod (2 * dist_row) = dist_row /\ 0 < ix < n_mpi.

Lemma substitute_row_run (a b c r xs : Mat) (i : Z) :
  shaped nsys (n_mpi + 2) a -> shaped nsys (n_mpi + 2) b ->
  shaped nsys (n_mpi + 2) c -> shaped nsys (n_mpi + 2) r ->
  shaped nsys (n_mpi + 2) xs ->
  dist_row <= i -> i + dist_row <= n_mpi ->
  (forall kz, 0 <= kz < nsys -> b[[kz, i]] <> c0) ->
  exists x',
    for_stride (Z.to_nat nsys) 0 nsys 1
      (substitute_point a b c r i (i - dist_row) (i + dist_row)) xs = Ok x' /\
    shaped nsys (n_mpi + 2) x' /\
    (forall kz ix, 0 <= kz < nsys -> 0 <= ix < n_mpi + 2 -> ix <> i ->
       x'[[kz, ix]] = xs[[kz, ix]]) /\
    (forall kz, 0 <= kz < nsys ->
       row_holds a b c r kz i x'[[kz, i - dist_row]] x'[[kz, i]] x'[[kz, i + dist_row]]).
Proof.
  intros Ha Hb Hc Hr Hx Hlo Hhi Hpiv.
  destruct (for_stride_ok
              (fun k (x' : Mat) =>
                 shaped nsys (n_mpi + 2) x' /\
                 (forall kz ix, 0 <= kz < nsys -> 0 <= ix < n_mpi + 2 ->
                    ~ (kz < k /\ ix = i) -> x'[[kz, ix]] = xs[[kz, ix]]) /\
                 (forall kz, 0 <= kz < k ->
                    row_holds a b c r kz i x'[[kz, i - dist_row]] x'[[kz, i]]
                      x'[[kz, i + dist_row]]))
              (substitute_point a b c r i (i - dist_row) (i + dist_row)) 0 nsys xs)
    as (x' & Hrun & Hs' & Hfr & Hrows).
  - split; [done|]. split; [done|]. intros kz Hkz. lia.
  - intros k x1 Hk (Hs1 & Hfr1 & Hrows1).
    assert (Hw1 : well_shaped x1) by (eapply shaped_well_shaped; [| |exact Hs1]; lia).
    unfold substitute_point. mrun.
    set (v := r[[k, i]] -c c[[k, i]] *c x1[[k, i + dist_row]]
              -c a[[k, i]] *c x1[[k, i - dist_row]]).
    assert (Hw2 : well_shaped (updated x1 k i v)) by (by apply well_shaped_updated).
    rewrite entry_updated_same by first [done | shapes].
    eexists. split; [done|]. split; [by do 2 apply shaped_updated|]. split.
    + intros kz ix Hkz Hix Hout.
      rewrite !entry_updated_other by first [done | shapes | lia].
      apply Hfr1; try done. lia.
    + intros kz Hkz. unfold row_holds.
      destruct (decide (kz = k)) as [->|Hne].
      * rewrite entry_updated_same by first [done | shapes].
        rewrite !entry_updated_other by first [done | shapes | lia].
        subst v. field. by apply Hpiv.
      * rewrite !entry_updated_other by first [done | shapes | lia].
        apply Hrows1. lia.
  - replace (Z.to_nat (nsys - 0)) with (Z.to_nat nsys) in Hrun by lia.
    replace (Z.max 0 nsys) with nsys in * by lia.
    exists x'. split; [done|]. split; [done|]. split.
    + intros kz ix Hkz Hix Hne. apply Hfr; try done. lia.
    + done.
Qed.

(** One level of back-substitution solves its rows, in exact arithmetic.
    With non-zero diagonal entries in the rows at the odd multiples of
    [dist_row], the level completes, writes [x] only in those columns, and
    leaves every such row [i] satisfied:
    [a(kz,i) x(kz,i - dist_row) + b(kz,i) x(kz,i) + c(kz,i) x(kz,i + dist_row)
     = r(kz,i)]. *)
Theorem back_substitution_level_solves_rows (a b c r x : Mat) :
  shaped nsys (n_mpi + 2) a -> shaped nsys (n_mpi + 2) b ->
  shaped nsys (n_mpi + 2) c -> shaped nsys (n_mpi + 2) r ->
  shaped nsys (n_mpi + 2) x ->
  (forall kz i, 0 <= kz < nsys -> substituted_row i -> b[[kz, i]] <> c0) ->
  exists x',
    cr_substitute_level nsys n_mpi dist_row a b c r x = Ok x' /\
    (forall kz ix, 0 <= kz < nsys -> 0 <= ix < n_mpi + 2 -> ~ substituted_row ix ->
       x'[[kz, ix]] = x[[kz, ix]]) /\
    (forall kz i, 0 <= kz < nsys -> substituted_row i ->
       row_holds a b c r kz i x'[[kz, i - dist_row]] x'[[kz, i]] x'[[kz, i + dist_row]]).
Proof.
  intros Ha Hb Hc Hr Hx Hpiv. unfold cr_substitute_level.
  replace (dist_row * 2) with (2 * dist_row) by lia.
  assert (Hodd : forall j, j mod (2 * dist_row) = dist_row -> 0 <= j -> dist_row <= j).
  { intros j Hj Hj0.
    pose proof (Z.div_mod j (2 * dist_row) ltac:(lia)) as Hdm.
    pose proof (Z.div_pos j (2 * dist_row) Hj0 ltac:(lia)). nia. }
  assert (Heven : forall j, j mod (2 * dist_row) = dist_row -> j < n_mpi ->
            j + dist_row <= n_mpi).
  { intros j Hj Hlt.
    pose proof (Z.div_mod j (2 * dist_row) ltac:(lia)) as Hdm.
    pose proof Hmult as Hm2. apply Z.mod_divide in Hm2 as [p Hp]; [|lia].
    rewrite Hj in Hdm.
    assert (j / (2 * dist_row) < p) by nia. nia. }
  assert (Hshift : forall j, j mod (2 * dist_row) = dist_row ->
            (j - 2 * dist_row) mod (2 * dist_row) = dist_row).
  { intros j Hj.
    replace (j - 2 * dist_row) with (j + (-1) * (2 * dist_row)) by lia.
    rewrite Z.mod_add by lia. done. }
  destruct (for_down_stride_invariant
              (fun j (x' : Mat) =>
                 j mod (2 * dist_row) = dist_row /\ j < n_mpi /\
                 shaped nsys (n_mpi + 2) x' /\
                 (forall kz ix, 0 <= kz < nsys -> 0 <= ix < n_mpi + 2 ->
                    ~ (substituted_row ix /\ j < ix) -> x'[[kz, ix]] = x[[kz, ix]]) /\
                 (forall kz ix, 0 <= kz < nsys -> substituted_row ix -> j < ix ->
                    row_holds a b c r kz ix x'[[kz, ix - dist_row]] x'[[kz, ix]]
                      x'[[kz, ix + dist_row]]))
              (fun i x =>
                 let ip := i - dist_row in
                 let in_ := i + dist_row in
                 for_stride (Z.to_nat nsys) 0 nsys 1 (substitute_point a b c r i ip in_) x)
              (Z.to_nat n_mpi) (n_mpi - dist_row) 0 (2 * dist_row) x)
    as (j' & x' & Hrun & (Hm & Hlt & Hs' & Hfr & Hrows) & Hj').
  - lia.
  - nia.
  - split; [by apply odd_multiple_below|]. split; [lia|]. split; [done|]. split.
    + done.
    + intros kz ix Hkz [Hmod Hix] Hgt.
      specialize (Heven ix Hmod ltac:(lia)). lia.
  - intros j x1 Hj (Hm & Hlt & Hs1 & Hfr1 & Hrows1). cbv zeta.
    pose proof (Hodd j Hm ltac:(lia)) as Hjd.
    pose proof (Heven j Hm Hlt) as Hje.
    destruct (substitute_row_run a b c r x1 j Ha Hb Hc Hr Hs1 Hjd Hje)
      as (x2 & Hrun2 & Hs2 & Hfr2 & Hrows2).
    { intros kz Hkz. apply Hpiv; [done|]. split; [done | lia]. }
    exists x2. split; [done|]. split; [by apply Hshift|]. split; [lia|].
    split; [done|]. split.
    + intros kz ix Hkz Hix Hout.
      destruct (decide (ix = j)) as [->|Hne].
      * exfalso. apply Hout. split; [split; [done | lia] | lia].
      * rewrite Hfr2 by done. apply Hfr1; try done.
        intros [Hsub Hgt]. apply Hout. split; [done | lia].
    + intros kz ix Hkz Hsub Hgt.
      destruct (decide (ix = j)) as [->|Hne]; [by apply Hrows2|].
      assert (j + 2 * dist_row <= ix).
      { destruct Hsub as [Hmod _].
        pose proof (Z.div_mod ix (2 * dist_row) ltac:(lia)) as Hd1.
        pose proof (Z.div_mod j (2 * dist_row) ltac:(lia)) as Hd2.
        rewrite Hmod in Hd1. rewrite Hm in Hd2.
        assert (j / (2 * dist_row) - 1 < ix / (2 * dist_row)) by nia.
        assert (ix / (2 * dist_row) <> j / (2 * dist_row)) by (intros E; rewrite E in Hd1; lia).
        nia. }
      pose proof (Hrows1 kz ix Hkz Hsub ltac:(lia)) as Hrow.
      destruct Hsub as [Hmod Hix].
      pose proof (Hodd ix Hmod ltac:(lia)). pose proof (Heven ix Hmod ltac:(lia)).
      unfold row_holds in *.
      rewrite !Hfr2 by (first [done | lia]). done.
  - exists x'. split; [done|]. split.
    + intros kz ix Hkz Hix Hns. apply Hfr; try done. tauto.
    + intros kz i Hkz Hsub. apply Hrows; [done | done |]. destruct Hsub. lia.
Qed.
End OneLevel.

(** The 2x2 solve between a pair of ranks is Cramer's rule, in exact
    arithmetic.  For two different columns [i] and [in] and a non-zero
    determinant [b(kz,i) b(kz,in) - c(kz,i) a(kz,in)] in every system, the
    loop completes, writes only the columns [i] and [in] of [x], and leaves
    both equations satisfied:
    [b(kz,i) x(kz,i) + c(kz,i) x(kz,in) = r(kz,i)] and
    [a(kz,in) x(kz,i) + b(kz,in) x(kz,in) = r(kz,in)]. *)
Theorem pair_solve_satisfies_both_rows (i in_ : Z) (a b c r x : Mat) :
  shaped nsys (n_mpi + 2) a -> shaped nsys (n_mpi + 2) b ->
  shaped nsys (n_mpi + 2) c -> shaped nsys (n_mpi + 2) r ->
  shaped nsys (n_mpi + 2) x ->
  0 <= i < n_mpi + 2 -> 0 <= in_ < n_mpi + 2 -> i <> in_ ->
  (forall kz, 0 <= kz < nsys ->
     b[[kz, i]] *c b[[kz, in_]] -c c[[kz, i]] *c a[[kz, in_]] <> c0) ->
  exists x',
    solve_pair nsys i in_ a b c r x = Ok x' /\
    (forall kz ix, 0 <= kz < nsys -> 0 <= ix < n_mpi + 2 -> ix <> i -> ix <> in_ ->
       x'[[kz, ix]] = x[[kz, ix]]) /\
    (forall kz, 0 <= kz < nsys ->
       b[[kz, i]] *c x'[[kz, i]] +c c[[kz, i]] *c x'[[kz, in_]] = r[[kz, i]] /\
       a[[kz, in_]] *c x'[[kz, i]] +c b[[kz, in_]] *c x'[[kz, in_]] = r[[kz, in_]]).
Proof.
  intros Ha Hb Hc Hr Hx Hi Hin Hne Hdet. unfold solve_pair.
  destruct (for_stride_ok
              (fun k (x' : Mat) =>
                 shaped nsys (n_mpi + 2) x' /\
                 (forall kz ix, 0 <= kz < nsys -> 0 <= ix < n_mpi + 2 ->
                    ~ (kz < k /\ (ix = i \/ ix = in_)) -> x'[[kz, ix]] = x[[kz, ix]]) /\
                 (forall kz, 0 <= kz < k ->
                    b[[kz, i]] *c x'[[kz, i]] +c c[[kz, i]] *c x'[[kz, in_]] = r[[kz, i]] /\
                    a[[kz, in_]] *c x'[[kz, i]] +c b[[kz, in_]] *c x'[[kz, in_]]
                    = r[[kz, in_]]))
              (solve_pair_point a b c r i in_) 0 nsys x)
    as (x' & Hrun & Hs' & Hfr & Hrows).
  - split; [done|]. split; [done|]. intros kz Hkz. lia.
  - intros k x1 Hk (Hs1 & Hfr1 & Hrows1).
    assert (Hw1 : well_shaped x1) by (eapply shaped_well_shaped; [| |exact Hs1]; lia).
    unfold solve_pair_point. mrun.
    match goal with
    | |- context [updated (updated x1 k i ?v) k in_ ?w] =>
        set (vi := v); set (vn := w);
        assert (Hw2 : well_shaped (updated x1 k i vi)) by (by apply well_shaped_updated)
    end.
    eexists. split; [done|]. split; [by do 2 apply shaped_updated|]. split.
    + intros kz ix Hkz Hix Hout.
      rewrite !entry_updated_other by first [done | shapes | lia].
      apply Hfr1; try done. lia.
    + intros kz Hkz.
      destruct (decide (kz = k)) as [->|Hnk].
      * rewrite !entry_updated_same by first [done | shapes].
        rewrite (entry_updated_other _ _ k in_ vn k i) by first [done | shapes | lia].
        rewrite entry_updated_same by first [done | shapes].
        subst vi vn. split; field; by apply Hdet.
      * rewrite !entry_updated_other by first [done | shapes | lia].
        apply Hrows1. lia.
  - replace (Z.to_nat (nsys - 0)) with (Z.to_nat nsys) in Hrun by lia.
    replace (Z.max 0 nsys) with nsys in * by lia.
    exists x'. split; [done|]. split.
    + intros kz ix Hkz Hix H1 H2. apply Hfr; try done. lia.
    + done.
Qed.
End Level.
End CyclicReduction.

(** One system with two local rows: the level with [dist_row = 1] reduces
    row 2 with the rows 1 and 3. *)
Lemma cyclic_reduction_level_keeps_solutions_witness :
  let q := Rational.q in
  let s0 := mkReduction (mkMatrix 1 4 [q 0; q 1; q 1; q 1]) (mkMatrix 1 4 [q 1; q 4; q 4; q 4])
              (mkMatrix 1 4 [q 0; q 1; q 1; q 1]) (mkMatrix 1 4 [q 0; q 6; q 12; q 18])
              [q 0] [q 0] in
  exists s',
    cr_reduce_level (q 0) Qcanon.Qcplus Qcanon.Qcmult Qcanon.Qcopp Qcanon.Qcdiv 1 2 1 s0
    = Ok s'.
Proof.
  intros q s0.
  destruct (cyclic_reduction_level_keeps_solutions _ _ _ _ _ _ _ _ Rational.field
              1 2 ltac:(lia) ltac:(lia) 1 ltac:(lia) eq_refl s0) as (s' & H & _).
  - unfold allocated_reduction. repeat split.
  - intros kz i Hkz [Hmod Hi].
    assert (kz = 0) as -> by lia. assert (i = 2) as -> by lia.
    split; apply Rational.nonzero_neq; vm_compute; reflexivity.
  - exists s'. exact H.
Defined.

(** The same system: with [x(0)] and [x(2)] known, the level with
    [dist_row = 1] solves row 1. *)
Lemma back_substitution_level_solves_rows_witness :
  let q := Rational.q in
  exists x',
    cr_substitute_level (q 0) Qcanon.Qcmult Qcanon.Qcminus Qcanon.Qcdiv 1 2 1
      (mkMatrix 1 4 [q 0; q 1; q 1; q 1]) (mkMatrix 1 4 [q 1; q 4; q 4; q 4])
      (mkMatrix 1 4 [q 0; q 1; q 1; q 1]) (mkMatrix 1 4 [q 0; q 6; q 12; q 18])
      (mkMatrix 1 4 [q 0; q 0; q 2; q 0])
    = Ok x'.
Proof.
  intros q.
  destruct (back_substitution_level_solves_rows _ _ _ _ _ _ _ _ Rational.field
              1 2 ltac:(lia) ltac:(lia) 1 ltac:(lia) eq_refl
              (mkMatrix 1 4 [q 0; q 1; q 1; q 1]) (mkMatrix 1 4 [q 1; q 4; q 4; q 4])
              (mkMatrix 1 4 [q 0; q 1; q 1; q 1]) (mkMatrix 1 4 [q 0; q 6; q 12; q 18])
              (mkMatrix 1 4 [q 0; q 0; q 2; q 0])) as (x' & H & _).
  - repeat split.
  - repeat split.
  - repeat split.
  - repeat split.
  - repeat split.
  - intros kz i Hkz [Hmod Hi].
    assert (kz = 0) as -> by lia. assert (i = 1) as -> by lia.
    apply Rational.nonzero_neq. vm_compute. reflexivity.
  - exists x'. exact H.
Defined.

(** The lower rank of a pair: the rows [n_mpi = 2] and [n_mpi + 1 = 3]. *)
Lemma pair_solve_satisfies_both_rows_witness :
  let q := Rational.q in
  exists x',
    solve_pair (q 0) Qcanon.Qcmult Qcanon.Qcminus Qcanon.Qcdiv 1 2 3
      (mkMatrix 1 4 [q 0; q 1; q 0; q 1]) (mkMatrix 1 4 [q 1; q 4; q 4; q 4])
      (mkMatrix 1 4 [q 0; q 1; q 1; q 0]) (mkMatrix 1 4 [q 0; q 6; q 12; q 18])
      (mkMatrix 1 4 [q 0; q 0; q 0; q 0])
    = Ok x'.
Proof.
  intros q.
  destruct (pair_solve_satisfies_both_rows _ _ _ _ _ _ _ _ Rational.field
              1 2 ltac:(lia) ltac:(lia) 2 3
              (mkMatrix 1 4 [q 0; q 1; q 0; q 1]) (mkMatrix 1 4 [q 1; q 4; q 4; q 4])
              (mkMatrix 1 4 [q 0; q 1; q 1; q 0]) (mkMatrix 1 4 [q 0; q 6; q 12; q 18])
              (mkMatrix 1 4 [q 0; q 0; q 0; q 0])) as (x' & H & _).
  - repeat split.
  - repeat split.
  - repeat split.
  - repeat split.
  - repeat split.
  - lia.
  - lia.
  - lia.
  - intros kz Hkz. assert (kz = 0) as -> by lia.
    apply Rational.nonzero_neq. vm_compute. reflexivity.
  - exists x'. exact H.
Defined.


(** ** Laplace1DMG::Level: the routines that move between levels

    [1d_multigrid.cxx], [Level::is_diagonally_dominant], [Level::coarsen],
    [Level::update_solution] and [Level::init_rhs].  A tensor indexed
    [(l.jy, ix, kz)] is taken at the fixed [l.jy], as a matrix indexed
    [(ix, kz)]. *)

Section LevelDiagonalDominance.
Context {dcomplex : Type}.
Context (c0 : dcomplex).
(** [std::fabs] of a complex number *)
Context (cabs : dcomplex -> float).

Local Abbreviation Mat := (@Matrix dcomplex).





End LevelDiagonalDominance.

Section LevelTransfer.
Context {dcomplex : Type}.
Context (c0 : dcomplex) (cadd cdiv : dcomplex -> dcomplex -> dcomplex).
(** the product of a real number and a complex one *)
Context (scale : float -> dcomplex -> dcomplex).

Local Notation "x +c y" := (cadd x y) (at level 50, left associativity).
Local Notation "x /c y" := (cdiv x y) (at level 40, left associativity).
Local Notation "m [[ i , j ]]" := (entry c0 m i j)
  (at level 1, i at level 200, j at level 200, format "m [[ i ,  j ]]").

Local Abbreviation Mat := (@Matrix dcomplex).

Local Ltac shapes :=
  repeat match goal with
         | H : shaped _ _ _ |- _ => destruct H as (? & ? & ?)
         end;
  cbn [updated shape1 shape2] in *; lia.

Local Ltac mrun :=
  repeat (first [rewrite (mget_in c0) by shapes
                | rewrite mset_updated by shapes];
          cbn [bind]).

(** [xloc(ix, kz) += l.fine_error(ix, kz);] *)
Definition update_point (fine_error : Mat) (kz ix : Z) (xloc : Mat) : result Mat :=
  do x <- mget c0 xloc ix kz ;;
  do e <- mget c0 fine_error ix kz ;;
  mset xloc ix kz (x +c e).

(** [Level::update_solution(l)]:
    [if (not included) return;
     for (kz...) if (not l.converged[kz]) for (int ix = 1; ix < 3; ix++) ...] *)
Definition update_solution (included : bool) (nmode : Z) (converged : list bool)
    (fine_error : Mat) (xloc : Mat) : result Mat :=
  if negb included then Ok xloc
  else
    for_stride (Z.to_nat nmode) 0 nmode 1
      (fun kz xloc =>
         if negb (aget true converged kz)
         then for_stride 2 1 3 1 (update_point fine_error kz) xloc
         else Ok xloc)
      xloc.

(** [Level::update_solution] adds the coarse-grid correction to the two
    interior points of the reduced grid and to nothing else.  On arrays
    with at least three rows the call completes; [xloc(1, kz)] and
    [xloc(2, kz)] of every unconverged mode have [fine_error(1, kz)] and
    [fine_error(2, kz)] added; the guard rows 0 and 3 (and any further
    row), every converged mode, and everything on a level that is not
    included are left as they were. *)
Theorem update_solution_adds_correction_to_interior
    (included : bool) (n1 nmode : Z) (converged : list bool) (fine_error xloc : Mat) :
  3 <= n1 -> 0 <= nmode ->
  shaped n1 nmode xloc -> (3 <= shape1 fine_error /\ shape2 fine_error = nmode) ->
  exists xloc',
    update_solution included nmode converged fine_error xloc = Ok xloc' /\
    same_shape xloc xloc' /\
    forall ix kz, 0 <= ix < n1 -> 0 <= kz < nmode ->
      xloc'[[ix, kz]]
      = if included && negb (aget true converged kz) && (1 <=? ix) && (ix <=? 2)
        then xloc[[ix, kz]] +c fine_error[[ix, kz]]
        else xloc[[ix, kz]].
Proof.
  intros Hn1 Hnmode Hx [Hf1 Hf2]. unfold update_solution.
  destruct included; cbn [negb andb].
  2:{ exists xloc. split; [done|]. split; [done|]. done. }
  destruct (for_stride_ok
              (fun k (x' : Mat) =>
                 shaped n1 nmode x' /\
                 forall ix kz, 0 <= ix < n1 -> 0 <= kz < nmode ->
                   x'[[ix, kz]]
                   = if (kz <? k) && negb (aget true converged kz) && (1 <=? ix) && (ix <=? 2)
                     then xloc[[ix, kz]] +c fine_error[[ix, kz]]
                     else xloc[[ix, kz]])
              (fun kz xloc =>
                 if negb (aget true converged kz)
                 then for_stride 2 1 3 1 (update_point fine_error kz) xloc
                 else Ok xloc) 0 nmode xloc) as (x' & Hrun & Hs' & Hent).
  - split; [done|]. intros ix kz Hix Hkz.
    destruct (Z.ltb_spec kz 0); [lia | done].
  - intros k x1 Hk (Hs1 & Hent1).
    assert (Hw1 : well_shaped x1) by (eapply shaped_well_shaped; [| |exact Hs1]; lia).
    destruct (aget true converged k) eqn:Ec; cbn [negb].
    + exists x1. split; [done|]. split; [done|].
      intros ix kz Hix Hkz. rewrite Hent1 by done.
      destruct (decide (kz = k)) as [->|Hne].
      * rewrite Ec. cbn [negb]. by rewrite !andb_false_r.
      * destruct (Z.ltb_spec kz k), (Z.ltb_spec kz (k + 1)); try lia; done.
    + cbn [for_stride]. change (1 <? 3) with true. change (1 + 1 <? 3) with true.
      change (1 + 1 + 1 <? 3) with false. cbv iota.
      unfold update_point. mrun.
      assert (Hw2 : well_shaped (updated x1 1 k (x1[[1, k]] +c fine_error[[1, k]])))
        by (by apply well_shaped_updated).
      eexists. split; [done|]. split; [by do 2 apply shaped_updated|].
      intros ix kz Hix Hkz.
      destruct (decide (kz = k)) as [->|Hne].
      * rewrite Ec. cbn [negb].
        destruct (Z.ltb_spec k (k + 1)); [|lia]. cbn [andb].
        destruct (decide (ix = 1 + 1)) as [->|Hne2].
        { rewrite entry_updated_same by first [done | shapes].
          rewrite entry_updated_other by first [done | shapes | lia].
          rewrite Hent1 by lia. destruct (Z.ltb_spec k k); [lia|]. done. }
        rewrite entry_updated_other by first [done | shapes | lia].
        destruct (decide (ix = 1)) as [->|Hne1].
        { rewrite entry_updated_same by first [done | shapes].
          rewrite Hent1 by lia. destruct (Z.ltb_spec k k); [lia|]. done. }
        rewrite entry_updated_other by first [done | shapes | lia].
        rewrite Hent1 by lia. destruct (Z.ltb_spec k k); [lia|]. cbn [andb].
        destruct (Z.leb_spec 1 ix), (Z.leb_spec ix 2); try done; lia.
      * rewrite !entry_updated_other by first [done | shapes | lia].
        rewrite Hent1 by done.
        destruct (Z.ltb_spec kz k), (Z.ltb_spec kz (k + 1)); try lia; done.
  - replace (Z.to_nat (nmode - 0)) with (Z.to_nat nmode) in Hrun by lia.
    replace (Z.max 0 nmode) with nmode in * by lia.
    exists x'. split; [done|]. split.
    + destruct Hx as (? & ? & ?), Hs' as (? & ? & ?). split; congruence.
    + intros ix kz Hix Hkz. rewrite Hent by done.
      destruct (Z.ltb_spec kz nmode); [done | lia].
Qed.

(** [rr(ix, kz) = bcmplx(kz, ix) / l.bvec(l.jy, kz, ix);] *)
Definition init_rhs_point (bcmplx bvec : Mat) (kz ix : Z) (rr : Mat) : result Mat :=
  do b <- mget c0 bcmplx kz ix ;;
  do d <- mget c0 bvec kz ix ;;
  mset rr ix kz (b /c d).

(** [Level::init_rhs(l, bcmplx)]:
    [for (kz...) for (int ix = l.localmesh->xstart; ix < l.localmesh->xend; ix++) ...] *)
Definition init_rhs (nmode xstart xend : Z) (bcmplx bvec : Mat) (rr : Mat) : result Mat :=
  for_stride (Z.to_nat nmode) 0 nmode 1
    (fun kz rr =>
       for_stride (Z.to_nat (xend - xstart)) xstart xend 1 (init_rhs_point bcmplx bvec kz) rr)
    rr.

Lemma init_rhs_column (ncx nmode xstart xend kz : Z) (bcmplx bvec rr : Mat) :
  0 <= nmode -> 0 <= xstart -> xend <= ncx -> 0 <= kz < nmode ->
  shaped ncx nmode rr -> shaped nmode ncx bcmplx -> shaped nmode ncx bvec ->
  exists rr',
    for_stride (Z.to_nat (xend - xstart)) xstart xend 1 (init_rhs_point bcmplx bvec kz) rr
    = Ok rr' /\
    shaped ncx nmode rr' /\
    forall ix k, 0 <= ix < ncx -> 0 <= k < nmode ->
      rr'[[ix, k]]
      = if decide (k = kz /\ xstart <= ix < xend) then bcmplx[[kz, ix]] /c bvec[[kz, ix]]
        else rr[[ix, k]].
Proof.
  intros Hnmode Hxs Hxe Hkz Hrr Hb Hd.
  destruct (for_stride_ok
              (fun j (rr' : Mat) =>
                 shaped ncx nmode rr' /\
                 forall ix k, 0 <= ix < ncx -> 0 <= k < nmode ->
                   rr'[[ix, k]]
                   = if decide (k = kz /\ xstart <= ix < j)
                     then bcmplx[[kz, ix]] /c bvec[[kz, ix]] else rr[[ix, k]])
              (init_rhs_point bcmplx bvec kz) xstart xend rr) as (rr' & Hrun & Hs' & Hent).
  - split; [done|]. intros ix k Hix Hk. destruct (decide _); [lia | done].
  - intros j r1 Hj (Hs1 & Hent1).
    assert (Hw1 : well_shaped r1) by (eapply shaped_well_shaped; [| |exact Hs1]; lia).
    unfold init_rhs_point. mrun. eexists. split; [done|].
    split; [by apply shaped_updated|].
    intros ix k Hix Hk.
    destruct (decide (ix = j /\ k = kz)) as [ [-> ->]|Hne].
    + rewrite entry_updated_same by first [done | shapes].
      destruct (decide _) as [_|Hd']; [done | lia].
    + rewrite entry_updated_other by first [done | shapes | lia].
      rewrite Hent1 by done.
      destruct (decide (k = kz /\ xstart <= ix < j));
        destruct (decide (k = kz /\ xstart <= ix < j + 1)); try done; lia.
  - exists rr'. split; [done|]. split; [done|].
    intros ix k Hix Hk. rewrite Hent by done.
    destruct (decide (k = kz /\ xstart <= ix < Z.max xstart xend));
      destruct (decide (k = kz /\ xstart <= ix < xend)); try done; lia.
Qed.

(** [Level::init_rhs] sets the right-hand side on the rows
    [xstart <= ix < xend] only.  The call completes; for every mode
    [rr(ix, kz) = bcmplx(kz, ix) / bvec(jy, kz, ix)] on those rows; every
    other row keeps its value, the row [ix = xend] of the last interior
    point among them. *)
Theorem init_rhs_sets_rows_below_xend
    (ncx nmode xstart xend : Z) (bcmplx bvec rr : Mat) :
  0 <= nmode -> 0 <= xstart -> xend < ncx ->
  shaped ncx nmode rr -> shaped nmode ncx bcmplx -> shaped nmode ncx bvec ->
  exists rr',
    init_rhs nmode xstart xend bcmplx bvec rr = Ok rr' /\
    (forall ix kz, xstart <= ix < xend -> 0 <= kz < nmode ->
       rr'[[ix, kz]] = bcmplx[[kz, ix]] /c bvec[[kz, ix]]) /\
    (forall ix kz, 0 <= ix < ncx -> 0 <= kz < nmode -> ~ (xstart <= ix < xend) ->
       rr'[[ix, kz]] = rr[[ix, kz]]) /\
    (forall kz, 0 <= kz < nmode -> 0 <= xend -> rr'[[xend, kz]] = rr[[xend, kz]]).
Proof.
  intros Hnmode Hxs Hxe Hrr Hb Hd. unfold init_rhs.
  destruct (for_stride_ok
              (fun k (rr' : Mat) =>
                 shaped ncx nmode rr' /\
                 forall ix kz, 0 <= ix < ncx -> 0 <= kz < nmode ->
                   rr'[[ix, kz]]
                   = if decide (kz < k /\ xstart <= ix < xend)
                     then bcmplx[[kz, ix]] /c bvec[[kz, ix]] else rr[[ix, kz]])
              (fun kz rr =>
                 for_stride (Z.to_nat (xend - xstart)) xstart xend 1
                   (init_rhs_point bcmplx bvec kz) rr) 0 nmode rr)
    as (rr' & Hrun & Hs' & Hent).
  - split; [done|]. intros ix kz Hix Hkz. destruct (decide _); [lia | done].
  - intros k r1 Hk (Hs1 & Hent1).
    destruct (init_rhs_column ncx nmode xstart xend k bcmplx bvec r1)
      as (r2 & Hrun2 & Hs2 & Hent2); try done; try lia.
    exists r2. split; [done|]. split; [done|].
    intros ix kz Hix Hkz. rewrite Hent2, Hent1 by done.
    destruct (decide (kz = k /\ xstart <= ix < xend)) as [ [? ?]|?];
      destruct (decide (kz < k /\ xstart <= ix < xend));
      destruct (decide (kz < k + 1 /\ xstart <= ix < xend)); try done; try lia.
    by subst.
  - replace (Z.to_nat (nmode - 0)) with (Z.to_nat nmode) in Hrun by lia.
    replace (Z.max 0 nmode) with nmode in * by lia.
    exists rr'. split; [done|].
    assert (Hall : forall ix kz, 0 <= ix < ncx -> 0 <= kz < nmode ->
              rr'[[ix, kz]]
              = if decide (xstart <= ix < xend)
                then bcmplx[[kz, ix]] /c bvec[[kz, ix]] else rr[[ix, kz]]).
    { intros ix kz Hix Hkz. rewrite Hent by done.
      destruct (decide (kz < nmode /\ xstart <= ix < xend));
        destruct (decide (xstart <= ix < xend)); try done; lia. }
    split; [|split].
    + intros ix kz Hix Hkz. rewrite Hall by lia. destruct (decide _); [done | lia].
    + intros ix kz Hix Hkz Hout. rewrite Hall by lia. destruct (decide _); done.
    + intros kz Hkz Hxe0. rewrite Hall by lia. destruct (decide _); [lia | done].
Qed.

(** The arrays of a coarse level that [coarsen] writes. *)
Record level_fields : Type := mkLevelFields {
  lev_residual : Mat;
  lev_xloc : Mat;
  lev_rr : Mat
}.

(** The body of the loop of [coarsen] for an unconverged mode. *)
Definition coarsen_mode (lastX : bool) (fine_residual : Mat) (kz : Z) (L : level_fields)
    : result level_fields :=
  do residual <-
    (if negb lastX then
       do f0 <- mget c0 fine_residual 0 kz ;;
       do f1 <- mget c0 fine_residual 1 kz ;;
       do f3 <- mget c0 fine_residual 3 kz ;;
       mset (lev_residual L) 1 kz (scale 0.25 f0 +c scale 0.5 f1 +c scale 0.25 f3)
     else
       do f1 <- mget c0 fine_residual 1 kz ;;
       do f2 <- mget c0 fine_residual 2 kz ;;
       do f3 <- mget c0 fine_residual 3 kz ;;
       mset (lev_residual L) 2 kz (scale 0.25 f1 +c scale 0.5 f2 +c scale 0.25 f3)) ;;
  (* "Set initial guess for coarse grid levels to zero" *)
  do xloc <- for_stride 4 0 4 1 (fun ix xloc => mset xloc ix kz c0) (lev_xloc L) ;;
  (* "Set RHS equal to residual" *)
  do r1 <- mget c0 residual 1 kz ;;
  do rr <- mset (lev_rr L) 1 kz r1 ;;
  do rr <- (if lastX then do r2 <- mget c0 residual 2 kz ;; mset rr 2 kz r2 else Ok rr) ;;
  Ok (mkLevelFields residual xloc rr).

(** [Level::coarsen(l, fine_residual)] *)
Definition coarsen (included lastX : bool) (nmode : Z) (converged : list bool)
    (fine_residual : Mat) (L : level_fields) : result level_fields :=
  if negb included then Ok L
  else
    for_stride (Z.to_nat nmode) 0 nmode 1
      (fun kz L =>
         if negb (aget true converged kz) then coarsen_mode lastX fine_residual kz L
         else Ok L)
      L.

Definition allocated_level (nmode : Z) (L : level_fields) : Prop :=
  shaped 4 nmode (lev_residual L) /\ shaped 4 nmode (lev_xloc L) /\
  shaped 4 nmode (lev_rr L).

(** The restricted residual of mode [kz]. *)
Definition restricted (lastX : bool) (fine_residual : Mat) (kz : Z) : dcomplex :=
  if lastX
  then scale 0.25 fine_residual[[1, kz]] +c scale 0.5 fine_residual[[2, kz]]
       +c scale 0.25 fine_residual[[3, kz]]
  else scale 0.25 fine_residual[[0, kz]] +c scale 0.5 fine_residual[[1, kz]]
       +c scale 0.25 fine_residual[[3, kz]].

(** What [coarsen] leaves in column [kz] of the three arrays when it has
    worked on that mode. *)
Definition coarsened_column (lastX : bool) (fine_residual : Mat) (L L' : level_fields)
    (kz : Z) : Prop :=
  (forall ix, 0 <= ix < 4 -> (lev_xloc L')[[ix, kz]] = c0) /\
  (forall ix, 0 <= ix < 4 ->
     (lev_residual L')[[ix, kz]]
     = if decide (ix = if lastX then 2 else 1) then restricted lastX fine_residual kz
       else (lev_residual L)[[ix, kz]]) /\
  (forall ix, 0 <= ix < 4 ->
     (lev_rr L')[[ix, kz]]
     = if decide (ix = 1) then (lev_residual L')[[1, kz]]
       else if decide (ix = 2 /\ lastX = true) then (lev_residual L')[[2, kz]]
       else (lev_rr L)[[ix, kz]]).

Definition same_column (L L' : level_fields) (kz : Z) : Prop :=
  forall ix, 0 <= ix < 4 ->
    (lev_residual L')[[ix, kz]] = (lev_residual L)[[ix, kz]] /\
    (lev_xloc L')[[ix, kz]] = (lev_xloc L)[[ix, kz]] /\
    (lev_rr L')[[ix, kz]] = (lev_rr L)[[ix, kz]].

Lemma coarsen_mode_run (lastX : bool) (nmode kz : Z) (fine_residual : Mat)
    (L : level_fields) :
  0 <= kz < nmode ->
  (4 <= shape1 fine_residual /\ shape2 fine_residual = nmode) ->
  allocated_level nmode L ->
  exists L',
    coarsen_mode lastX fine_residual kz L = Ok L' /\ allocated_level nmode L' /\
    coarsened_column lastX fine_residual L L' kz /\
    forall k, 0 <= k < nmode -> k <> kz -> same_column L L' k.
Proof.
  intros Hkz [Hf1 Hf2] (Hres & Hxl & Hrr).
  assert (Hwres : well_shaped (lev_residual L))
    by (eapply shaped_well_shaped; [| |exact Hres]; lia).
  assert (Hwxl : well_shaped (lev_xloc L))
    by (eapply shaped_well_shaped; [| |exact Hxl]; lia).
  assert (Hwrr : well_shaped (lev_rr L))
    by (eapply shaped_well_shaped; [| |exact Hrr]; lia).
  unfold coarsen_mode.
  (* the restriction *)
  set (row := if lastX then 2 else 1).
  assert (Hres' :
    (if negb lastX then
       do f0 <- mget c0 fine_residual 0 kz ;;
       do f1 <- mget c0 fine_residual 1 kz ;;
       do f3 <- mget c0 fine_residual 3 kz ;;
       mset (lev_residual L) 1 kz (scale 0.25 f0 +c scale 0.5 f1 +c scale 0.25 f3)
     else
       do f1 <- mget c0 fine_residual 1 kz ;;
       do f2 <- mget c0 fine_residual 2 kz ;;
       do f3 <- mget c0 fine_residual 3 kz ;;
       mset (lev_residual L) 2 kz (scale 0.25 f1 +c scale 0.5 f2 +c scale 0.25 f3))
    = Ok (updated (lev_residual L) row kz (restricted lastX fine_residual kz))).
  { subst row. unfold restricted. destruct lastX; cbn [negb]; mrun; done. }
  rewrite Hres'. cbn [bind].
  set (res' := updated (lev_residual L) row kz (restricted lastX fine_residual kz)).
  assert (Hsres' : shaped 4 nmode res') by (by apply shaped_updated).
  assert (Hrow : 1 <= row <= 2) by (subst row; destruct lastX; lia).
  (* the initial guess *)
  destruct (for_stride_ok
              (fun j (x' : Mat) =>
                 shaped 4 nmode x' /\
                 forall ix k, 0 <= ix < 4 -> 0 <= k < nmode ->
                   x'[[ix, k]] = if decide (k = kz /\ ix < j) then c0
                                 else (lev_xloc L)[[ix, k]])
              (fun ix xloc => mset xloc ix kz c0) 0 4 (lev_xloc L))
    as (xl' & Hrunx & Hsxl' & Hentx).
  { split; [done|]. intros ix k Hix Hk. destruct (decide _); [lia | done]. }
  { intros j x1 Hj (Hs1 & Hent1).
    assert (Hw1 : well_shaped x1) by (eapply shaped_well_shaped; [| |exact Hs1]; lia).
    mrun. eexists. split; [done|]. split; [by apply shaped_updated|].
    intros ix k Hix Hk.
    destruct (decide (ix = j /\ k = kz)) as [ [-> ->]|Hne].
    - rewrite entry_updated_same by first [done | shapes].
      destruct (decide _); [done | lia].
    - rewrite entry_updated_other by first [done | shapes | lia].
      rewrite Hent1 by done.
      destruct (decide (k = kz /\ ix < j)); destruct (decide (k = kz /\ ix < j + 1));
        try done; lia. }
  change (Z.to_nat (4 - 0)) with 4%nat in Hrunx. rewrite Hrunx. cbn [bind].
  change (Z.max 0 4) with 4 in Hentx.
  (* the right-hand side *)
  rewrite (mget_in c0) by shapes. cbn [bind].
  rewrite mset_updated by shapes. cbn [bind].
  set (rr1 := updated (lev_rr L) 1 kz res'[[1, kz]]).
  assert (Hsrr1 : shaped 4 nmode rr1) by (by apply shaped_updated).
  assert (Hwrr1 : well_shaped rr1) by (by apply well_shaped_updated).
  assert (Hrr' : exists rr',
            (if lastX then do r2 <- mget c0 res' 2 kz ;; mset rr1 2 kz r2 else Ok rr1)
            = Ok rr' /\ shaped 4 nmode rr' /\
            forall ix k, 0 <= ix < 4 -> 0 <= k < nmode ->
              rr'[[ix, k]]
              = if decide (k = kz /\ ix = 1) then res'[[1, kz]]
                else if decide (k = kz /\ ix = 2 /\ lastX = true) then res'[[2, kz]]
                else (lev_rr L)[[ix, k]]).
  { destruct lastX.
    - rewrite (mget_in c0) by shapes. cbn [bind].
      rewrite mset_updated by shapes.
      eexists. split; [done|]. split; [by apply shaped_updated|].
      intros ix k Hix Hk.
      destruct (decide (k = kz /\ ix = 2)) as [ [-> ->]|Hne].
      + rewrite entry_updated_same by first [done | shapes].
        destruct (decide _); [lia|]. destruct (decide _) as [_|Hd]; [done|].
        exfalso. apply Hd. done.
      + rewrite entry_updated_other by first [done | shapes | lia]. subst rr1.
        destruct (decide (k = kz /\ ix = 1)) as [ [-> ->]|Hne1].
        * by rewrite entry_updated_same by first [done | shapes].
        * rewrite entry_updated_other by first [done | shapes | lia].
          destruct (decide _); [lia | done].
    - exists rr1. split; [done|]. split; [done|].
      intros ix k Hix Hk. subst rr1.
      destruct (decide (k = kz /\ ix = 1)) as [ [-> ->]|Hne1].
      + by rewrite entry_updated_same by first [done | shapes].
      + rewrite entry_updated_other by first [done | shapes | lia].
        destruct (decide _) as [(_ & _ & ?)|_]; done. }
  destruct Hrr' as (rr' & -> & Hsrr' & Hentr). cbn [bind].
  eexists. split; [done|]. split; [done|].
  assert (Hentres : forall ix k, 0 <= ix < 4 -> 0 <= k < nmode ->
            res'[[ix, k]]
            = if decide (k = kz /\ ix = row) then restricted lastX fine_residual kz
              else (lev_residual L)[[ix, k]]).
  { intros ix k Hix Hk. subst res'.
    destruct (decide (k = kz /\ ix = row)) as [ [-> ->]|Hne].
    - by rewrite entry_updated_same by first [done | shapes].
    - by rewrite entry_updated_other by first [done | shapes | lia]. }
  split.
  - unfold coarsened_column. cbn [lev_residual lev_xloc lev_rr]. split; [|split].
    + intros ix Hix. rewrite Hentx by lia. destruct (decide _); [done | lia].
    + intros ix Hix. rewrite Hentres by lia. fold row.
      destruct (decide (kz = kz /\ ix = row)); destruct (decide (ix = row));
        try done; lia.
    + intros ix Hix. rewrite Hentr by lia.
      destruct (decide (kz = kz /\ ix = 1)); destruct (decide (ix = 1)); try done;
        try lia.
      destruct (decide (kz = kz /\ ix = 2 /\ lastX = true)) as [(_ & ? & ?)|Hd1];
        destruct (decide (ix = 2 /\ lastX = true)) as [ [? ?]|Hd2]; try done.
      * exfalso. apply Hd2. done.
      * exfalso. apply Hd1. done.
  - intros k Hk Hne ix Hix. cbn [lev_residual lev_xloc lev_rr].
    rewrite Hentres, Hentx, Hentr by lia.
    repeat (destruct (decide _); try lia). done.
Qed.

(** [Level::coarsen] restricts the residual, resets the coarse solution
    and sets the coarse right-hand side, mode by mode.  On a level that is
    included the call completes; for every unconverged mode the four
    entries of [xloc] are zero, [residual(1, kz)] (on the last rank
    [residual(2, kz)] instead) is the weighted sum
    [0.25 f(0) + 0.5 f(1) + 0.25 f(3)] (on the last rank
    [0.25 f(1) + 0.5 f(2) + 0.25 f(3)]) of the fine residual, and [rr(1, kz)]
    (on the last rank also [rr(2, kz)]) equals the residual of the same row,
    which on the last rank is, for row 1, the value [residual(1, kz)] had
    before the call.  The columns of converged modes are left alone, and a
    level that is not included is not touched at all. *)
Theorem coarsen_restricts_unconverged_modes
    (included lastX : bool) (nmode : Z) (converged : list bool)
    (fine_residual : Mat) (L : level_fields) :
  0 <= nmode ->
  (4 <= shape1 fine_residual /\ shape2 fine_residual = nmode) ->
  allocated_level nmode L ->
  exists L',
    coarsen included lastX nmode converged fine_residual L = Ok L' /\
    (included = false -> L' = L) /\
    forall kz, 0 <= kz < nmode ->
      (included = true -> aget true converged kz = false ->
       coarsened_column lastX fine_residual L L' kz) /\
      (aget true converged kz = true -> same_column L L' kz).
Proof.
  intros Hnmode Hfine HL. unfold coarsen.
  destruct included; cbn [negb].
  2:{ exists L. split; [done|]. split; [done|]. intros kz Hkz. split; [done|].
      intros _ ix Hix. done. }
  destruct (for_stride_ok
              (fun k (L' : level_fields) =>
                 allocated_level nmode L' /\
                 forall kz, 0 <= kz < nmode ->
                   if (kz <? k) && negb (aget true converged kz)
                   then coarsened_column lastX fine_residual L L' kz
                   else same_column L L' kz)
              (fun kz L =>
                 if negb (aget true converged kz) then coarsen_mode lastX fine_residual kz L
                 else Ok L) 0 nmode L) as (L' & Hrun & HL' & Hcols).
  - split; [done|]. intros kz Hkz.
    destruct (Z.ltb_spec kz 0); [lia|]. cbn [andb]. intros ix Hix. done.
  - intros k L1 Hk (HL1 & Hcols1).
    destruct (aget true converged k) eqn:Ec; cbn [negb].
    + exists L1. split; [done|]. split; [done|].
      intros kz Hkz. specialize (Hcols1 kz Hkz).
      destruct (decide (kz = k)) as [->|Hne].
      * rewrite Ec in *. rewrite andb_false_r in *. done.
      * destruct (Z.ltb_spec kz k), (Z.ltb_spec kz (k + 1)); try lia; done.
    + destruct (coarsen_mode_run lastX nmode k fine_residual L1 Hk Hfine HL1)
        as (L2 & Hrun2 & HL2 & Hcol2 & Hother2).
      exists L2. split; [done|]. split; [done|].
      intros kz Hkz. specialize (Hcols1 kz Hkz).
      destruct (decide (kz = k)) as [->|Hne].
      * rewrite Ec in *. destruct (Z.ltb_spec k (k + 1)); [|lia].
        destruct (Z.ltb_spec k k); [lia|]. cbn [negb andb] in *.
        (* column k of L1 is still that of L *)
        destruct Hcol2 as (Hx2 & Hr2 & Hrr2). split; [done|]. split.
        { intros ix Hix. rewrite Hr2 by done.
          destruct (decide _); [done|]. by destruct (Hcols1 ix Hix) as (-> & _ & _). }
        { intros ix Hix. rewrite Hrr2 by done.
          repeat (destruct (decide _); try done).
          by destruct (Hcols1 ix Hix) as (_ & _ & ->). }
      * specialize (Hother2 kz Hkz Hne).
        destruct (Z.ltb_spec kz k), (Z.ltb_spec kz (k + 1)); try lia; cbn [andb] in *.
        { destruct (negb (aget true converged kz)).
          - destruct Hcols1 as (Hx1 & Hr1 & Hrr1). split; [|split].
            + intros ix Hix. destruct (Hother2 ix Hix) as (_ & -> & _). by apply Hx1.
            + intros ix Hix. destruct (Hother2 ix Hix) as (-> & _ & _). by apply Hr1.
            + intros ix Hix. destruct (Hother2 ix Hix) as (_ & _ & ->).
              rewrite Hrr1 by done.
              destruct (Hother2 1 ltac:(lia)) as (-> & _ & _).
              destruct (Hother2 2 ltac:(lia)) as (-> & _ & _). done.
          - intros ix Hix. destruct (Hother2 ix Hix) as (-> & -> & ->).
            by apply Hcols1. }
        { intros ix Hix. destruct (Hother2 ix Hix) as (-> & -> & ->).
          by apply Hcols1. }
  - replace (Z.to_nat (nmode - 0)) with (Z.to_nat nmode) in Hrun by lia.
    replace (Z.max 0 nmode) with nmode in * by lia.
    exists L'. split; [done|]. split; [done|].
    intros kz Hkz. specialize (Hcols kz Hkz).
    destruct (Z.ltb_spec kz nmode); [|lia]. cbn [andb] in Hcols. split.
    + intros _ Hc. by rewrite Hc in Hcols.
    + intros Hc. by rewrite Hc in Hcols.
Qed.
End LevelTransfer.


(** Two modes, the second one converged. *)
Lemma update_solution_adds_correction_to_interior_witness :
  update_solution 0 Z.add true 2 [false; true]
    (mkMatrix 4 2 [0; 0; 10; 10; 20; 20; 0; 0]) (mkMatrix 4 2 [1; 2; 3; 4; 5; 6; 7; 8])
  = Ok (mkMatrix 4 2 [1; 2; 13; 4; 25; 6; 7; 8]).
Proof.
  destruct (update_solution_adds_correction_to_interior 0 Z.add true 4 2 [false; true]
              (mkMatrix 4 2 [0; 0; 10; 10; 20; 20; 0; 0])
              (mkMatrix 4 2 [1; 2; 3; 4; 5; 6; 7; 8])) as (x' & Hrun & _).
  - lia.
  - lia.
  - repeat split.
  - simpl. lia.
  - reflexivity.
Defined.

(** Four rows, [xstart = 1], [xend = 2]: only row 1 is set. *)
Lemma init_rhs_sets_rows_below_xend_witness :
  init_rhs 0 Z.div 1 1 2 (mkMatrix 1 4 [10; 20; 30; 40]) (mkMatrix 1 4 [1; 2; 3; 4])
    (mkMatrix 4 1 [7; 7; 7; 7])
  = Ok (mkMatrix 4 1 [7; 10; 7; 7]).
Proof.
  destruct (init_rhs_sets_rows_below_xend 0 Z.div 4 1 1 2
              (mkMatrix 1 4 [10; 20; 30; 40]) (mkMatrix 1 4 [1; 2; 3; 4])
              (mkMatrix 4 1 [7; 7; 7; 7])) as (rr' & Hrun & _).
  - lia.
  - lia.
  - lia.
  - repeat split.
  - repeat split.
  - repeat split.
  - reflexivity.
Defined.

(** One unconverged mode on a rank that is not the last one. *)
Lemma coarsen_restricts_unconverged_modes_witness :
  exists L',
    coarsen 0%float PrimFloat.add PrimFloat.mul true false 1 [false]
      (mkMatrix 4 1 [4; 8; 0; 16]%float)
      (mkLevelFields (mkMatrix 4 1 [1; 1; 1; 1]%float) (mkMatrix 4 1 [2; 2; 2; 2]%float)
         (mkMatrix 4 1 [3; 3; 3; 3]%float))
    = Ok L'.
Proof.
  destruct (coarsen_restricts_unconverged_modes 0%float PrimFloat.add PrimFloat.mul
              true false 1 [false] (mkMatrix 4 1 [4; 8; 0; 16]%float)
              (mkLevelFields (mkMatrix 4 1 [1; 1; 1; 1]%float)
                 (mkMatrix 4 1 [2; 2; 2; 2]%float) (mkMatrix 4 1 [3; 3; 3; 3]%float)))
    as (L' & Hrun & _).
  - lia.
  - simpl. lia.
  - unfold allocated_level. repeat split.
  - exists L'. exact Hrun.
Defined.


(** ** LaplaceParallelTri, first version: the loop as a whole *)

Module IPT1Loop.
Section Loop.
Context {LocalArrays : Type}.
Context (local_solve : Z -> LocalArrays -> LocalArrays).
Context (errors : LocalArrays -> float * float).
Context (receive_in receive_out : Z -> LocalArrays -> LocalArrays).
Context (save_last : LocalArrays -> LocalArrays).

Local Abbreviation state := (@IPT1.state LocalArrays).
Local Abbreviation iterate :=
  (IPT1.iterate local_solve errors receive_in receive_out save_last).
Local Abbreviation solve_mode :=
  (IPT1.solve_mode local_solve errors receive_in receive_out save_last).


End Loop.
End IPT1Loop.



(** ** Laplace1DMG::solve: the cached solution

    [1d_multigrid.cxx], [Laplace1DMG::solve]: "Cache solution" at the end of
    a call and "Set initial values with cached values" at the start of the
    next, for the slice of [x0saved] at the call's [jy]. *)

Section WarmStart.
Context {dcomplex : Type}.
Context (c0 : dcomplex).

Local Notation "m [[ i , j ]]" := (entry c0 m i j)
  (at level 1, i at level 200, j at level 200, format "m [[ i ,  j ]]").

Local Abbreviation Mat := (@Matrix dcomplex).

Local Ltac shapes :=
  repeat match goal with
         | H : shaped _ _ _ |- _ => destruct H as (? & ? & ?)
         end;
  cbn [updated shape1 shape2] in *; lia.

Local Ltac mrun :=
  repeat (first [rewrite (mget_in c0) by shapes
                | rewrite mset_updated by shapes];
          cbn [bind]).

(** [for (ix = 0; ix < rows; ix++) for (kz = 0; kz < nmode; kz++)
      dst(ix, kz) = src(ix, kz);] *)
Definition copy_rows (rows nmode : Z) (src : Mat) (dst : Mat) : result Mat :=
  for_stride (Z.to_nat rows) 0 rows 1
    (fun ix dst =>
       for_stride (Z.to_nat nmode) 0 nmode 1
         (fun kz dst => do v <- mget c0 src ix kz ;; mset dst ix kz v) dst)
    dst.

(** "Cache solution":
    [for (ix < 4) for (kz < nmode) x0saved(jy, ix, kz) = levels[0].xloc(ix, kz);] *)
Definition cache_solution (nmode : Z) (xloc x0saved : Mat) : result Mat :=
  copy_rows 4 nmode xloc x0saved.

(** "Set initial values with cached values":
    [for (ix < ncx) for (kz < nmode) levels[0].xloc(ix, kz) = x0saved(jy, ix, kz);] *)
Definition set_initial_values (ncx nmode : Z) (x0saved xloc : Mat) : result Mat :=
  copy_rows ncx nmode x0saved xloc.

Lemma copy_rows_run (rows nmode n1 n1' : Z) (src dst : Mat) :
  0 <= nmode -> 0 <= rows -> rows <= n1 -> rows <= n1' ->
  shaped n1 nmode src -> shaped n1' nmode dst ->
  exists dst',
    copy_rows rows nmode src dst = Ok dst' /\ shaped n1' nmode dst' /\
    forall ix kz, 0 <= ix < n1' -> 0 <= kz < nmode ->
      dst'[[ix, kz]] = if decide (ix < rows) then src[[ix, kz]] else dst[[ix, kz]].
Proof.
  intros Hnmode Hrows Hle Hle' Hsrc Hdst. unfold copy_rows.
  destruct (for_stride_ok
              (fun i (d : Mat) =>
                 shaped n1' nmode d /\
                 forall ix kz, 0 <= ix < n1' -> 0 <= kz < nmode ->
                   d[[ix, kz]] = if decide (ix < i) then src[[ix, kz]] else dst[[ix, kz]])
              (fun ix dst =>
                 for_stride (Z.to_nat nmode) 0 nmode 1
                   (fun kz dst => do v <- mget c0 src ix kz ;; mset dst ix kz v) dst)
              0 rows dst) as (d' & Hrun & Hs' & Hent).
  - split; [done|]. intros ix kz Hix Hkz. destruct (decide _); [lia | done].
  - intros i d1 Hi (Hs1 & Hent1).
    destruct (for_stride_ok
                (fun k (d : Mat) =>
                   shaped n1' nmode d /\
                   forall ix kz, 0 <= ix < n1' -> 0 <= kz < nmode ->
                     d[[ix, kz]] = if decide (ix = i /\ kz < k) then src[[ix, kz]]
                                   else d1[[ix, kz]])
                (fun kz dst => do v <- mget c0 src i kz ;; mset dst i kz v)
                0 nmode d1) as (d2 & Hrun2 & Hs2 & Hent2).
    + split; [done|]. intros ix kz Hix Hkz. destruct (decide _); [lia | done].
    + intros k d Hk (Hsd & Hentd).
      assert (Hwd : well_shaped d) by (eapply shaped_well_shaped; [| |exact Hsd]; lia).
      mrun. eexists. split; [done|]. split; [by apply shaped_updated|].
      intros ix kz Hix Hkz.
      destruct (decide (ix = i /\ kz = k)) as [ [-> ->]|Hne].
      * rewrite entry_updated_same by first [done | shapes].
        destruct (decide _); [done | lia].
      * rewrite entry_updated_other by first [done | shapes | lia].
        rewrite Hentd by done.
        destruct (decide (ix = i /\ kz < k)); destruct (decide (ix = i /\ kz < k + 1));
          try done; lia.
    + replace (Z.to_nat (nmode - 0)) with (Z.to_nat nmode) in Hrun2 by lia.
      replace (Z.max 0 nmode) with nmode in * by lia.
      exists d2. split; [done|]. split; [done|].
      intros ix kz Hix Hkz. rewrite Hent2, Hent1 by done.
      destruct (decide (ix = i /\ kz < nmode)) as [ [? ?]|?];
        destruct (decide (ix < i)); destruct (decide (ix < i + 1));
        first [done | lia | by subst].
  - replace (Z.to_nat (rows - 0)) with (Z.to_nat rows) in Hrun by lia.
    replace (Z.max 0 rows) with rows in * by lia.
    exists d'. done.
Qed.

(** Only four rows of the solution survive from one call to the next.
    With [ncx >= 4], caching the level-0 solution [xloc] in [x0saved] and
    setting the initial values of the next call from it gives an [xloc']
    whose rows 0 to 3 are those of [xloc]; its rows 4 to [ncx - 1] are
    whatever [x0saved] held before the solution was cached, and its last
    two rows ([ncx] and [ncx + 1]) are not set at all. *)
Theorem warm_start_restores_four_rows
    (ncx nmode : Z) (xloc x0saved next : Mat) :
  4 <= ncx -> 0 <= nmode ->
  shaped (ncx + 2) nmode xloc -> shaped ncx nmode x0saved ->
  shaped (ncx + 2) nmode next ->
  exists saved xloc',
    cache_solution nmode xloc x0saved = Ok saved /\
    set_initial_values ncx nmode saved next = Ok xloc' /\
    forall ix kz, 0 <= ix < ncx + 2 -> 0 <= kz < nmode ->
      xloc'[[ix, kz]]
      = if decide (ix < 4) then xloc[[ix, kz]]
        else if decide (ix < ncx) then x0saved[[ix, kz]]
        else next[[ix, kz]].
Proof.
  intros Hncx Hnmode Hx Hs Hn. unfold cache_solution, set_initial_values.
  destruct (copy_rows_run 4 nmode (ncx + 2) ncx xloc x0saved)
    as (saved & Hrun1 & Hs1 & Hent1); try done; try lia.
  destruct (copy_rows_run ncx nmode ncx (ncx + 2) saved next)
    as (xloc' & Hrun2 & Hs2 & Hent2); try done; try lia.
  exists saved, xloc'. split; [done|]. split; [done|].
  intros ix kz Hix Hkz. rewrite Hent2 by done.
  destruct (decide (ix < ncx)).
  - rewrite Hent1 by lia. destruct (decide (ix < 4)); done.
  - destruct (decide (ix < 4)); [lia | done].
Qed.
End WarmStart.

(** Five rows, one mode. *)
Lemma warm_start_restores_four_rows_witness :
  exists saved xloc',
    cache_solution 0 1 (mkMatrix 7 1 [1; 2; 3; 4; 5; 6; 7]) (mkMatrix 5 1 [0; 0; 0; 0; 0])
    = Ok saved /\
    set_initial_values 0 5 1 saved (mkMatrix 7 1 [9; 9; 9; 9; 9; 9; 9]) = Ok xloc' /\
    entry 0 xloc' 4 0 = 0.
Proof.
  destruct (warm_start_restores_four_rows 0 5 1 (mkMatrix 7 1 [1; 2; 3; 4; 5; 6; 7])
              (mkMatrix 5 1 [0; 0; 0; 0; 0]) (mkMatrix 7 1 [9; 9; 9; 9; 9; 9; 9]))
    as (saved & xloc' & H1 & H2 & H3).
  - lia.
  - lia.
  - repeat split.
  - repeat split.
  - repeat split.
  - exists saved, xloc'. split; [exact H1|]. split; [exact H2|].
    rewrite H3 by lia. reflexivity.
Defined.


(** ** Convergence marking in the two iterative solvers

    [parallel_tri.cxx], the test "Set communication flags" of the third
    version of [LaplaceParallelTri::solve]; [1d_multigrid.cxx],
    [Level::calculate_total_residual] and the routines of [Level] that write
    the values of a mode: [gauss_seidel_red_black_local], [update_solution]
    and [coarsen]. *)

Section ColumnsOfConvergedModes.
Context {dcomplex : Type}.
Context (c0 : dcomplex).

Local Abbreviation Mat := (@Matrix dcomplex).





End ColumnsOfConvergedModes.

Section ConvergenceMarking.
Context {dcomplex : Type}.
Context (c0 : dcomplex) (cadd cmul csub : dcomplex -> dcomplex -> dcomplex).
Context (cabs : dcomplex -> float).
(** the product of a real number and a complex one *)
Context (scale : float -> dcomplex -> dcomplex).

Local Notation "x +c y" := (cadd x y) (at level 50, left associativity).
Local Notation "x *c y" := (cmul x y) (at level 40, left associativity).
Local Notation "a [@ i ]" := (aget c0 a i) (at level 1, i at level 200, format "a [@ i ]").

Local Abbreviation Mat := (@Matrix dcomplex).





End ConvergenceMarking.

